(** * AdvancedControlFlow: the Multi Conditional Select node

    A shallow embedding of [K2Node_MultiConditionalSelect.cpp].

    The editor keeps every pin as a heap object and a node holds an ordered
    array of pointers to its pins.  The embedding keeps that shape: pins live
    in an arena ([Heap]), a pointer is an index into it, and the member
    functions of the node are computations in a state-and-failure monad.  A
    computation fails exactly where the C++ code would dereference a null or
    dangling pointer or index an array out of range.

    The nodes spawned by [ExpandNode] are kept as records whose pins carry
    their links, and a small evaluator gives the primitive nodes (Select,
    Make Array, Array_Find, EqualEqual_IntInt) their data-flow meaning. *)

From Stdlib Require Import ZArith Ascii String List Lia Bool.
From stdpp Require Import base list strings pretty.

Open Scope string_scope.
Open Scope list_scope.

(** ** Data model *)

Abbreviation FName := string (only parsing).

(** Pin categories of the Blueprint schema ([UEdGraphSchema_K2::PC_*]). *)
Definition PC_Wildcard : FName := "wildcard".
Definition PC_Boolean : FName := "bool".
Definition PC_Int : FName := "int".
Definition PC_Exec : FName := "exec".

Record FEdGraphPinType := {
  PinCategory : FName;
  PinSubCategory : FName
}.

Inductive EEdGraphPinDirection := EGPD_Input | EGPD_Output.

(** A [UEdGraphPin*] that is known not to be null: an index into the arena. *)
Abbreviation PinPtr := nat (only parsing).

Record UEdGraphPin := {
  PinName : FName;
  Direction : EEdGraphPinDirection;
  PinType : FEdGraphPinType;
  PinFriendlyName : string;
  DefaultValue : string;
  LinkedTo : list PinPtr
}.

Definition with_PinType (t : FEdGraphPinType) (p : UEdGraphPin) : UEdGraphPin :=
  {| PinName := PinName p; Direction := Direction p; PinType := t;
     PinFriendlyName := PinFriendlyName p; DefaultValue := DefaultValue p;
     LinkedTo := LinkedTo p |}.

Definition with_PinFriendlyName (n : string) (p : UEdGraphPin) : UEdGraphPin :=
  {| PinName := PinName p; Direction := Direction p; PinType := PinType p;
     PinFriendlyName := n; DefaultValue := DefaultValue p;
     LinkedTo := LinkedTo p |}.

Definition with_DefaultValue (v : string) (p : UEdGraphPin) : UEdGraphPin :=
  {| PinName := PinName p; Direction := Direction p; PinType := PinType p;
     PinFriendlyName := PinFriendlyName p; DefaultValue := v;
     LinkedTo := LinkedTo p |}.

Definition with_LinkedTo (l : list PinPtr) (p : UEdGraphPin) : UEdGraphPin :=
  {| PinName := PinName p; Direction := Direction p; PinType := PinType p;
     PinFriendlyName := PinFriendlyName p; DefaultValue := DefaultValue p;
     LinkedTo := l |}.

(** *** Pins and nodes of the intermediate graph *)

(** Which pin of an intermediate node. *)
Inductive PinSel :=
| SelIndex
| SelOption (i : nat)
| SelInput (i : nat)
| SelParam (name : string)
| SelReturn.

(** A pin of an intermediate node: the node's position in the list of
    spawned nodes and the pin inside it. *)
Definition IPinRef : Type := nat * PinSel.

(** The peer of a link held by an intermediate pin: a pin of the arena or a
    pin of another intermediate node. *)
Inductive PinLink :=
| ToPin (p : PinPtr)
| ToIntermediate (r : IPinRef).

Record IPin := {
  IPinType : FEdGraphPinType;
  IDefaultValue : string;
  ILinkedTo : list PinLink
}.

Definition wildcard_type : FEdGraphPinType :=
  {| PinCategory := PC_Wildcard; PinSubCategory := "" |}.

Definition new_IPin (Category : FName) : IPin :=
  {| IPinType := {| PinCategory := Category; PinSubCategory := "" |};
     IDefaultValue := ""; ILinkedTo := [] |}.

Definition with_IPinType (t : FEdGraphPinType) (p : IPin) : IPin :=
  {| IPinType := t; IDefaultValue := IDefaultValue p; ILinkedTo := ILinkedTo p |}.

Definition with_IPinCategory (c : FName) (p : IPin) : IPin :=
  with_IPinType {| PinCategory := c; PinSubCategory := PinSubCategory (IPinType p) |} p.

Definition with_IDefaultValue (v : string) (p : IPin) : IPin :=
  {| IPinType := IPinType p; IDefaultValue := v; ILinkedTo := ILinkedTo p |}.

Definition with_ILinkedTo (l : list PinLink) (p : IPin) : IPin :=
  {| IPinType := IPinType p; IDefaultValue := IDefaultValue p; ILinkedTo := l |}.

(** The primitive nodes the expansion spawns. *)
Inductive K2Node :=
| K2Node_Select (IndexPin : IPin) (OptionPins : list IPin) (ReturnValuePin : IPin)
| K2Node_MakeArray (InputPins : list IPin) (OutputPin : IPin)
| K2Node_CallFunction (FunctionName : string) (ParamPins : list (string * IPin))
    (ReturnValuePin : IPin).

(** *** The editor state seen by the node *)

Record World := {
  Heap : list UEdGraphPin;      (* every pin object *)
  Pins : list PinPtr;           (* the node's [Pins] array *)
  Intermediate : list K2Node;   (* nodes spawned by the compiler context *)
  Modified : bool               (* the owning blueprint is marked modified *)
}.

Definition with_Heap (h : list UEdGraphPin) (s : World) : World :=
  {| Heap := h; Pins := Pins s; Intermediate := Intermediate s; Modified := Modified s |}.

Definition with_Pins (ps : list PinPtr) (s : World) : World :=
  {| Heap := Heap s; Pins := ps; Intermediate := Intermediate s; Modified := Modified s |}.

Definition with_Intermediate (g : list K2Node) (s : World) : World :=
  {| Heap := Heap s; Pins := Pins s; Intermediate := g; Modified := Modified s |}.

Definition with_Modified (b : bool) (s : World) : World :=
  {| Heap := Heap s; Pins := Pins s; Intermediate := Intermediate s; Modified := b |}.

(** ** The state-and-failure monad *)

Definition M (A : Type) : Type := World -> option (A * World).

Definition ret {A} (a : A) : M A := fun s => Some (a, s).

Definition bind {A B} (m : M A) (k : A -> M B) : M B :=
  fun s => match m s with
           | Some (a, s') => k a s'
           | None => None
           end.

(** A crash: null or dangling dereference, array index out of range. *)
Definition fault {A} : M A := fun _ => None.

Declare Scope M_scope.
Delimit Scope M_scope with M.
Bind Scope M_scope with M.

Notation "x <- m ;; k" := (bind m (fun x => k))
  (at level 100, m at next level, right associativity) : M_scope.
Notation "m ;; k" := (bind m (fun _ => k))
  (at level 100, right associativity) : M_scope.

Open Scope M_scope.

Definition get_world : M World := fun s => Some (s, s).

Definition lift_option {A} (o : option A) : M A :=
  match o with
  | Some a => ret a
  | None => fault
  end.

(** [int32] arithmetic: the result of an operation is brought back into
    the 32-bit two's-complement range. *)
Definition wrap32 (x : Z) : Z := ((x + 2 ^ 31) mod 2 ^ 32 - 2 ^ 31)%Z.

(** [for (auto& x : l) body] *)
Fixpoint for_each {A} (l : list A) (body : A -> M unit) : M unit :=
  match l with
  | [] => ret tt
  | x :: l' => body x ;; for_each l' body
  end.

(** [for (int Index = lo; Index < hi; ++Index) body] *)
Definition for_range (lo hi : Z) (body : Z -> M unit) : M unit :=
  for_each (seqZ lo (hi - lo)) body.

(** [*P] for a possibly null pointer. *)
Definition read_pin (P : option PinPtr) : M UEdGraphPin :=
  fun s => match P with
           | Some p => match Heap s !! p with
                       | Some pin => Some (pin, s)
                       | None => None
                       end
           | None => None
           end.

(** [P->field = ...] for a possibly null pointer. *)
Definition write_pin (P : option PinPtr) (f : UEdGraphPin -> UEdGraphPin) : M unit :=
  fun s => match P with
           | Some p => match Heap s !! p with
                       | Some _ => Some (tt, with_Heap (alter f p (Heap s)) s)
                       | None => None
                       end
           | None => None
           end.

(** ** Host framework primitives *)

(** [TArray::IsValidIndex] *)
Definition IsValidIndex {A} (l : list A) (Index : Z) : bool :=
  (0 <=? Index)%Z && (Index <? Z.of_nat (length l))%Z.

(** [TArray::Insert] *)
Definition Insert {A} (l : list A) (x : A) (Index : nat) : list A :=
  take Index l ++ x :: drop Index l.

(** [UEdGraphNode::CreatePin]: a new pin object is allocated; it goes to
    position [Index] of the node's [Pins] array when that is a valid index
    of the array and to its end otherwise. *)
Definition CreatePin (Dir : EEdGraphPinDirection) (Category : FName) (Name : FName)
    (Index : Z) : M PinPtr :=
  fun s =>
    let p := length (Heap s) in
    let pin := {| PinName := Name; Direction := Dir;
                  PinType := {| PinCategory := Category; PinSubCategory := "" |};
                  PinFriendlyName := ""; DefaultValue := ""; LinkedTo := [] |} in
    let pins := if IsValidIndex (Pins s) Index
                then Insert (Pins s) p (Z.to_nat Index)
                else Pins s ++ [p] in
    Some (p, with_Pins pins (with_Heap (Heap s ++ [pin]) s)).

Fixpoint find_pin (h : list UEdGraphPin) (Name : FName) (ps : list PinPtr)
    : option (option PinPtr) :=
  match ps with
  | [] => Some None
  | p :: ps' =>
      match h !! p with
      | Some pin => if String.eqb (PinName pin) Name then Some (Some p)
                    else find_pin h Name ps'
      | None => None
      end
  end.

(** [UEdGraphNode::FindPin]: the first pin of the node with that name, or
    null. *)
Definition FindPin (Name : FName) : M (option PinPtr) :=
  fun s => match find_pin (Heap s) Name (Pins s) with
           | Some r => Some (r, s)
           | None => None
           end.

(** The schema object of the host.  Its one operation used by the node,
    [ResetPinToAutogeneratedDefaultValue], sets the literal of a pin to the
    canonical default of the pin's current type. *)
Record UEdGraphSchema_K2 := {
  AutogeneratedDefaultValue : FEdGraphPinType -> string
}.

Definition ResetPinToAutogeneratedDefaultValue (Schema : UEdGraphSchema_K2)
    (P : option PinPtr) : M unit :=
  write_pin P (fun pin => with_DefaultValue (AutogeneratedDefaultValue Schema (PinType pin)) pin).

(** [UEdGraphNode::Modify] and [FBlueprintEditorUtils::MarkBlueprintAsModified]
    flag the document; [UBlueprint::BroadcastChanged] notifies observers and
    changes no pin. *)
Definition Modify : M unit :=
  fun s => Some (tt, with_Modified true s).

Definition MarkBlueprintAsModified : M unit :=
  fun s => Some (tt, with_Modified true s).

Definition BroadcastChanged : M unit := ret tt.

(** ** The node *)

(** File-level constants and the prefixes set by the constructor. *)
Definition DefaultOptionPinName : FName := "Default".
Definition ReturnValueOptionPinName : FName := "Return Value".
Definition CaseKeyPinNamePrefix : string := "CaseOption".
Definition CaseValuePinNamePrefix : string := "CaseCondition".
Definition CaseKeyPinFriendlyNamePrefix : string := "Option ".
Definition CaseValuePinFriendlyNamePrefix : string := "Condition ".

(** [{ Case Option Pin : Case Condition Pin }] *)
Abbreviation CasePinPair := (nat * nat)%type (only parsing).

(** *** Members inherited from the case-paired-pins base class *)

(** Modelled from the spec: the base class's [GetCasePinName]; the stable
    identifier of the pin of case [CaseIndex] is the prefix followed by the
    index. *)
Definition GetCasePinName (Prefix : string) (CaseIndex : Z) : string :=
  Prefix +:+ pretty CaseIndex.

(** Modelled from the spec: the base class's [GetCasePinFriendlyName]; the
    display label is the friendly prefix followed by the index. *)
Definition GetCasePinFriendlyName (Prefix : string) (CaseIndex : Z) : string :=
  Prefix +:+ pretty CaseIndex.

(** Modelled from the spec: the base class's test for an option pin, by the
    prefix of the stable name. *)
Definition IsCaseKeyPinName (Name : FName) : bool :=
  String.prefix CaseKeyPinNamePrefix Name.

(** Modelled from the spec: the base class's test for a condition pin, by the
    prefix of the stable name. *)
Definition IsCaseValuePinName (Name : FName) : bool :=
  String.prefix CaseValuePinNamePrefix Name.

(** The pin objects behind an array of pin pointers, in order. *)
Fixpoint deref_all (h : list UEdGraphPin) (ps : list PinPtr)
    : option (list (PinPtr * UEdGraphPin)) :=
  match ps with
  | [] => Some []
  | p :: ps' =>
      match h !! p with
      | Some pin =>
          match deref_all h ps' with
          | Some r => Some ((p, pin) :: r)
          | None => None
          end
      | None => None
      end
  end.

Definition node_pins : M (list (PinPtr * UEdGraphPin)) :=
  fun s => match deref_all (Heap s) (Pins s) with
           | Some r => Some (r, s)
           | None => None
           end.

Definition key_pins (objs : list (PinPtr * UEdGraphPin)) : list PinPtr :=
  map fst (List.filter (fun o => IsCaseKeyPinName (PinName (snd o))) objs).

Definition value_pins (objs : list (PinPtr * UEdGraphPin)) : list PinPtr :=
  map fst (List.filter (fun o => IsCaseValuePinName (PinName (snd o))) objs).

(** Modelled from the spec: the base class's [IsCaseValuePin]. *)
Definition IsCaseValuePin (P : option PinPtr) : M bool :=
  pin <- read_pin P ;;
  ret (IsCaseValuePinName (PinName pin)).

(** Modelled from the spec: the base class's [GetCasePinCount]; the number of
    case pairs is the number of option pins of the node, it is not stored. *)
Definition GetCasePinCount : M Z :=
  objs <- node_pins ;;
  ret (wrap32 (Z.of_nat (length (key_pins objs)))).

(** Modelled from the spec: the base class's [GetCasePinPairs]; the option
    pins and the condition pins of the node, each in the order of the [Pins]
    array, paired position by position. *)
Definition GetCasePinPairs : M (list CasePinPair) :=
  objs <- node_pins ;;
  ret (combine (key_pins objs) (value_pins objs)).

(** Modelled from the spec: the base class creates no pin of its own in
    [AllocateDefaultPins], and its [PinConnectionListChanged] and
    [ExpandNode] leave the pins of the node alone. *)
Definition Super_AllocateDefaultPins : M unit := ret tt.
Definition Super_PinConnectionListChanged (P : option PinPtr) : M unit := ret tt.
Definition Super_ExpandNode : M unit := ret tt.

(** *** [K2Node_MultiConditionalSelect.cpp] *)

Definition CreateDefaultOptionPin : M unit :=
  CreatePin EGPD_Input PC_Wildcard DefaultOptionPinName 0 ;;
  ret tt.

Definition CreateReturnValuePin : M unit :=
  N <- GetCasePinCount ;;
  CreatePin EGPD_Output PC_Wildcard ReturnValueOptionPinName (wrap32 (wrap32 (2 * N) + 1)) ;;
  ret tt.

Definition GetDefaultOptionPin : M (option PinPtr) := FindPin DefaultOptionPinName.

Definition GetReturnValuePin : M (option PinPtr) := FindPin ReturnValueOptionPinName.

Definition AddCasePinPair (CaseIndex : Z) : M CasePinPair :=
  N <- GetCasePinCount ;;
  DefaultOptionPin <- GetDefaultOptionPin ;;
  Key <- CreatePin EGPD_Input PC_Wildcard
           (GetCasePinName CaseKeyPinNamePrefix CaseIndex) (wrap32 (1 + CaseIndex)) ;;
  write_pin (Some Key)
    (with_PinFriendlyName (GetCasePinFriendlyName CaseKeyPinFriendlyNamePrefix CaseIndex)) ;;
  d <- read_pin DefaultOptionPin ;;
  write_pin (Some Key) (with_PinType (PinType d)) ;;
  Value <- CreatePin EGPD_Input PC_Boolean
             (GetCasePinName CaseValuePinNamePrefix CaseIndex)
             (wrap32 (wrap32 (N + 2) + CaseIndex)) ;;
  write_pin (Some Value)
    (with_PinFriendlyName (GetCasePinFriendlyName CaseValuePinFriendlyNamePrefix CaseIndex)) ;;
  ret (Key, Value).

Definition AllocateDefaultPins : M unit :=
  CreateDefaultOptionPin ;;
  CreateReturnValuePin ;;
  for_range 0 2 (fun Index => AddCasePinPair Index ;; ret tt) ;;
  Super_AllocateDefaultPins.

Definition PinConnectionListChanged (Schema : UEdGraphSchema_K2) (Pin : option PinPtr)
    : M unit :=
  match Pin with
  | None => ret tt
  | Some _ =>
      pin <- read_pin Pin ;;
      if (length (LinkedTo pin) =? 0)%nat then ret tt   (* a disconnection *)
      else
        cond <- IsCaseValuePin Pin ;;
        if cond then ret tt                             (* a condition pin *)
        else
          D <- GetDefaultOptionPin ;;
          d <- read_pin D ;;
          if negb (String.eqb (PinCategory (PinType d)) PC_Wildcard)
          then ret tt                                   (* already fixed *)
          else
            Super_PinConnectionListChanged Pin ;;
            Modify ;;
            pin <- read_pin Pin ;;
            LinkedPin <- lift_option (LinkedTo pin !! 0%nat) ;;
            DefaultOptionPin <- GetDefaultOptionPin ;;
            l <- read_pin (Some LinkedPin) ;;
            write_pin DefaultOptionPin (with_PinType (PinType l)) ;;
            ResetPinToAutogeneratedDefaultValue Schema DefaultOptionPin ;;
            ReturnValuePin <- GetReturnValuePin ;;
            l <- read_pin (Some LinkedPin) ;;
            write_pin ReturnValuePin (with_PinType (PinType l)) ;;
            ResetPinToAutogeneratedDefaultValue Schema ReturnValuePin ;;
            CasePinPairs <- GetCasePinPairs ;;
            for_each CasePinPairs (fun Pair =>
              let OptionPin := Some (fst Pair) in
              l <- read_pin (Some LinkedPin) ;;
              write_pin OptionPin (with_PinType (PinType l)) ;;
              ResetPinToAutogeneratedDefaultValue Schema OptionPin) ;;
            MarkBlueprintAsModified ;;
            BroadcastChanged
  end.

(** Modelled from the spec: the base class's
    [ReallocatePinsDuringReconstruction]; the case pairs are recreated fresh,
    one for every option pin of the old pin set, through [AddCasePinPair]. *)
Definition Super_ReallocatePinsDuringReconstruction (OldPins : list PinPtr) : M unit :=
  s <- get_world ;;
  objs <- lift_option (deref_all (Heap s) OldPins) ;;
  for_range 0 (wrap32 (Z.of_nat (length (key_pins objs))))
    (fun Index => AddCasePinPair Index ;; ret tt).

(** The first loop of [ReallocatePinsDuringReconstruction]: every old pin
    named like the default pin is assigned to [OldDefaultPin], so the last
    one stays. *)
Fixpoint find_old_default (OldPins : list PinPtr) (OldDefaultPin : option PinPtr)
    : M (option PinPtr) :=
  match OldPins with
  | [] => ret OldDefaultPin
  | Pin :: rest =>
      pin <- read_pin (Some Pin) ;;
      if String.eqb (PinName pin) DefaultOptionPinName
      then find_old_default rest (Some Pin)
      else find_old_default rest OldDefaultPin
  end.

Definition ReallocatePinsDuringReconstruction (OldPins : list PinPtr) : M unit :=
  OldDefaultPin <- find_old_default OldPins None ;;
  CreateDefaultOptionPin ;;
  CreateReturnValuePin ;;
  Super_ReallocatePinsDuringReconstruction OldPins ;;
  match OldDefaultPin with
  | Some _ =>
      D <- GetDefaultOptionPin ;;
      o <- read_pin OldDefaultPin ;;
      write_pin D (with_PinType (PinType o)) ;;
      R <- GetReturnValuePin ;;
      o <- read_pin OldDefaultPin ;;
      write_pin R (with_PinType (PinType o)) ;;
      CasePinPairs <- GetCasePinPairs ;;
      for_each CasePinPairs (fun Pair =>
        o <- read_pin OldDefaultPin ;;
        write_pin (Some (fst Pair)) (with_PinType (PinType o)))
  | None => ret tt
  end.

(** [UEdGraphNode::ReconstructNode] of the host, as far as the pins go: the
    current pins become the old pins, the [Pins] array is emptied and the
    node reallocates. *)
Definition ReconstructNode : M unit :=
  s <- get_world ;;
  (fun s0 => Some (tt, with_Pins [] s0)) ;;
  ReallocatePinsDuringReconstruction (Pins s).

Definition ExecConnectionDisallowd : string := "Can't connect with Exec pin.".

(** [IsConnectionDisallowed]; [Super] is the inherited check, the returned
    pair is the result and the final content of [OutReason]. *)
Definition IsConnectionDisallowed
    (Super : option UEdGraphPin -> option UEdGraphPin -> string -> bool * string)
    (MyPin OtherPin : option UEdGraphPin) (OutReason : string) : bool * string :=
  match OtherPin with
  | Some Other =>
      if String.eqb (PinCategory (PinType Other)) PC_Exec
      then (true, ExecConnectionDisallowd)
      else Super MyPin OtherPin OutReason
  | None => Super MyPin OtherPin OutReason
  end.

(** ** Arrays of pin pointers and the objects behind them *)

(** Where [CreatePin] puts the new pointer. *)
Definition place {A} (l : list A) (x : A) (Index : Z) : list A :=
  if IsValidIndex l Index then Insert l x (Z.to_nat Index) else l ++ [x].

(** [FindPin] and the case-pair queries are functions of the pin objects. *)
Definition find_named (Name : FName) (objs : list (PinPtr * UEdGraphPin)) : option PinPtr :=
  fst <$> List.find (fun o => String.eqb (PinName (snd o)) Name) objs.

(** ** [AddCasePinPair] as a state transformer *)

Definition new_key_pin (CaseIndex : Z) (t : FEdGraphPinType) : UEdGraphPin :=
  {| PinName := GetCasePinName CaseKeyPinNamePrefix CaseIndex;
     Direction := EGPD_Input; PinType := t;
     PinFriendlyName := GetCasePinFriendlyName CaseKeyPinFriendlyNamePrefix CaseIndex;
     DefaultValue := ""; LinkedTo := [] |}.

Definition new_value_pin (CaseIndex : Z) : UEdGraphPin :=
  {| PinName := GetCasePinName CaseValuePinNamePrefix CaseIndex;
     Direction := EGPD_Input;
     PinType := {| PinCategory := PC_Boolean; PinSubCategory := "" |};
     PinFriendlyName := GetCasePinFriendlyName CaseValuePinFriendlyNamePrefix CaseIndex;
     DefaultValue := ""; LinkedTo := [] |}.

(** ** The pin layout *)

Definition pin_name_of (o : PinPtr * UEdGraphPin) : FName := PinName (snd o).

(** The stable names of the node's pins, in the order of the [Pins] array. *)
Definition pin_names (s : World) : option (list FName) :=
  map pin_name_of <$> deref_all (Heap s) (Pins s).

Definition option_names (N : nat) : list FName :=
  map (GetCasePinName CaseKeyPinNamePrefix) (seqZ 0 (Z.of_nat N)).

Definition condition_names (N : nat) : list FName :=
  map (GetCasePinName CaseValuePinNamePrefix) (seqZ 0 (Z.of_nat N)).

(** [Default][Option 0..N-1][Condition 0..N-1][Return Value] *)
Definition layout_names (N : nat) : list FName :=
  (DefaultOptionPinName :: option_names N) ++ condition_names N ++ [ReturnValueOptionPinName].

(** The layout stated position by position. *)
Definition positions (N : nat) (names : list FName) : Prop :=
  length names = (2 * N + 2)%nat /\
  names !! 0%nat = Some DefaultOptionPinName /\
  (forall i, (i < N)%nat ->
     names !! (1 + i)%nat = Some (GetCasePinName CaseKeyPinNamePrefix (Z.of_nat i))) /\
  (forall i, (i < N)%nat ->
     names !! (N + 1 + i)%nat = Some (GetCasePinName CaseValuePinNamePrefix (Z.of_nat i))) /\
  names !! (2 * N + 1)%nat = Some ReturnValueOptionPinName.

Definition Layout (N : nat) (s : World) : Prop :=
  exists names, pin_names s = Some names /\ positions N names.

(** ** Initial allocation *)

Definition new_default_pin : UEdGraphPin :=
  {| PinName := DefaultOptionPinName; Direction := EGPD_Input;
     PinType := wildcard_type; PinFriendlyName := ""; DefaultValue := "";
     LinkedTo := [] |}.

Definition new_return_pin : UEdGraphPin :=
  {| PinName := ReturnValueOptionPinName; Direction := EGPD_Output;
     PinType := wildcard_type; PinFriendlyName := ""; DefaultValue := "";
     LinkedTo := [] |}.

(** ** In-place updates that keep the stable names *)

(** What the pin queries of the node depend on: the pointers and the stable
    names of the pins, in order. *)
Definition shape (objs : list (PinPtr * UEdGraphPin)) : list (PinPtr * FName) :=
  map (fun o => (fst o, PinName (snd o))) objs.

(** The writes of a loop that updates the pins [qs] one after the other. *)
Definition alter_all (f : UEdGraphPin -> UEdGraphPin) (qs : list PinPtr)
    (h : list UEdGraphPin) : list UEdGraphPin :=
  fold_left (fun h q => alter f q h) qs h.

(** ** The type-unification pass *)

(** What the pass does to one pin: the declared type becomes [T] and the
    literal is reset to the canonical default of [T]. *)
Definition retype (Schema : UEdGraphSchema_K2) (T : FEdGraphPinType)
    (pin : UEdGraphPin) : UEdGraphPin :=
  with_DefaultValue (AutogeneratedDefaultValue Schema T) (with_PinType T pin).

(** ** Connection events after the type is fixed *)

(** A connection made in the editor ([UEdGraphPin::MakeLinkTo] of the host):
    the two pins are added to each other's [LinkedTo] and the node is told
    that the link list of its pin changed. *)
Definition ConnectPin (Schema : UEdGraphSchema_K2) (Pin ToPin : PinPtr) : M unit :=
  write_pin (Some Pin) (fun x => with_LinkedTo (LinkedTo x ++ [ToPin]) x) ;;
  write_pin (Some ToPin) (fun x => with_LinkedTo (LinkedTo x ++ [Pin]) x) ;;
  PinConnectionListChanged Schema (Some Pin).

(** ** Connection validation *)

Definition IsExecPin (P : option UEdGraphPin) : bool :=
  match P with
  | Some Other => String.eqb (PinCategory (PinType Other)) PC_Exec
  | None => false
  end.

(** ** Reconstruction *)



(** ** The intermediate graph *)

(** The pin [sel] of an intermediate node. *)
Definition ipin_of (n : K2Node) (sel : PinSel) : option IPin :=
  match n, sel with
  | K2Node_Select IndexPin _ _, SelIndex => Some IndexPin
  | K2Node_Select _ OptionPins _, SelOption i => OptionPins !! i
  | K2Node_Select _ _ ReturnValuePin, SelReturn => Some ReturnValuePin
  | K2Node_MakeArray InputPins _, SelInput i => InputPins !! i
  | K2Node_MakeArray _ OutputPin, SelReturn => Some OutputPin
  | K2Node_CallFunction _ ParamPins _, SelParam name =>
      snd <$> List.find (fun np => String.eqb (fst np) name) ParamPins
  | K2Node_CallFunction _ _ ReturnValuePin, SelReturn => Some ReturnValuePin
  | _, _ => None
  end.

Definition set_param (name : string) (p : IPin) (ParamPins : list (string * IPin))
    : list (string * IPin) :=
  map (fun np => if String.eqb (fst np) name then (fst np, p) else np) ParamPins.

(** The node with its pin [sel] replaced; the node itself when it has no
    such pin. *)
Definition set_ipin (n : K2Node) (sel : PinSel) (p : IPin) : K2Node :=
  match n, sel with
  | K2Node_Select _ OptionPins ReturnValuePin, SelIndex =>
      K2Node_Select p OptionPins ReturnValuePin
  | K2Node_Select IndexPin OptionPins ReturnValuePin, SelOption i =>
      K2Node_Select IndexPin (<[i := p]> OptionPins) ReturnValuePin
  | K2Node_Select IndexPin OptionPins _, SelReturn =>
      K2Node_Select IndexPin OptionPins p
  | K2Node_MakeArray InputPins OutputPin, SelInput i =>
      K2Node_MakeArray (<[i := p]> InputPins) OutputPin
  | K2Node_MakeArray InputPins _, SelReturn =>
      K2Node_MakeArray InputPins p
  | K2Node_CallFunction f ParamPins ReturnValuePin, SelParam name =>
      K2Node_CallFunction f (set_param name p ParamPins) ReturnValuePin
  | K2Node_CallFunction f ParamPins _, SelReturn =>
      K2Node_CallFunction f ParamPins p
  | _, _ => n
  end.

(** [*R] for a pin of an intermediate node. *)
Definition read_ipin (R : IPinRef) : M IPin :=
  fun s => match Intermediate s !! fst R with
           | Some n => match ipin_of n (snd R) with
                       | Some p => Some (p, s)
                       | None => None
                       end
           | None => None
           end.

(** [R->field = ...] for a pin of an intermediate node. *)
Definition write_ipin (R : IPinRef) (f : IPin -> IPin) : M unit :=
  fun s => match Intermediate s !! fst R with
           | Some n => match ipin_of n (snd R) with
                       | Some p => Some (tt, with_Intermediate
                                               (<[fst R := set_ipin n (snd R) (f p)]>
                                                  (Intermediate s)) s)
                       | None => None
                       end
           | None => None
           end.

Definition read_node (Node : nat) : M K2Node :=
  fun s => match Intermediate s !! Node with
           | Some n => Some (n, s)
           | None => None
           end.

Definition write_node (Node : nat) (n : K2Node) : M unit :=
  fun s => match Intermediate s !! Node with
           | Some _ => Some (tt, with_Intermediate (<[Node := n]> (Intermediate s)) s)
           | None => None
           end.

(** [FKismetCompilerContext::SpawnIntermediateNode] followed by the
    [AllocateDefaultPins] of the new node: the node joins the graph with the
    pins its class starts with, and its handle is returned. *)
Definition SpawnIntermediateNode (n : K2Node) : M nat :=
  fun s => Some (length (Intermediate s),
                 with_Intermediate (Intermediate s ++ [n]) s).

(** A Select node starts with two option pins, an index pin and a return
    value pin, all wildcard. *)
Definition K2Node_Select_default : K2Node :=
  K2Node_Select (new_IPin PC_Wildcard)
    [new_IPin PC_Wildcard; new_IPin PC_Wildcard] (new_IPin PC_Wildcard).

(** A Make Array node starts with one input pin. *)
Definition K2Node_MakeArray_default : K2Node :=
  K2Node_MakeArray [new_IPin PC_Wildcard] (new_IPin PC_Wildcard).

(** The pins [SetFromFunction] and [AllocateDefaultPins] give a call node,
    from the signature of the library function found by name; [None] when
    [FindFunctionByName] finds nothing. *)
Definition K2Node_CallFunction_default (FunctionName : string) : option K2Node :=
  if String.eqb FunctionName "Array_Find" then
    Some (K2Node_CallFunction FunctionName
            [("TargetArray", new_IPin PC_Wildcard); ("ItemToFind", new_IPin PC_Wildcard)]
            (new_IPin PC_Int))
  else if String.eqb FunctionName "EqualEqual_IntInt" then
    Some (K2Node_CallFunction FunctionName
            [("A", new_IPin PC_Int); ("B", new_IPin PC_Int)]
            (new_IPin PC_Boolean))
  else None.

(** [UK2Node_Select::ChangePinType] with a pin that is not the index pin of
    the node: the option pins and the return value pin take its type. *)
Definition Select_ChangePinType (Node : nat) (Pin : option PinPtr) : M unit :=
  pin <- read_pin Pin ;;
  n <- read_node Node ;;
  match n with
  | K2Node_Select IndexPin OptionPins ReturnValuePin =>
      write_node Node
        (K2Node_Select IndexPin (map (with_IPinType (PinType pin)) OptionPins)
           (with_IPinType (PinType pin) ReturnValuePin))
  | _ => fault
  end.

(** [UK2Node_Select::AddInputPin]: one more option pin, typed like the
    others. *)
Definition Select_AddInputPin (Node : nat) : M unit :=
  n <- read_node Node ;;
  match n with
  | K2Node_Select IndexPin OptionPins ReturnValuePin =>
      write_node Node
        (K2Node_Select IndexPin
           (OptionPins ++ [with_IPinType (IPinType ReturnValuePin) (new_IPin PC_Wildcard)])
           ReturnValuePin)
  | _ => fault
  end.

(** [UK2Node_MakeArray::AddInputPin] *)
Definition MakeArray_AddInputPin (Node : nat) : M unit :=
  n <- read_node Node ;;
  match n with
  | K2Node_MakeArray InputPins OutputPin =>
      write_node Node (K2Node_MakeArray (InputPins ++ [new_IPin PC_Wildcard]) OutputPin)
  | _ => fault
  end.

(** [UK2Node_Select::GetOptionPins] *)
Definition Select_GetOptionPins (Node : nat) : M (list IPinRef) :=
  n <- read_node Node ;;
  match n with
  | K2Node_Select _ OptionPins _ =>
      ret (map (fun i => (Node, SelOption i)) (seq 0 (length OptionPins)))
  | _ => fault
  end.

(** [UK2Node_MakeArray::GetKeyAndValuePins]: for an array the key pins are
    the input pins and there are no value pins. *)
Definition MakeArray_GetKeyAndValuePins (Node : nat) : M (list IPinRef * list IPinRef) :=
  n <- read_node Node ;;
  match n with
  | K2Node_MakeArray InputPins _ =>
      ret (map (fun i => (Node, SelInput i)) (seq 0 (length InputPins)), [])
  | _ => fault
  end.

(** [UEdGraphNode::FindPinChecked] *)
Definition FindPinChecked (Node : nat) (name : string) : M IPinRef :=
  read_ipin (Node, SelParam name) ;;
  ret (Node, SelParam name).

(** [FKismetCompilerContext::MovePinLinksToIntermediate]: the links of the
    source pin and its literal go to the intermediate pin, and the source pin
    keeps no link. *)
Definition MovePinLinksToIntermediate (SourcePin : option PinPtr) (IntermediatePin : IPinRef)
    : M unit :=
  pin <- read_pin SourcePin ;;
  write_ipin IntermediatePin (fun ip =>
    with_IDefaultValue (DefaultValue pin)
      (with_ILinkedTo (ILinkedTo ip ++ map ToPin (LinkedTo pin)) ip)) ;;
  write_pin SourcePin (with_LinkedTo []).

(** [UEdGraphPin::MakeLinkTo] between two intermediate pins. *)
Definition MakeLinkTo (A B : IPinRef) : M unit :=
  write_ipin A (fun ip => with_ILinkedTo (ILinkedTo ip ++ [ToIntermediate B]) ip) ;;
  write_ipin B (fun ip => with_ILinkedTo (ILinkedTo ip ++ [ToIntermediate A]) ip).

(** [UEdGraphSchema_K2::TrySetDefaultValue] *)
Definition TrySetDefaultValue (Pin : IPinRef) (NewDefaultValue : string) : M unit :=
  write_ipin Pin (with_IDefaultValue NewDefaultValue).

(** [UK2Node_Select::NotifyPinConnectionListChanged] for the index pin: a
    wildcard index pin takes the type of the pin it was just linked to. *)
Definition Select_NotifyPinConnectionListChanged (IndexPin : IPinRef) : M unit :=
  ip <- read_ipin IndexPin ;;
  match ILinkedTo ip with
  | ToIntermediate LinkPin :: _ =>
      lp <- read_ipin LinkPin ;;
      if String.eqb (PinCategory (IPinType ip)) PC_Wildcard
      then write_ipin IndexPin (with_IPinType (IPinType lp))
      else ret tt
  | _ => ret tt
  end.

(** [UEdGraphNode::BreakAllNodeLinks] *)
Definition BreakAllNodeLinks : M unit :=
  s <- get_world ;;
  for_each (Pins s) (fun Pin => write_pin (Some Pin) (with_LinkedTo [])).

(** [ExpandNode].  The two local pin types the function fills in and never
    uses are left out. *)
Definition ExpandNode : M unit :=
  Super_ExpandNode ;;
  Pairs0 <- GetCasePinPairs ;;
  Pair0 <- lift_option (Pairs0 !! 0%nat) ;;
  let ReferenceOptionPin := Some (fst Pair0) in
  CasePinPairs <- GetCasePinPairs ;;
  let Num := Z.of_nat (length CasePinPairs) in

  Select1st <- SpawnIntermediateNode K2Node_Select_default ;;
  Select_ChangePinType Select1st ReferenceOptionPin ;;
  for_range 2 Num (fun _ => Select_AddInputPin Select1st) ;;

  Select2nd <- SpawnIntermediateNode K2Node_Select_default ;;
  Select_ChangePinType Select2nd ReferenceOptionPin ;;
  for_range 2 Num (fun _ => Select_AddInputPin Select2nd) ;;

  MakeArray <- SpawnIntermediateNode K2Node_MakeArray_default ;;
  for_range 1 Num (fun _ => MakeArray_AddInputPin MakeArray) ;;

  ArrayFindNode <- lift_option (K2Node_CallFunction_default "Array_Find") ;;
  ArrayFind <- SpawnIntermediateNode ArrayFindNode ;;

  IntEqualNode <- lift_option (K2Node_CallFunction_default "EqualEqual_IntInt") ;;
  IntEqual <- SpawnIntermediateNode IntEqualNode ;;

  (* Link between outer and 1st Select *)
  Select1stOptionPins <- Select_GetOptionPins Select1st ;;
  for_range 0 Num (fun Index =>
    Pair <- lift_option (CasePinPairs !! Z.to_nat Index) ;;
    Option <- lift_option (Select1stOptionPins !! Z.to_nat Index) ;;
    MovePinLinksToIntermediate (Some (fst Pair)) Option) ;;

  (* Link between outer and Make Array *)
  KeyValuePins <- MakeArray_GetKeyAndValuePins MakeArray ;;
  let KeyPins := fst KeyValuePins in
  for_range 0 Num (fun Index =>
    KeyPin <- lift_option (KeyPins !! Z.to_nat Index) ;;
    write_ipin KeyPin (with_IPinCategory PC_Boolean) ;;
    Pair <- lift_option (CasePinPairs !! Z.to_nat Index) ;;
    MovePinLinksToIntermediate (Some (snd Pair)) KeyPin) ;;

  (* Link between Make Array and Array Find *)
  let ArrayPin := (MakeArray, SelReturn) in
  TargetArrayPin <- FindPinChecked ArrayFind "TargetArray" ;;
  ItemToFindPin <- FindPinChecked ArrayFind "ItemToFind" ;;
  write_ipin ArrayPin (with_IPinCategory PC_Boolean) ;;
  MakeLinkTo ArrayPin TargetArrayPin ;;
  write_ipin TargetArrayPin (with_IPinCategory PC_Boolean) ;;
  write_ipin ItemToFindPin (with_IPinCategory PC_Boolean) ;;
  TrySetDefaultValue ItemToFindPin "true" ;;

  (* Link between Array Find and 1st Select *)
  let ArrayFindOutputPin := (ArrayFind, SelReturn) in
  let Select1stIndexPin := (Select1st, SelIndex) in
  MakeLinkTo ArrayFindOutputPin Select1stIndexPin ;;
  Select_NotifyPinConnectionListChanged Select1stIndexPin ;;

  (* Link between Array Find and Int Equal *)
  IntEqualAPin <- FindPinChecked IntEqual "A" ;;
  IntEqualBPin <- FindPinChecked IntEqual "B" ;;
  MakeLinkTo ArrayFindOutputPin IntEqualAPin ;;
  TrySetDefaultValue IntEqualBPin "-1" ;;

  (* Link among 1st Select, 2nd Select and Int Equal *)
  let Select1stReturnValuePin := (Select1st, SelReturn) in
  let IntEqualReturnValuePin := (IntEqual, SelReturn) in
  let Select2ndIndexPin := (Select2nd, SelIndex) in
  Select2ndOptionPins <- Select_GetOptionPins Select2nd ;;
  MakeLinkTo IntEqualReturnValuePin Select2ndIndexPin ;;
  Select_NotifyPinConnectionListChanged Select2ndIndexPin ;;
  Select2ndOption0 <- lift_option (Select2ndOptionPins !! 0%nat) ;;
  MakeLinkTo Select1stReturnValuePin Select2ndOption0 ;;
  Select2ndOption1 <- lift_option (Select2ndOptionPins !! 1%nat) ;;
  DefaultOptionPin <- GetDefaultOptionPin ;;
  MovePinLinksToIntermediate DefaultOptionPin Select2ndOption1 ;;

  (* Link 2nd Select and outer *)
  let Select2ndReturnValuePin := (Select2nd, SelReturn) in
  ReturnValuePin <- GetReturnValuePin ;;
  MovePinLinksToIntermediate ReturnValuePin Select2ndReturnValuePin ;;

  BreakAllNodeLinks.

(** ** Evaluation of the intermediate graph *)

Inductive Scalar :=
| SBool (b : bool)
| SInt (z : Z)
| SText (s : string).

Inductive Value :=
| VScalar (x : Scalar)
| VArray (l : list Scalar).

Definition Scalar_eqb (x y : Scalar) : bool :=
  match x, y with
  | SBool a, SBool b => Bool.eqb a b
  | SInt a, SInt b => (a =? b)%Z
  | SText a, SText b => String.eqb a b
  | _, _ => false
  end.

Definition digit_of (c : ascii) : option Z :=
  let n := Z.of_nat (nat_of_ascii c) in
  if (48 <=? n)%Z && (n <=? 57)%Z then Some (n - 48)%Z else None.

Fixpoint parse_digits (s : string) (acc : Z) : option Z :=
  match s with
  | EmptyString => Some acc
  | String c s' =>
      match digit_of c with
      | Some d => parse_digits s' (10 * acc + d)%Z
      | None => None
      end
  end.

Definition parse_int (s : string) : option Z :=
  match s with
  | EmptyString => None
  | String "-" s' =>
      match s' with
      | EmptyString => None
      | _ => Z.opp <$> parse_digits s' 0
      end
  | _ => parse_digits s 0
  end.

(** The value a literal pin default stands for. *)
Definition ParseLiteral (s : string) : Scalar :=
  if String.eqb s "true" then SBool true
  else if String.eqb s "false" then SBool false
  else match parse_int s with
       | Some z => SInt z
       | None => SText s
       end.

(** The run-time value an arena pin receives: what its first link delivers,
    or its literal when it has no link.  [rho] gives the value delivered by
    each pin of the surrounding graph. *)
Definition PinValue (rho : PinPtr -> Value) (pin : UEdGraphPin) : Value :=
  match LinkedTo pin with
  | e :: _ => rho e
  | [] => VScalar (ParseLiteral (DefaultValue pin))
  end.

(** [Array_Find]: the index of the first item equal to [x], or -1. *)
Fixpoint Array_Find (l : list Scalar) (x : Scalar) (i : Z) : Z :=
  match l with
  | [] => (-1)%Z
  | y :: l' => if Scalar_eqb y x then i else Array_Find l' x (i + 1)%Z
  end.

Definition as_scalar (v : Value) : option Scalar :=
  match v with
  | VScalar x => Some x
  | VArray _ => None
  end.

(** What a Select node yields for an index and its evaluated options.  An
    index outside the options is left to [OutOfRange], the host's choice. *)
Definition Select_value (OutOfRange : Value -> list Value -> Value)
    (Index : Value) (Options : list Value) : Value :=
  match Index with
  | VScalar (SBool b) =>
      match Options !! (if b then 1 else 0)%nat with
      | Some v => v
      | None => OutOfRange Index Options
      end
  | VScalar (SInt z) =>
      if (0 <=? z)%Z then
        match Options !! Z.to_nat z with
        | Some v => v
        | None => OutOfRange Index Options
        end
      else OutOfRange Index Options
  | _ => OutOfRange Index Options
  end.

Fixpoint eval_inputs (eval : IPin -> option Value) (ps : list IPin) : option (list Value) :=
  match ps with
  | [] => Some []
  | p :: ps' =>
      match eval p, eval_inputs eval ps' with
      | Some v, Some vs => Some (v :: vs)
      | _, _ => None
      end
  end.

Fixpoint all_scalars (vs : list Value) : option (list Scalar) :=
  match vs with
  | [] => Some []
  | v :: vs' =>
      match as_scalar v, all_scalars vs' with
      | Some x, Some xs => Some (x :: xs)
      | _, _ => None
      end
  end.

(** The value an input pin of an intermediate node receives: what its first
    link delivers, or its literal when it has no link.  [output] gives the
    value at the output of an intermediate node. *)
Definition input_value (rho : PinPtr -> Value) (output : nat -> option Value)
    (p : IPin) : option Value :=
  match ILinkedTo p with
  | [] => Some (VScalar (ParseLiteral (IDefaultValue p)))
  | ToPin e :: _ => Some (rho e)
  | ToIntermediate R :: _ => output (fst R)
  end.

(** The function a call node calls, by name. *)
Definition call_function (f : string) (args : list Value) : option Value :=
  match args with
  | [VArray l; VScalar x] =>
      if String.eqb f "Array_Find"
      then Some (VScalar (SInt (Array_Find l x 0)))
      else None
  | [VScalar (SInt a); VScalar (SInt b)] =>
      if String.eqb f "EqualEqual_IntInt"
      then Some (VScalar (SBool (a =? b)%Z))
      else None
  | _ => None
  end.

(** The value at the output of intermediate node [Node]; [fuel] bounds the
    depth of the chain of nodes followed. *)
Fixpoint eval_node (OutOfRange : Value -> list Value -> Value)
    (rho : PinPtr -> Value) (g : list K2Node) (fuel : nat) (Node : nat)
    : option Value :=
  match fuel with
  | O => None
  | S fuel' =>
      let input := input_value rho (eval_node OutOfRange rho g fuel') in
      match g !! Node with
      | Some (K2Node_Select IndexPin OptionPins _) =>
          match input IndexPin, eval_inputs input OptionPins with
          | Some i, Some vs => Some (Select_value OutOfRange i vs)
          | _, _ => None
          end
      | Some (K2Node_MakeArray InputPins _) =>
          match eval_inputs input InputPins with
          | Some vs => VArray <$> all_scalars vs
          | None => None
          end
      | Some (K2Node_CallFunction f ParamPins _) =>
          match eval_inputs input (map snd ParamPins) with
          | Some args => call_function f args
          | None => None
          end
      | None => None
      end
  end.

(** ** Loops of the expansion *)

(** The option pin [AddInputPin] appends to a Select node. *)
Definition added_option (ReturnValuePin : IPin) : IPin :=
  with_IPinType (IPinType ReturnValuePin) (new_IPin PC_Wildcard).

(** What [MovePinLinksToIntermediate] leaves in the intermediate pin. *)
Definition moved (pin : UEdGraphPin) (ip : IPin) : IPin :=
  with_IDefaultValue (DefaultValue pin)
    (with_ILinkedTo (ILinkedTo ip ++ map ToPin (LinkedTo pin)) ip).

(** The pins of a node after the links of [pins] were moved, one by one,
    into the first of them. *)
Fixpoint move_into (upd : UEdGraphPin -> IPin -> IPin) (pins : list UEdGraphPin)
    (l : list IPin) : list IPin :=
  match pins, l with
  | pin :: pins', ip :: l' => upd pin ip :: move_into upd pins' l'
  | _, _ => l
  end.

Definition clear_links : UEdGraphPin -> UEdGraphPin := with_LinkedTo [].

(** ** The expanded graph *)

Definition typed_pin (T : FEdGraphPinType) : IPin := with_IPinType T (new_IPin PC_Wildcard).

Definition pin_type (Category : FName) : FEdGraphPinType :=
  {| PinCategory := Category; PinSubCategory := "" |}.

Definition ipin (T : FEdGraphPinType) (Default : string) (Links : list PinLink) : IPin :=
  {| IPinType := T; IDefaultValue := Default; ILinkedTo := Links |}.

(** The five nodes [ExpandNode] leaves in the graph, in the order they are
    spawned: Select 1st, Select 2nd, Make Array, Array_Find and
    EqualEqual_IntInt.  [T] is the type of the reference option pin, [kpins]
    and [vpins] are the option and the condition pins of the case pairs,
    [dpin] and [rpin] the default and the result pin, as they were before
    the expansion. *)
Definition expanded (T : FEdGraphPinType) (kpins vpins : list UEdGraphPin)
    (dpin rpin : UEdGraphPin) : list K2Node :=
  let N := length kpins in
  [ K2Node_Select
      (ipin (pin_type PC_Int) "" [ToIntermediate (3, SelReturn)])
      (move_into moved kpins (replicate (2 + (N - 2)) (typed_pin T)))
      (ipin T "" [ToIntermediate (1, SelOption 0)]);
    K2Node_Select
      (ipin (pin_type PC_Boolean) "" [ToIntermediate (4, SelReturn)])
      (ipin T "" [ToIntermediate (0, SelReturn)]
       :: moved dpin (typed_pin T)
       :: replicate (N - 2) (typed_pin T))
      (moved rpin (typed_pin T));
    K2Node_MakeArray
      (move_into (fun pin ip => moved pin (with_IPinCategory PC_Boolean ip)) vpins
         (replicate (1 + (N - 1)) (new_IPin PC_Wildcard)))
      (ipin (pin_type PC_Boolean) "" [ToIntermediate (3, SelParam "TargetArray")]);
    K2Node_CallFunction "Array_Find"
      [("TargetArray", ipin (pin_type PC_Boolean) "" [ToIntermediate (2, SelReturn)]);
       ("ItemToFind", ipin (pin_type PC_Boolean) "true" [])]
      (ipin (pin_type PC_Int) ""
         [ToIntermediate (0, SelIndex); ToIntermediate (4, SelParam "A")]);
    K2Node_CallFunction "EqualEqual_IntInt"
      [("A", ipin (pin_type PC_Int) "" [ToIntermediate (3, SelReturn)]);
       ("B", ipin (pin_type PC_Int) "-1" [])]
      (ipin (pin_type PC_Boolean) "" [ToIntermediate (1, SelIndex)]) ].

(** ** What the expanded graph computes *)

(** The position of the first true condition. *)
Fixpoint first_true (conds : list bool) : option nat :=
  match conds with
  | [] => None
  | c :: cs => if c then Some 0%nat else S <$> first_true cs
  end.

(** ** The type discipline of the node *)

(** A pin follows the discipline for the type [T]: a condition pin is
    boolean and every other pin of the node, that is the default pin, the
    result pin and the option pins, has the declared type [T]. *)
Definition pin_typed (T : FEdGraphPinType) (pin : UEdGraphPin) : Prop :=
  if IsCaseValuePinName (PinName pin)
  then PinCategory (PinType pin) = PC_Boolean
  else PinType pin = T.

(** The node is laid out with [N] case pairs and all its pins follow the
    discipline for [T]. *)
Definition TypedLayout (T : FEdGraphPinType) (N : nat) (s : World) : Prop :=
  Layout N s /\
  forall q qpin, q ∈ Pins s -> Heap s !! q = Some qpin -> pin_typed T qpin.

(** ** Example nodes *)

Definition fresh_node : World :=
  {| Heap := []; Pins := []; Intermediate := []; Modified := false |}.

(** The state a computation leaves; the starting state when it faults. *)
Definition run_on {A} (m : M A) (s : World) : World :=
  match m s with
  | Some (_, s') => s'
  | None => s
  end.

(** A pin of some other node of the graph. *)
Definition external_pin (Category : FName) : UEdGraphPin :=
  {| PinName := "Value"; Direction := EGPD_Output; PinType := pin_type Category;
     PinFriendlyName := ""; DefaultValue := ""; LinkedTo := [] |}.

Definition add_external (pin : UEdGraphPin) : M PinPtr :=
  fun s => Some (length (Heap s), with_Heap (Heap s ++ [pin]) s).

(** The node as the editor creates it: pins 0 and 1 are the default and the
    result pin, 2 and 4 the option pins, 3 and 5 the condition pins. *)
Definition default_node : World :=
  Eval vm_compute in run_on AllocateDefaultPins fresh_node.

(** The node with one more case pair: 6 is the option pin, 7 the condition
    pin. *)
Definition three_pair_node : World :=
  Eval vm_compute in run_on (AddCasePinPair 2) default_node.

(** The default node with its first option pin linked to an integer pin. *)
Definition option_linked_node : World :=
  Eval vm_compute in
    run_on (L <- add_external (external_pin PC_Int) ;;
            write_pin (Some 2%nat) (with_LinkedTo [L])) default_node.

(** The default node with its result pin linked to an integer pin. *)
Definition result_linked_node : World :=
  Eval vm_compute in
    run_on (L <- add_external (external_pin PC_Int) ;;
            write_pin (Some 1%nat) (with_LinkedTo [L])) default_node.

(** The node after the pass has fixed its type to integer. *)
Definition fixed_node : World :=
  Eval vm_compute in
    run_on (PinConnectionListChanged
              {| AutogeneratedDefaultValue := fun _ => "0" |} (Some 2%nat))
           option_linked_node.

(** The fixed node at the start of a reconstruction: its pins are the old
    pins and its [Pins] array is empty. *)
Definition reconstructing_node : World := with_Pins [] fixed_node.

(** The default node with literals on its pins: options 10 and 20, default
    0, conditions false and true. *)
Definition literal_node : World :=
  Eval vm_compute in
    run_on (write_pin (Some 0%nat) (with_DefaultValue "0") ;;
            write_pin (Some 2%nat) (with_DefaultValue "10") ;;
            write_pin (Some 4%nat) (with_DefaultValue "20") ;;
            write_pin (Some 3%nat) (with_DefaultValue "false") ;;
            write_pin (Some 5%nat) (with_DefaultValue "true")) default_node.

Definition pin_at (s : World) (p : PinPtr) : UEdGraphPin :=
  default new_default_pin (Heap s !! p).

(** A node that lost its default pin: its only pin is an option pin, linked
    to an integer pin of another node. *)
Definition headless_node : World :=
  {| Heap := [with_LinkedTo [1%nat] (new_key_pin 0 wildcard_type); external_pin PC_Int];
     Pins := [0%nat]; Intermediate := []; Modified := false |}.

(** A node with its default pin and its result pin and no case pair. *)
Definition pairless_node : World :=
  Eval vm_compute in run_on (CreateDefaultOptionPin ;; CreateReturnValuePin) fresh_node.

(** A schema whose canonical default is the literal 0 for every type. *)
Definition zero_schema : UEdGraphSchema_K2 := {| AutogeneratedDefaultValue := fun _ => "0" |}.

(** * Properties *)

(** ** The monad *)

Lemma bind_eq {A B} (m : M A) (k : A -> M B) s a s' :
  m s = Some (a, s') -> bind m k s = k a s'.
Proof. intros H. unfold bind. now rewrite H. Qed.

Lemma bind_ret_eq {A B} (a : A) (k : A -> M B) s : bind (ret a) k s = k a s.
Proof. reflexivity. Qed.

Lemma read_pin_eq s p pin :
  Heap s !! p = Some pin -> read_pin (Some p) s = Some (pin, s).
Proof. intros H. unfold read_pin. now rewrite H. Qed.

Lemma write_pin_eq s p pin f :
  Heap s !! p = Some pin ->
  write_pin (Some p) f s = Some (tt, with_Heap (alter f p (Heap s)) s).
Proof. intros H. unfold write_pin. now rewrite H. Qed.

Lemma wrap32_small x : (- 2 ^ 31 <= x < 2 ^ 31)%Z -> wrap32 x = x.
Proof. intros H. unfold wrap32. rewrite Z.mod_small; lia. Qed.

(** ** Arrays of pin pointers and the objects behind them *)

Lemma deref_all_fst h ps objs : deref_all h ps = Some objs -> map fst objs = ps.
Proof.
  revert objs. induction ps as [|p ps IH]; simpl; intros objs H.
  - now inversion H.
  - destruct (h !! p); [|discriminate].
    destruct (deref_all h ps); [|discriminate].
    inversion H; subst. simpl. f_equal. now apply IH.
Qed.

Lemma deref_all_length h ps objs : deref_all h ps = Some objs -> length objs = length ps.
Proof. intros H. apply deref_all_fst in H. subst. now rewrite length_map. Qed.

Lemma deref_all_lookup h ps objs p pin :
  deref_all h ps = Some objs -> (p, pin) ∈ objs -> h !! p = Some pin.
Proof.
  revert objs. induction ps as [|q ps IH]; simpl; intros objs H Hin.
  - inversion H; subst. inversion Hin.
  - destruct (h !! q) eqn:Hq; [|discriminate].
    destruct (deref_all h ps); [|discriminate].
    inversion H; subst. apply elem_of_cons in Hin as [Heq|Hin].
    + now inversion Heq; subst.
    + now apply (IH l).
Qed.

Lemma deref_all_ext h h' ps :
  (forall p, p ∈ ps -> h' !! p = h !! p) -> deref_all h' ps = deref_all h ps.
Proof.
  induction ps as [|q ps IH]; simpl; intros H; [reflexivity|].
  rewrite H by (apply elem_of_cons; now left).
  rewrite IH; [reflexivity|]. intros p Hp. apply H. apply elem_of_cons. now right.
Qed.

Lemma deref_all_valid h ps objs p :
  deref_all h ps = Some objs -> p ∈ ps -> (p < length h)%nat.
Proof.
  revert objs. induction ps as [|q ps IH]; simpl; intros objs H Hin.
  - inversion Hin.
  - destruct (h !! q) eqn:Hq; [|discriminate].
    destruct (deref_all h ps); [|discriminate].
    apply elem_of_cons in Hin as [->|Hin].
    + now apply lookup_lt_Some in Hq.
    + now apply (IH l).
Qed.

Lemma deref_all_grow h e ps objs :
  deref_all h ps = Some objs -> deref_all (h ++ e) ps = Some objs.
Proof.
  intros H. rewrite <- H. apply deref_all_ext. intros p Hp.
  apply lookup_app_l. eapply deref_all_valid; eauto.
Qed.

Lemma deref_all_app h ps1 ps2 o1 o2 :
  deref_all h ps1 = Some o1 -> deref_all h ps2 = Some o2 ->
  deref_all h (ps1 ++ ps2) = Some (o1 ++ o2).
Proof.
  revert o1. induction ps1 as [|q ps1 IH]; simpl; intros o1 H1 H2.
  - now inversion H1.
  - destruct (h !! q); [|discriminate].
    destruct (deref_all h ps1); [|discriminate].
    inversion H1; subst. now rewrite (IH l).
Qed.

Lemma deref_all_take h ps objs n :
  deref_all h ps = Some objs -> deref_all h (take n ps) = Some (take n objs).
Proof.
  revert objs n. induction ps as [|q ps IH]; simpl; intros objs n H.
  - inversion H; subst. now destruct n.
  - destruct (h !! q) eqn:Hq; [|discriminate].
    destruct (deref_all h ps); [|discriminate].
    inversion H; subst. destruct n; simpl; [reflexivity|].
    now rewrite Hq, (IH l).
Qed.

Lemma deref_all_drop h ps objs n :
  deref_all h ps = Some objs -> deref_all h (drop n ps) = Some (drop n objs).
Proof.
  revert objs n. induction ps as [|q ps IH]; simpl; intros objs n H.
  - inversion H; subst. now destruct n.
  - destruct (h !! q) eqn:Hq; [|discriminate].
    destruct (deref_all h ps) eqn:Hps; [|discriminate].
    inversion H; subst. destruct n; simpl.
    + now rewrite Hq, Hps.
    + now apply IH.
Qed.

Lemma deref_all_place h ps objs p pin Index :
  deref_all h ps = Some objs -> h !! p = Some pin ->
  deref_all h (place ps p Index) = Some (place objs (p, pin) Index).
Proof.
  intros H Hp. unfold place, IsValidIndex.
  rewrite (deref_all_length _ _ _ H).
  assert (Hone : deref_all h [p] = Some [(p, pin)]) by (simpl; now rewrite Hp).
  destruct (_ && _).
  - unfold Insert. apply deref_all_app; [now apply deref_all_take|].
    change (p :: drop (Z.to_nat Index) ps) with ([p] ++ drop (Z.to_nat Index) ps).
    change ((p, pin) :: drop (Z.to_nat Index) objs)
      with ([(p, pin)] ++ drop (Z.to_nat Index) objs).
    apply deref_all_app; [assumption|now apply deref_all_drop].
  - now apply deref_all_app.
Qed.

Lemma CreatePin_eq Dir Category Name Index s :
  CreatePin Dir Category Name Index s =
  Some (length (Heap s),
        with_Pins (place (Pins s) (length (Heap s)) Index)
          (with_Heap (Heap s ++ [ {| PinName := Name; Direction := Dir;
                                      PinType := {| PinCategory := Category;
                                                    PinSubCategory := "" |};
                                      PinFriendlyName := ""; DefaultValue := "";
                                      LinkedTo := [] |} ]) s)).
Proof. reflexivity. Qed.

Lemma find_pin_objs h ps objs Name :
  deref_all h ps = Some objs -> find_pin h Name ps = Some (find_named Name objs).
Proof.
  revert objs. induction ps as [|q ps IH]; simpl; intros objs H.
  - now inversion H.
  - destruct (h !! q) eqn:Hq; [|discriminate].
    destruct (deref_all h ps); [|discriminate].
    inversion H; subst. unfold find_named. simpl.
    destruct (String.eqb (PinName u) Name); [reflexivity|].
    now apply IH.
Qed.

Lemma node_pins_eq s objs :
  deref_all (Heap s) (Pins s) = Some objs -> node_pins s = Some (objs, s).
Proof. intros H. unfold node_pins. now rewrite H. Qed.

Lemma FindPin_eq s objs Name :
  deref_all (Heap s) (Pins s) = Some objs ->
  FindPin Name s = Some (find_named Name objs, s).
Proof. intros H. unfold FindPin. now rewrite (find_pin_objs _ _ _ _ H). Qed.

Lemma GetCasePinCount_eq s objs :
  deref_all (Heap s) (Pins s) = Some objs ->
  GetCasePinCount s = Some (wrap32 (Z.of_nat (length (key_pins objs))), s).
Proof. intros H. unfold GetCasePinCount. now rewrite (bind_eq _ _ _ _ _ (node_pins_eq _ _ H)). Qed.

Lemma GetCasePinPairs_eq s objs :
  deref_all (Heap s) (Pins s) = Some objs ->
  GetCasePinPairs s = Some (combine (key_pins objs) (value_pins objs), s).
Proof. intros H. unfold GetCasePinPairs. now rewrite (bind_eq _ _ _ _ _ (node_pins_eq _ _ H)). Qed.

(** ** [AddCasePinPair] as a state transformer *)

Lemma find_named_lookup h ps objs Name d :
  deref_all h ps = Some objs -> find_named Name objs = Some d ->
  exists dpin, h !! d = Some dpin /\ PinName dpin = Name /\ d ∈ ps.
Proof.
  intros H Hf. unfold find_named in Hf.
  destruct (List.find _ objs) as [[q qpin]|] eqn:Hfind; [|discriminate].
  simpl in Hf. inversion Hf; subst.
  apply find_some in Hfind as [Hin Hn]. simpl in Hn.
  apply list_elem_of_In in Hin.
  exists qpin. split; [eapply deref_all_lookup; eauto|].
  split; [now apply String.eqb_eq|].
  rewrite <- (deref_all_fst _ _ _ H).
  apply list_elem_of_fmap. now exists (d, qpin).
Qed.

Lemma alter_end {A} (f : A -> A) (h : list A) (x : A) :
  alter f (length h) (h ++ [x]) = h ++ [f x].
Proof.
  replace (length h) with (length h + 0)%nat at 1 by lia.
  now rewrite alter_app_r.
Qed.

Lemma lookup_end {A} (h : list A) (x : A) : (h ++ [x]) !! length h = Some x.
Proof. now rewrite list_lookup_middle. Qed.

Lemma AddCasePinPair_eq s objs CaseIndex d dpin :
  deref_all (Heap s) (Pins s) = Some objs ->
  find_named DefaultOptionPinName objs = Some d ->
  Heap s !! d = Some dpin ->
  AddCasePinPair CaseIndex s =
  Some ((length (Heap s), S (length (Heap s))),
        with_Pins
          (place (place (Pins s) (length (Heap s)) (wrap32 (1 + CaseIndex)))
             (S (length (Heap s)))
             (wrap32 (wrap32 (wrap32 (Z.of_nat (length (key_pins objs))) + 2) + CaseIndex)))
          (with_Heap (Heap s ++ [new_key_pin CaseIndex (PinType dpin);
                                 new_value_pin CaseIndex]) s)).
Proof.
  intros Hobjs Hd Hdpin. unfold AddCasePinPair.
  rewrite (bind_eq _ _ _ _ _ (GetCasePinCount_eq _ _ Hobjs)).
  unfold GetDefaultOptionPin.
  rewrite (bind_eq _ _ _ _ _ (FindPin_eq _ _ _ Hobjs)), Hd.
  rewrite (bind_eq _ _ _ _ _ (CreatePin_eq _ _ _ _ _)).
  match goal with |- bind (write_pin _ ?f) _ ?s1 = _ =>
    rewrite (bind_eq _ _ _ _ _ (write_pin_eq s1 _ _ f (lookup_end _ _))) end.
  simpl Heap. rewrite alter_end.
  match goal with |- bind (read_pin _) _ ?s1 = _ =>
    assert (Hd1 : Heap s1 !! d = Some dpin)
      by (simpl; rewrite lookup_app_l by (eapply lookup_lt_Some; eauto); exact Hdpin);
    rewrite (bind_eq _ _ _ _ _ (read_pin_eq s1 _ _ Hd1)); clear Hd1 end.
  match goal with |- bind (write_pin _ ?f) _ ?s1 = _ =>
    rewrite (bind_eq _ _ _ _ _ (write_pin_eq s1 _ _ f (lookup_end _ _))) end.
  simpl Heap. rewrite alter_end.
  rewrite (bind_eq _ _ _ _ _ (CreatePin_eq _ _ _ _ _)).
  simpl Heap. simpl Pins.
  match goal with |- bind (write_pin _ ?f) _ ?s1 = _ =>
    rewrite (bind_eq _ _ _ _ _ (write_pin_eq s1 _ _ f (lookup_end _ _))) end.
  simpl Heap. rewrite alter_end.
  unfold ret, with_Pins, with_Heap. simpl.
  rewrite length_app. simpl.
  replace (length (Heap s) + 1)%nat with (S (length (Heap s))) by lia.
  rewrite <- app_assoc. reflexivity.
Qed.

Lemma AddCasePinPair_view s objs CaseIndex d dpin pair s' :
  deref_all (Heap s) (Pins s) = Some objs ->
  find_named DefaultOptionPinName objs = Some d ->
  Heap s !! d = Some dpin ->
  AddCasePinPair CaseIndex s = Some (pair, s') ->
  deref_all (Heap s') (Pins s') =
  Some (place (place objs (length (Heap s), new_key_pin CaseIndex (PinType dpin))
                 (wrap32 (1 + CaseIndex)))
          (S (length (Heap s)), new_value_pin CaseIndex)
          (wrap32 (wrap32 (wrap32 (Z.of_nat (length (key_pins objs))) + 2) + CaseIndex))).
Proof.
  intros Hobjs Hd Hdpin Hrun.
  rewrite (AddCasePinPair_eq _ _ _ _ _ Hobjs Hd Hdpin) in Hrun.
  inversion Hrun; subst; clear Hrun. simpl.
  apply deref_all_place.
  - apply deref_all_place.
    + now apply deref_all_grow.
    + change (Heap s ++ [?a; ?b]) with (Heap s ++ [a] ++ [b]).
      rewrite app_assoc, lookup_app_l by (rewrite length_app; simpl; lia).
      apply lookup_end.
  - change (Heap s ++ [?a; ?b]) with (Heap s ++ [a] ++ [b]).
    rewrite app_assoc.
    replace (S (length (Heap s)))
      with (length (Heap s ++ [new_key_pin CaseIndex (PinType dpin)]))
      by (rewrite length_app; simpl; lia).
    apply lookup_end.
Qed.

(** ** The pin layout *)

Lemma length_option_names N : length (option_names N) = N.
Proof. unfold option_names. rewrite length_map, length_seqZ. lia. Qed.

Lemma length_condition_names N : length (condition_names N) = N.
Proof. unfold condition_names. rewrite length_map, length_seqZ. lia. Qed.

Lemma option_names_S N :
  option_names (S N) = option_names N ++ [GetCasePinName CaseKeyPinNamePrefix (Z.of_nat N)].
Proof.
  unfold option_names.
  replace (Z.of_nat (S N)) with (Z.of_nat N + 1)%Z by lia.
  rewrite seqZ_app by lia. rewrite map_app. simpl. reflexivity.
Qed.

Lemma condition_names_S N :
  condition_names (S N) =
  condition_names N ++ [GetCasePinName CaseValuePinNamePrefix (Z.of_nat N)].
Proof.
  unfold condition_names.
  replace (Z.of_nat (S N)) with (Z.of_nat N + 1)%Z by lia.
  rewrite seqZ_app by lia. rewrite map_app. simpl. reflexivity.
Qed.

Lemma option_names_lookup N i :
  (i < N)%nat -> option_names N !! i = Some (GetCasePinName CaseKeyPinNamePrefix (Z.of_nat i)).
Proof.
  intros H. unfold option_names. rewrite list_lookup_fmap.
  rewrite lookup_seqZ_lt by lia. simpl. do 2 f_equal.
Qed.

Lemma condition_names_lookup N i :
  (i < N)%nat ->
  condition_names N !! i = Some (GetCasePinName CaseValuePinNamePrefix (Z.of_nat i)).
Proof.
  intros H. unfold condition_names. rewrite list_lookup_fmap.
  rewrite lookup_seqZ_lt by lia. simpl. do 2 f_equal.
Qed.
Lemma positions_layout_names N : positions N (layout_names N).
Proof.
  unfold positions, layout_names.
  split; [rewrite !length_app; simpl; rewrite length_option_names,
            length_condition_names; lia|].
  split; [reflexivity|].
  split; [|split].
  - intros i Hi. simpl. rewrite lookup_app_l by (rewrite length_option_names; lia).
    now apply option_names_lookup.
  - intros i Hi.
    rewrite lookup_app_r by (simpl; rewrite length_option_names; lia).
    simpl. rewrite length_option_names.
    replace (N + 1 + i - S N)%nat with i by lia.
    rewrite lookup_app_l by (rewrite length_condition_names; lia).
    now apply condition_names_lookup.
  - rewrite lookup_app_r by (simpl; rewrite length_option_names; lia).
    simpl. rewrite length_option_names.
    rewrite lookup_app_r by (rewrite length_condition_names; lia).
    rewrite length_condition_names.
    now replace (N + (N + 0) + 1 - S N - N)%nat with 0%nat by lia.
Qed.

Lemma positions_unique N names : positions N names -> names = layout_names N.
Proof.
  intros (Hlen & H0 & Ho & Hc & Hr).
  destruct (positions_layout_names N) as (Hlen' & H0' & Ho' & Hc' & Hr').
  apply list_eq. intros j.
  destruct (decide (j = 0%nat)) as [->|]; [congruence|].
  destruct (decide (j <= N)%nat).
  { replace j with (1 + (j - 1))%nat by lia. rewrite Ho, Ho' by lia. reflexivity. }
  destruct (decide (j <= 2 * N)%nat).
  { replace j with (N + 1 + (j - N - 1))%nat by lia. rewrite Hc, Hc' by lia. reflexivity. }
  destruct (decide (j = 2 * N + 1)%nat) as [->|]; [congruence|].
  rewrite !lookup_ge_None_2 by lia. reflexivity.
Qed.

Lemma Layout_iff N s : Layout N s <-> pin_names s = Some (layout_names N).
Proof.
  split.
  - intros (names & Hn & Hp). now rewrite Hn, (positions_unique _ _ Hp).
  - intros H. exists (layout_names N). split; [assumption|apply positions_layout_names].
Qed.

Lemma place_map {A B} (f : A -> B) l x Index :
  map f (place l x Index) = place (map f l) (f x) Index.
Proof.
  unfold place, IsValidIndex, Insert. rewrite length_map.
  destruct (_ && _).
  - rewrite map_app. simpl. now rewrite <- !fmap_take, <- !fmap_drop.
  - now rewrite map_app.
Qed.

Lemma place_middle {A} (l1 l2 : list A) x :
  (0 < length l2)%nat ->
  place (l1 ++ l2) x (Z.of_nat (length l1)) = l1 ++ x :: l2.
Proof.
  intros Hl2.
  unfold place, Insert.
  replace (IsValidIndex _ _) with true.
  2:{ symmetry. apply andb_true_iff. split; [apply Z.leb_le|apply Z.ltb_lt].
      - lia.
      - rewrite length_app. simpl. lia. }
  rewrite Nat2Z.id.
  rewrite take_app_length, drop_app_length. reflexivity.
Qed.

Lemma place_end {A} (l : list A) x : place l x (Z.of_nat (length l)) = l ++ [x].
Proof.
  unfold place.
  replace (IsValidIndex _ _) with false; [reflexivity|].
  symmetry. apply andb_false_iff. right. apply Z.ltb_ge. lia.
Qed.

Lemma prefix_empty s : String.prefix "" s = true.
Proof. now destruct s. Qed.

Lemma IsCaseKeyPinName_option i :
  IsCaseKeyPinName (GetCasePinName CaseKeyPinNamePrefix i) = true.
Proof. cbn. apply prefix_empty. Qed.

Lemma IsCaseKeyPinName_condition i :
  IsCaseKeyPinName (GetCasePinName CaseValuePinNamePrefix i) = false.
Proof. reflexivity. Qed.

Lemma IsCaseValuePinName_option i :
  IsCaseValuePinName (GetCasePinName CaseKeyPinNamePrefix i) = false.
Proof. reflexivity. Qed.

Lemma IsCaseValuePinName_condition i :
  IsCaseValuePinName (GetCasePinName CaseValuePinNamePrefix i) = true.
Proof. cbn. apply prefix_empty. Qed.

Lemma key_pins_length objs :
  length (key_pins objs) = length (List.filter IsCaseKeyPinName (map pin_name_of objs)).
Proof.
  unfold key_pins. rewrite length_map.
  induction objs as [|o objs IH]; simpl; [reflexivity|].
  unfold pin_name_of at 1. destruct (IsCaseKeyPinName _); simpl; now rewrite IH.
Qed.

Lemma filter_key_option_names N :
  List.filter IsCaseKeyPinName (option_names N) = option_names N.
Proof.
  unfold option_names. induction (seqZ 0 (Z.of_nat N)) as [|i l IH]; [reflexivity|].
  cbn [map List.filter]. rewrite IsCaseKeyPinName_option. now rewrite IH.
Qed.

Lemma filter_key_condition_names N :
  List.filter IsCaseKeyPinName (condition_names N) = [].
Proof.
  unfold condition_names. induction (seqZ 0 (Z.of_nat N)) as [|i l IH]; [reflexivity|].
  cbn [map List.filter]. now rewrite IsCaseKeyPinName_condition.
Qed.

Lemma filter_key_layout_names N :
  List.filter IsCaseKeyPinName (layout_names N) = option_names N.
Proof.
  unfold layout_names. rewrite !List.filter_app. simpl.
  rewrite filter_key_option_names, filter_key_condition_names.
  now rewrite app_nil_r.
Qed.

Lemma find_named_head Name o objs :
  PinName (snd o) = Name -> find_named Name (o :: objs) = Some (fst o).
Proof.
  intros H. unfold find_named. simpl. now rewrite H, String.eqb_refl.
Qed.

Lemma place_layout_step {A} (D R k v : A) (os cs : list A) (n1 n2 : Z) :
  n1 = (1 + Z.of_nat (length os))%Z ->
  n2 = (2 + Z.of_nat (length os) + Z.of_nat (length cs))%Z ->
  place (place ((D :: os) ++ cs ++ [R]) k n1) v n2 =
  (D :: os ++ [k]) ++ (cs ++ [v]) ++ [R].
Proof.
  intros -> ->.
  replace (1 + Z.of_nat (length os))%Z with (Z.of_nat (length (D :: os)))
    by (simpl; lia).
  rewrite place_middle by (rewrite length_app; simpl; lia).
  replace ((D :: os) ++ k :: cs ++ [R]) with (((D :: os ++ [k]) ++ cs) ++ [R])
    by (simpl; rewrite <- !app_assoc; reflexivity).
  replace (2 + Z.of_nat (length os) + Z.of_nat (length cs))%Z
    with (Z.of_nat (length ((D :: os ++ [k]) ++ cs)))
    by (rewrite length_app; simpl; rewrite length_app; simpl; lia).
  rewrite place_middle by (simpl; lia).
  simpl. rewrite <- !app_assoc. reflexivity.
Qed.

Lemma AddCasePinPair_layout N s :
  pin_names s = Some (layout_names N) ->
  (2 * Z.of_nat N + 2 < 2 ^ 31)%Z ->
  exists pair s',
    AddCasePinPair (Z.of_nat N) s = Some (pair, s') /\
    pin_names s' = Some (layout_names (S N)).
Proof.
  intros Hn Hb. unfold pin_names in Hn.
  destruct (deref_all (Heap s) (Pins s)) as [objs|] eqn:Hobjs; [|discriminate].
  simpl in Hn. inversion Hn as [Hnames]; clear Hn.
  destruct objs as [|o objs']; [discriminate|].
  assert (Hd : find_named DefaultOptionPinName (o :: objs') = Some (fst o)).
  { apply find_named_head. now inversion Hnames. }
  destruct (find_named_lookup _ _ _ _ _ Hobjs Hd) as (dpin & Hdpin & _).
  pose proof (AddCasePinPair_eq _ _ (Z.of_nat N) _ _ Hobjs Hd Hdpin) as Hrun.
  eexists _, _. split; [exact Hrun|].
  unfold pin_names.
  rewrite (AddCasePinPair_view _ _ _ _ _ _ _ Hobjs Hd Hdpin Hrun).
  simpl. f_equal. rewrite !place_map. rewrite Hnames.
  rewrite key_pins_length, Hnames, filter_key_layout_names, length_option_names.
  rewrite (wrap32_small (1 + _)) by lia.
  rewrite (wrap32_small (Z.of_nat N)) by lia.
  rewrite (wrap32_small (Z.of_nat N + 2)) by lia.
  rewrite (wrap32_small (Z.of_nat N + 2 + _)) by lia.
  unfold layout_names. rewrite option_names_S, condition_names_S.
  apply place_layout_step.
  - now rewrite length_option_names.
  - rewrite length_option_names, length_condition_names. lia.
Qed.

Lemma bind_assoc {A B C} (m : M A) (f : A -> M B) (g : B -> M C) s :
  bind (bind m f) g s = bind m (fun a => bind (f a) g) s.
Proof. unfold bind. destruct (m s) as [[a s']|]; reflexivity. Qed.

(** Bring a computation applied to a state into the form [bind m k s]
    with [m] a single operation. *)
Ltac mnorm := repeat (rewrite bind_assoc || rewrite bind_ret_eq).

(** ** Initial allocation *)

Lemma Create_default_return_eq {A} (k : unit -> M A) s :
  Pins s = [] ->
  (CreateDefaultOptionPin ;; x <- CreateReturnValuePin ;; k x) s =
  k tt (with_Pins [length (Heap s); S (length (Heap s))]
          (with_Heap (Heap s ++ [new_default_pin; new_return_pin]) s)).
Proof.
  intros Hp. unfold CreateDefaultOptionPin, CreateReturnValuePin.
  mnorm. rewrite (bind_eq _ _ _ _ _ (CreatePin_eq _ _ _ _ _)). mnorm.
  rewrite Hp. cbn [place IsValidIndex length Z.of_nat Z.ltb Z.leb Z.compare andb app].
  match goal with |- bind GetCasePinCount _ ?s1 = _ =>
    assert (Hobjs : deref_all (Heap s1) (Pins s1) =
                    Some [(length (Heap s), new_default_pin)])
      by (simpl; now rewrite lookup_end) end.
  rewrite (bind_eq _ _ _ _ _ (GetCasePinCount_eq _ _ Hobjs)). mnorm.
  rewrite (bind_eq _ _ _ _ _ (CreatePin_eq _ _ _ _ _)). mnorm.
  f_equal. unfold with_Pins, with_Heap. simpl.
  rewrite length_app, <- app_assoc. simpl.
  replace (length (Heap s) + 1)%nat with (S (length (Heap s))) by lia.
  reflexivity.
Qed.

Lemma Create_default_return_names s :
  pin_names (with_Pins [length (Heap s); S (length (Heap s))]
               (with_Heap (Heap s ++ [new_default_pin; new_return_pin]) s)) =
  Some (layout_names 0).
Proof.
  unfold pin_names. simpl.
  change (Heap s ++ [new_default_pin; new_return_pin])
    with (Heap s ++ [new_default_pin] ++ [new_return_pin]).
  rewrite app_assoc.
  rewrite (lookup_app_l _ _ (length (Heap s))) by (rewrite length_app; simpl; lia).
  rewrite lookup_end.
  replace (S (length (Heap s))) with (length (Heap s ++ [new_default_pin]))
    by (rewrite length_app; simpl; lia).
  rewrite lookup_end. reflexivity.
Qed.

Lemma GetCasePinCount_layout N s :
  pin_names s = Some (layout_names N) ->
  (Z.of_nat N < 2 ^ 31)%Z ->
  GetCasePinCount s = Some (Z.of_nat N, s).
Proof.
  intros Hn Hb. unfold pin_names in Hn.
  destruct (deref_all (Heap s) (Pins s)) as [objs|] eqn:Hobjs; [|discriminate].
  simpl in Hn. inversion Hn as [Hnames]; clear Hn.
  rewrite (GetCasePinCount_eq _ _ Hobjs).
  rewrite key_pins_length, Hnames, filter_key_layout_names, length_option_names.
  now rewrite wrap32_small by lia.
Qed.

Lemma AllocateDefaultPins_layout s :
  Pins s = [] ->
  exists s', AllocateDefaultPins s = Some (tt, s') /\ pin_names s' = Some (layout_names 2).
Proof.
  intros Hp. unfold AllocateDefaultPins.
  rewrite (Create_default_return_eq _ _ Hp).
  pose proof (Create_default_return_names s) as H0.
  destruct (AddCasePinPair_layout 0 _ H0) as (pair0 & s1 & Hrun0 & H1); [simpl; lia|].
  destruct (AddCasePinPair_layout 1 _ H1) as (pair1 & s2 & Hrun1 & H2); [simpl; lia|].
  exists s2. split; [|assumption].
  unfold for_range. change (seqZ 0 (2 - 0)) with [0%Z; 1%Z].
  cbn [for_each]. mnorm.
  change (Z.of_nat 0) with 0%Z in Hrun0. rewrite (bind_eq _ _ _ _ _ Hrun0). mnorm.
  change (Z.of_nat 1) with 1%Z in Hrun1. rewrite (bind_eq _ _ _ _ _ Hrun1). mnorm.
  reflexivity.
Qed.

(** C3. After the initial pin allocation of a fresh node, and after an
    add-case-pair operation that appends case pair [N] to a node holding the
    pairs [0..N-1], the pins of the node are, in order: the default pin at
    position 0, the option pins 0..N-1 at positions 1..N, the condition pins
    0..N-1 at positions N+1..2N and the result pin at position 2N+1, where N
    is the number of option pins the node reports. *)
Theorem pin_layout_invariant :
  (forall s, Pins s = [] ->
     exists s', AllocateDefaultPins s = Some (tt, s') /\
                Layout 2 s' /\ GetCasePinCount s' = Some (2%Z, s')) /\
  (forall N s, Layout N s -> (2 * Z.of_nat N + 2 < 2 ^ 31)%Z ->
     exists pair s', AddCasePinPair (Z.of_nat N) s = Some (pair, s') /\
                     Layout (S N) s' /\
                     GetCasePinCount s' = Some (Z.of_nat (S N), s')).
Proof.
  split.
  - intros s Hp. destruct (AllocateDefaultPins_layout s Hp) as (s' & Hrun & Hn).
    exists s'. split; [assumption|]. split; [now apply Layout_iff|].
    apply (GetCasePinCount_layout 2); [assumption|simpl; lia].
  - intros N s HL Hb. apply Layout_iff in HL.
    destruct (AddCasePinPair_layout N s HL Hb) as (pair & s' & Hrun & Hn).
    exists pair, s'. split; [assumption|]. split; [now apply Layout_iff|].
    apply GetCasePinCount_layout; [assumption|lia].
Qed.

(** ** Types of a new case pair *)

Lemma node_pins_inv s r : node_pins s = Some r -> deref_all (Heap s) (Pins s) = Some (fst r) /\ snd r = s.
Proof.
  unfold node_pins. destruct (deref_all _ _); [|discriminate].
  intros H. inversion H; subst. now split.
Qed.

Lemma GetCasePinCount_inv s r :
  GetCasePinCount s = Some r -> exists objs, deref_all (Heap s) (Pins s) = Some objs.
Proof.
  unfold GetCasePinCount, bind. destruct (node_pins s) as [[objs s']|] eqn:E; [|discriminate].
  intros _. apply node_pins_inv in E as [E _]. now exists objs.
Qed.

Lemma GetDefaultOptionPin_inv s objs D s' :
  deref_all (Heap s) (Pins s) = Some objs ->
  GetDefaultOptionPin s = Some (D, s') ->
  find_named DefaultOptionPinName objs = D /\ s' = s.
Proof.
  intros Hobjs H. unfold GetDefaultOptionPin in H.
  rewrite (FindPin_eq _ _ _ Hobjs) in H. inversion H; subst. now split.
Qed.

(** C8. Whenever the node's pins can be read and it has a default pin,
    adding a case pair creates an option pin whose declared type is the type
    the default pin has at the time of the call, and a condition pin whose
    declared type is boolean. *)
Theorem add_case_pair_types s CaseIndex N d dpin :
  GetCasePinCount s = Some (N, s) ->
  GetDefaultOptionPin s = Some (Some d, s) ->
  Heap s !! d = Some dpin ->
  exists Key Value s' kpin vpin,
    AddCasePinPair CaseIndex s = Some ((Key, Value), s') /\
    Heap s' !! Key = Some kpin /\ Heap s' !! Value = Some vpin /\
    PinName kpin = GetCasePinName CaseKeyPinNamePrefix CaseIndex /\
    PinName vpin = GetCasePinName CaseValuePinNamePrefix CaseIndex /\
    PinType kpin = PinType dpin /\
    PinCategory (PinType vpin) = PC_Boolean /\
    Key ∈ Pins s' /\ Value ∈ Pins s'.
Proof.
  intros Hc Hd Hdpin.
  destruct (GetCasePinCount_inv _ _ Hc) as [objs Hobjs].
  destruct (GetDefaultOptionPin_inv _ _ _ _ Hobjs Hd) as [Hf _].
  pose proof (AddCasePinPair_eq _ _ CaseIndex _ _ Hobjs Hf Hdpin) as Hrun.
  eexists _, _, _, (new_key_pin CaseIndex (PinType dpin)), (new_value_pin CaseIndex).
  split; [exact Hrun|]. simpl.
  change (Heap s ++ [?a; ?b]) with (Heap s ++ [a] ++ [b]).
  rewrite app_assoc.
  split; [rewrite lookup_app_l by (rewrite length_app; simpl; lia); apply lookup_end|].
  split.
  { replace (S (length (Heap s)))
      with (length (Heap s ++ [new_key_pin CaseIndex (PinType dpin)]))
      by (rewrite length_app; simpl; lia).
    apply lookup_end. }
  do 4 (split; [reflexivity|]).
  assert (Hin : forall {A} (l : list A) x i, x ∈ place l x i).
  { intros A l x i. unfold place, Insert. destruct (IsValidIndex l i).
    - apply elem_of_app. right. apply elem_of_cons. now left.
    - apply elem_of_app. right. apply elem_of_cons. now left. }
  assert (Hmono : forall {A} (l : list A) x y i, x ∈ l -> x ∈ place l y i).
  { intros A l x y i Hx. unfold place, Insert. destruct (IsValidIndex l i).
    - rewrite <- (take_drop (Z.to_nat i) l) in Hx.
      apply elem_of_app in Hx as [Hx|Hx]; apply elem_of_app; [now left|right].
      apply elem_of_cons. now right.
    - apply elem_of_app. now left. }
  split; [apply Hmono, Hin|apply Hin].
Qed.

(** ** In-place updates that keep the stable names *)

Lemma shape_find_named Name objs objs' :
  shape objs = shape objs' -> find_named Name objs = find_named Name objs'.
Proof.
  revert objs'. induction objs as [|o objs IH]; intros [|o' objs'] H; try discriminate.
  - reflexivity.
  - inversion H as [[H1 H2 H3]]. unfold find_named in *. simpl.
    rewrite H2. destruct (String.eqb _ Name); simpl; [now f_equal|].
    now apply IH.
Qed.

Lemma shape_key_pins objs objs' : shape objs = shape objs' -> key_pins objs = key_pins objs'.
Proof.
  revert objs'. induction objs as [|o objs IH]; intros [|o' objs'] H; try discriminate.
  - reflexivity.
  - inversion H as [[H1 H2 H3]]. unfold key_pins in *. simpl.
    rewrite H2. destruct (IsCaseKeyPinName _); simpl; [f_equal; [assumption|]|]; now apply IH.
Qed.

Lemma shape_value_pins objs objs' :
  shape objs = shape objs' -> value_pins objs = value_pins objs'.
Proof.
  revert objs'. induction objs as [|o objs IH]; intros [|o' objs'] H; try discriminate.
  - reflexivity.
  - inversion H as [[H1 H2 H3]]. unfold value_pins in *. simpl.
    rewrite H2. destruct (IsCaseValuePinName _); simpl; [f_equal; [assumption|]|]; now apply IH.
Qed.

Lemma deref_all_alter f q h ps objs :
  (forall x, PinName (f x) = PinName x) ->
  deref_all h ps = Some objs ->
  exists objs', deref_all (alter f q h) ps = Some objs' /\ shape objs' = shape objs.
Proof.
  intros Hf. revert objs. induction ps as [|p ps IH]; simpl; intros objs H.
  - inversion H; subst. now exists [].
  - destruct (h !! p) as [pin|] eqn:Hp; [|discriminate].
    destruct (deref_all h ps) as [r|]; [|discriminate].
    inversion H; subst; clear H.
    destruct (IH r eq_refl) as (r' & Hr' & Hs). rewrite Hr'.
    rewrite list_lookup_alter. destruct (decide (q = p)) as [Heq|].
    + subst q. rewrite Hp. simpl. eexists. split; [reflexivity|]. simpl. now rewrite Hf, Hs.
    + rewrite Hp. eexists. split; [reflexivity|]. simpl. now rewrite Hs.
Qed.

Lemma length_alter_all f qs h : length (alter_all f qs h) = length h.
Proof.
  revert h. induction qs as [|q qs IH]; intros h; simpl; [reflexivity|].
  unfold alter_all in *. simpl. now rewrite IH, length_alter.
Qed.

Lemma lookup_alter_all f qs h p :
  (forall x, f (f x) = f x) ->
  alter_all f qs h !! p = (if bool_decide (p ∈ qs) then f else id) <$> h !! p.
Proof.
  intros Hf. revert h. induction qs as [|q qs IH]; intros h.
  - unfold alter_all. cbn [fold_left].
    rewrite bool_decide_eq_false_2 by apply not_elem_of_nil.
    now destruct (h !! p).
  - unfold alter_all in *. simpl. rewrite IH. rewrite list_lookup_alter.
    destruct (decide (q = p)) as [Heq|Hne].
    + subst q. rewrite (bool_decide_eq_true_2 (p ∈ p :: qs)) by (apply elem_of_cons; now left).
      destruct (h !! p); simpl; [|reflexivity].
      destruct (bool_decide _); simpl; now rewrite ?Hf.
    + destruct (bool_decide (p ∈ qs)) eqn:E.
      * apply bool_decide_eq_true in E.
        now rewrite bool_decide_eq_true_2 by (apply elem_of_cons; now right).
      * apply bool_decide_eq_false in E.
        rewrite bool_decide_eq_false_2; [reflexivity|].
        intros [?|?]%elem_of_cons; congruence.
Qed.

Lemma deref_all_alter_all f qs h ps objs :
  (forall x, PinName (f x) = PinName x) ->
  deref_all h ps = Some objs ->
  exists objs', deref_all (alter_all f qs h) ps = Some objs' /\ shape objs' = shape objs.
Proof.
  intros Hf. revert h objs. induction qs as [|q qs IH]; intros h objs H.
  - now exists objs.
  - destruct (deref_all_alter f q h ps objs Hf H) as (o1 & H1 & S1).
    destruct (IH _ _ H1) as (o2 & H2 & S2).
    exists o2. split; [exact H2|congruence].
Qed.

(** ** The type-unification pass *)

Lemma retype_idem Schema T x : retype Schema T (retype Schema T x) = retype Schema T x.
Proof. reflexivity. Qed.

Lemma retype_name Schema T x : PinName (retype Schema T x) = PinName x.
Proof. reflexivity. Qed.

Lemma retype_at_eq {A} Schema s L lpin q qpin (k : unit -> M A) :
  Heap s !! L = Some lpin -> Heap s !! q = Some qpin ->
  (l <- read_pin (Some L) ;;
   write_pin (Some q) (with_PinType (PinType l)) ;;
   x <- ResetPinToAutogeneratedDefaultValue Schema (Some q) ;;
   k x) s =
  k tt (with_Heap (alter (retype Schema (PinType lpin)) q (Heap s)) s).
Proof.
  intros HL Hq.
  rewrite (bind_eq _ _ _ _ _ (read_pin_eq _ _ _ HL)).
  rewrite (bind_eq _ _ _ _ _ (write_pin_eq _ _ _ _ Hq)).
  unfold ResetPinToAutogeneratedDefaultValue.
  erewrite (bind_eq (write_pin _ _)).
  2:{ apply write_pin_eq with (pin := with_PinType (PinType lpin) qpin).
      simpl. rewrite list_lookup_alter_eq, Hq. reflexivity. }
  f_equal. unfold with_Heap. simpl. f_equal.
  rewrite list_alter_alter_eq. apply list_alter_ext; [|reflexivity].
  intros x _. reflexivity.
Qed.

Lemma retype_body_eq Schema s L lpin q qpin :
  Heap s !! L = Some lpin -> Heap s !! q = Some qpin ->
  (l <- read_pin (Some L) ;;
   write_pin (Some q) (with_PinType (PinType l)) ;;
   ResetPinToAutogeneratedDefaultValue Schema (Some q)) s =
  Some (tt, with_Heap (alter (retype Schema (PinType lpin)) q (Heap s)) s).
Proof.
  intros HL Hq.
  rewrite (bind_eq _ _ _ _ _ (read_pin_eq _ _ _ HL)).
  rewrite (bind_eq _ _ _ _ _ (write_pin_eq _ _ _ _ Hq)).
  unfold ResetPinToAutogeneratedDefaultValue.
  erewrite write_pin_eq.
  2:{ simpl. rewrite list_lookup_alter_eq, Hq. reflexivity. }
  f_equal. unfold with_Heap. simpl. do 2 f_equal.
  rewrite list_alter_alter_eq. apply list_alter_ext; [|reflexivity].
  intros x _. reflexivity.
Qed.

Lemma lookup_alter_type f q (h : list UEdGraphPin) L lpin T :
  (forall x, PinType (f x) = T) ->
  h !! L = Some lpin -> PinType lpin = T ->
  exists lpin', alter f q h !! L = Some lpin' /\ PinType lpin' = T.
Proof.
  intros Hf HL HT. rewrite list_lookup_alter.
  destruct (decide (q = L)) as [Heq|].
  - subst q. rewrite HL. simpl. eexists. split; [reflexivity|apply Hf].
  - now exists lpin.
Qed.

Lemma retype_loop Schema L T (pairs : list CasePinPair) :
  forall s lpin,
    Heap s !! L = Some lpin -> PinType lpin = T ->
    (forall q, q ∈ map fst pairs -> (q < length (Heap s))%nat) ->
    for_each pairs (fun Pair =>
      l <- read_pin (Some L) ;;
      write_pin (Some (fst Pair)) (with_PinType (PinType l)) ;;
      ResetPinToAutogeneratedDefaultValue Schema (Some (fst Pair))) s =
    Some (tt, with_Heap (alter_all (retype Schema T) (map fst pairs) (Heap s)) s).
Proof.
  induction pairs as [|[q v] pairs IH]; intros s lpin HL HT Hv.
  - destruct s; reflexivity.
  - cbn [for_each].
    assert (Hq : exists qpin, Heap s !! q = Some qpin).
    { apply lookup_lt_is_Some_2. apply Hv. simpl. apply elem_of_cons. now left. }
    destruct Hq as [qpin Hq]. cbn [fst].
    rewrite (bind_eq _ _ _ _ _ (retype_body_eq Schema s L lpin q qpin HL Hq)). rewrite HT.
    destruct (lookup_alter_type (retype Schema T) q (Heap s) L lpin T) as (lpin' & HL' & HT');
      [reflexivity|assumption|assumption|].
    rewrite (IH _ lpin').
    + reflexivity.
    + exact HL'.
    + exact HT'.
    + intros q' Hq'. simpl. rewrite length_alter. apply Hv. simpl.
      apply elem_of_cons. now right.
Qed.

Lemma combine_fst_valid h ps objs q :
  deref_all h ps = Some objs ->
  q ∈ map fst (combine (key_pins objs) (value_pins objs)) -> (q < length h)%nat.
Proof.
  intros Hobjs Hq.
  apply list_elem_of_fmap in Hq as ([k v] & -> & Hin).
  apply list_elem_of_In, in_combine_l, list_elem_of_In in Hin.
  unfold key_pins in Hin. apply list_elem_of_fmap in Hin as ([k' kpin] & Hk & Hin).
  simpl in Hk. subst k'. apply list_elem_of_In, List.filter_In in Hin as [Hin _].
  apply list_elem_of_In in Hin.
  eapply lookup_lt_Some, deref_all_lookup; eauto.
Qed.

Lemma PinConnectionListChanged_unify Schema s p pin L lpin objs d dpin r :
  Heap s !! p = Some pin ->
  LinkedTo pin !! 0%nat = Some L ->
  IsCaseValuePinName (PinName pin) = false ->
  deref_all (Heap s) (Pins s) = Some objs ->
  find_named DefaultOptionPinName objs = Some d ->
  Heap s !! d = Some dpin ->
  PinCategory (PinType dpin) = PC_Wildcard ->
  find_named ReturnValueOptionPinName objs = Some r ->
  Heap s !! L = Some lpin ->
  PinConnectionListChanged Schema (Some p) s =
  Some (tt, with_Modified true
              (with_Heap
                 (alter_all (retype Schema (PinType lpin))
                    (d :: r :: map fst (combine (key_pins objs) (value_pins objs)))
                    (Heap s)) s)).
Proof.
  intros Hp HL0 Hcond Hobjs Hd Hdpin Hwild Hr HL.
  set (T := PinType lpin). set (f := retype Schema T).
  assert (Hfname : forall x, PinName (f x) = PinName x) by reflexivity.
  assert (HfT : forall x, PinType (f x) = T) by reflexivity.
  unfold PinConnectionListChanged.
  rewrite (bind_eq _ _ _ _ _ (read_pin_eq _ _ _ Hp)).
  destruct (LinkedTo pin) as [|L' rest] eqn:Hlinks; [discriminate|].
  simpl in HL0. inversion HL0; subst L'. cbn [length Nat.eqb].
  unfold IsCaseValuePin. mnorm.
  rewrite (bind_eq _ _ _ _ _ (read_pin_eq _ _ _ Hp)). mnorm. rewrite Hcond.
  unfold GetDefaultOptionPin at 1.
  rewrite (bind_eq _ _ _ _ _ (FindPin_eq s objs _ Hobjs)), Hd.
  rewrite (bind_eq _ _ _ _ _ (read_pin_eq _ _ _ Hdpin)).
  rewrite Hwild, String.eqb_refl. cbn [negb].
  unfold Super_PinConnectionListChanged. mnorm.
  rewrite (bind_eq Modify _ s tt (with_Modified true s) eq_refl).
  set (s1 := with_Modified true s).
  rewrite (bind_eq _ _ _ _ _ (read_pin_eq s1 _ _ Hp)). rewrite Hlinks.
  cbn [lookup list_lookup lift_option]. mnorm.
  unfold GetDefaultOptionPin.
  rewrite (bind_eq _ _ _ _ _ (FindPin_eq s1 objs _ Hobjs)), Hd.
  rewrite (retype_at_eq Schema s1 L lpin d dpin _ HL Hdpin). fold T. fold f.
  set (s2 := with_Heap (alter f d (Heap s1)) s1).
  destruct (deref_all_alter f d (Heap s) (Pins s) objs Hfname Hobjs) as (objs2 & Hobjs2 & Hs2).
  unfold GetReturnValuePin.
  rewrite (bind_eq _ _ _ _ _ (FindPin_eq s2 objs2 _ Hobjs2)).
  rewrite (shape_find_named _ _ _ Hs2), Hr.
  destruct (lookup_alter_type f d (Heap s) L lpin T HfT HL eq_refl) as (lpin2 & HL2 & HT2).
  destruct (find_named_lookup _ _ _ _ _ Hobjs Hr) as (rpin & Hrpin & _ & _).
  assert (Hr2 : exists rpin2, Heap s2 !! r = Some rpin2).
  { apply lookup_lt_is_Some_2. simpl. rewrite length_alter.
    eapply lookup_lt_Some; eauto. }
  destruct Hr2 as [rpin2 Hr2].
  rewrite (retype_at_eq Schema s2 L lpin2 r rpin2 _ HL2 Hr2). rewrite HT2. fold f.
  set (s3 := with_Heap (alter f r (Heap s2)) s2).
  destruct (deref_all_alter f r _ _ _ Hfname Hobjs2) as (objs3 & Hobjs3 & Hs3).
  rewrite (bind_eq _ _ _ _ _ (GetCasePinPairs_eq s3 objs3 Hobjs3)).
  rewrite (shape_key_pins objs3 objs), (shape_value_pins objs3 objs) by congruence.
  destruct (lookup_alter_type f r (Heap s2) L lpin2 T HfT HL2 HT2) as (lpin3 & HL3 & HT3).
  erewrite (bind_eq (for_each _ _)).
  2:{ apply (retype_loop Schema L T _ s3 lpin3 HL3 HT3).
      intros q Hq. simpl. rewrite !length_alter.
      eapply combine_fst_valid; eauto. }
  unfold MarkBlueprintAsModified, BroadcastChanged, bind, ret. fold f.
  reflexivity.
Qed.

Lemma GetCasePinPairs_inv s pairs s' :
  GetCasePinPairs s = Some (pairs, s') ->
  exists objs, deref_all (Heap s) (Pins s) = Some objs /\
               pairs = combine (key_pins objs) (value_pins objs) /\ s' = s.
Proof.
  unfold GetCasePinPairs, bind. destruct (node_pins s) as [[objs s0]|] eqn:E; [|discriminate].
  apply node_pins_inv in E as [E E']. simpl in *. subst s0.
  intros H. inversion H; subst. now exists objs.
Qed.

Lemma FindPin_inv s objs Name P s' :
  deref_all (Heap s) (Pins s) = Some objs ->
  FindPin Name s = Some (P, s') -> find_named Name objs = P /\ s' = s.
Proof.
  intros Hobjs H. rewrite (FindPin_eq _ _ _ Hobjs) in H. inversion H; subst. now split.
Qed.

(** The state after the pass, in terms of the queries of the node. *)
Lemma unify_post Schema s p pin L lpin objs d dpin r :
  Heap s !! p = Some pin ->
  LinkedTo pin !! 0%nat = Some L ->
  IsCaseValuePinName (PinName pin) = false ->
  deref_all (Heap s) (Pins s) = Some objs ->
  find_named DefaultOptionPinName objs = Some d ->
  Heap s !! d = Some dpin ->
  PinCategory (PinType dpin) = PC_Wildcard ->
  find_named ReturnValueOptionPinName objs = Some r ->
  Heap s !! L = Some lpin ->
  exists s',
    PinConnectionListChanged Schema (Some p) s = Some (tt, s') /\
    GetDefaultOptionPin s' = Some (Some d, s') /\
    GetReturnValuePin s' = Some (Some r, s') /\
    GetCasePinPairs s' = Some (combine (key_pins objs) (value_pins objs), s') /\
    forall q, q = d \/ q = r \/ q ∈ map fst (combine (key_pins objs) (value_pins objs)) ->
      exists qpin, Heap s' !! q = Some qpin /\
                   PinType qpin = PinType lpin /\
                   DefaultValue qpin = AutogeneratedDefaultValue Schema (PinType lpin).
Proof.
  intros Hp HL0 Hcond Hobjs Hd Hdpin Hwild Hr HL.
  eexists. split.
  { eapply PinConnectionListChanged_unify; eauto. }
  set (qs := d :: r :: map fst (combine (key_pins objs) (value_pins objs))).
  set (f := retype Schema (PinType lpin)).
  destruct (deref_all_alter_all f qs (Heap s) (Pins s) objs) as (objs' & Hobjs' & Hshape);
    [reflexivity|assumption|].
  split; [|split; [|split]].
  - unfold GetDefaultOptionPin. erewrite FindPin_eq by exact Hobjs'.
    now rewrite (shape_find_named _ _ _ Hshape), Hd.
  - unfold GetReturnValuePin. erewrite FindPin_eq by exact Hobjs'.
    now rewrite (shape_find_named _ _ _ Hshape), Hr.
  - erewrite GetCasePinPairs_eq by exact Hobjs'.
    now rewrite (shape_key_pins _ _ Hshape), (shape_value_pins _ _ Hshape).
  - intros q Hq. cbn [Heap with_Modified with_Heap]. fold qs. fold f.
    assert (Hin : q ∈ qs).
    { unfold qs. rewrite !elem_of_cons. tauto. }
    assert (Hvalid : exists old, Heap s !! q = Some old).
    { apply lookup_lt_is_Some_2.
      destruct Hq as [->|[->|Hq]].
      - eapply lookup_lt_Some; eauto.
      - destruct (find_named_lookup _ _ _ _ _ Hobjs Hr) as (rpin & Hrpin & _).
        eapply lookup_lt_Some; eauto.
      - eapply combine_fst_valid; eauto. }
    destruct Hvalid as [old Hold].
    exists (f old). split; [|split; reflexivity].
    rewrite lookup_alter_all by reflexivity.
    rewrite bool_decide_eq_true_2 by exact Hin. now rewrite Hold.
Qed.

(** C4. When a pin that is not a condition pin has a link while the default
    pin is still wildcard, the pass gives the default pin, the result pin and
    the option pin of every case pair the type of the pin's first link target
    and resets the literal of each of them to the canonical default of that
    type. *)
Theorem type_unification_on_first_link Schema s p pin L lpin d dpin r pairs :
  GetCasePinPairs s = Some (pairs, s) ->
  GetDefaultOptionPin s = Some (Some d, s) ->
  Heap s !! d = Some dpin ->
  PinCategory (PinType dpin) = PC_Wildcard ->
  GetReturnValuePin s = Some (Some r, s) ->
  Heap s !! p = Some pin ->
  IsCaseValuePinName (PinName pin) = false ->
  LinkedTo pin !! 0%nat = Some L ->
  Heap s !! L = Some lpin ->
  exists s',
    PinConnectionListChanged Schema (Some p) s = Some (tt, s') /\
    GetDefaultOptionPin s' = Some (Some d, s') /\
    GetReturnValuePin s' = Some (Some r, s') /\
    GetCasePinPairs s' = Some (pairs, s') /\
    forall q, q = d \/ q = r \/ q ∈ map fst pairs ->
      exists qpin, Heap s' !! q = Some qpin /\
                   PinType qpin = PinType lpin /\
                   DefaultValue qpin = AutogeneratedDefaultValue Schema (PinType lpin).
Proof.
  intros Hpairs Hd Hdpin Hwild Hr Hp Hcond HL0 HL.
  destruct (GetCasePinPairs_inv _ _ _ Hpairs) as (objs & Hobjs & -> & _).
  destruct (FindPin_inv _ _ _ _ _ Hobjs Hd) as [Hd' _].
  destruct (FindPin_inv _ _ _ _ _ Hobjs Hr) as [Hr' _].
  eapply unify_post; eauto.
Qed.

(** C9. The pass does not look at the direction of the pin: a first link
    made to the result pin, an output, while the default pin is still
    wildcard fixes the types of the default pin, the result pin and every
    option pin exactly as a link to an input pin does. *)
Theorem type_unification_from_result_pin Schema s L lpin d dpin r rpin pairs :
  GetCasePinPairs s = Some (pairs, s) ->
  GetDefaultOptionPin s = Some (Some d, s) ->
  Heap s !! d = Some dpin ->
  PinCategory (PinType dpin) = PC_Wildcard ->
  GetReturnValuePin s = Some (Some r, s) ->
  Heap s !! r = Some rpin ->
  Direction rpin = EGPD_Output ->
  LinkedTo rpin !! 0%nat = Some L ->
  Heap s !! L = Some lpin ->
  exists s',
    PinConnectionListChanged Schema (Some r) s = Some (tt, s') /\
    GetDefaultOptionPin s' = Some (Some d, s') /\
    GetReturnValuePin s' = Some (Some r, s') /\
    GetCasePinPairs s' = Some (pairs, s') /\
    forall q, q = d \/ q = r \/ q ∈ map fst pairs ->
      exists qpin, Heap s' !! q = Some qpin /\
                   PinType qpin = PinType lpin /\
                   DefaultValue qpin = AutogeneratedDefaultValue Schema (PinType lpin).
Proof.
  intros Hpairs Hd Hdpin Hwild Hr Hrpin Hdir HL0 HL.
  destruct (GetCasePinPairs_inv _ _ _ Hpairs) as (objs & Hobjs & -> & _).
  destruct (FindPin_inv _ _ _ _ _ Hobjs Hd) as [Hd' _].
  destruct (FindPin_inv _ _ _ _ _ Hobjs Hr) as [Hr' _].
  destruct (find_named_lookup _ _ _ _ _ Hobjs Hr') as (rpin' & Hrpin' & Hname & _).
  assert (rpin' = rpin) by congruence. subst rpin'.
  eapply unify_post; eauto.
  now rewrite Hname.
Qed.

(** ** Connection events after the type is fixed *)

Lemma find_pin_alter f q h Name ps :
  (forall x, PinName (f x) = PinName x) ->
  find_pin (alter f q h) Name ps = find_pin h Name ps.
Proof.
  intros Hf. induction ps as [|p ps IH]; simpl; [reflexivity|].
  rewrite list_lookup_alter. destruct (decide (q = p)) as [Heq|].
  - subst q. destruct (h !! p); simpl; [|reflexivity]. now rewrite Hf, IH.
  - now rewrite IH.
Qed.

Lemma map_alter_same {B} (g : UEdGraphPin -> B) f q (h : list UEdGraphPin) :
  (forall x, g (f x) = g x) -> map g (alter f q h) = map g h.
Proof.
  intros Hf. apply list_eq. intros i. rewrite !list_lookup_fmap, list_lookup_alter.
  destruct (decide (q = i)) as [Heq|]; [|reflexivity].
  subst q. destruct (h !! i); simpl; [|reflexivity]. now rewrite Hf.
Qed.

Lemma lookup_alter_type' f q (h : list UEdGraphPin) d dpin :
  (forall x, PinType (f x) = PinType x) ->
  h !! d = Some dpin ->
  exists dpin', alter f q h !! d = Some dpin' /\ PinType dpin' = PinType dpin.
Proof.
  intros Hf Hd. rewrite list_lookup_alter.
  destruct (decide (q = d)) as [Heq|].
  - subst q. rewrite Hd. simpl. eexists. split; [reflexivity|apply Hf].
  - now exists dpin.
Qed.

Lemma PinConnectionListChanged_fixed Schema s d dpin P :
  find_pin (Heap s) DefaultOptionPinName (Pins s) = Some (Some d) ->
  Heap s !! d = Some dpin ->
  PinCategory (PinType dpin) <> PC_Wildcard ->
  (forall p, P = Some p -> (p < length (Heap s))%nat) ->
  PinConnectionListChanged Schema P s = Some (tt, s).
Proof.
  intros Hd Hdpin Hfixed HP. unfold PinConnectionListChanged.
  destruct P as [p|]; [|reflexivity].
  destruct (lookup_lt_is_Some_2 (Heap s) p (HP p eq_refl)) as [pin Hp].
  rewrite (bind_eq _ _ _ _ _ (read_pin_eq _ _ _ Hp)).
  destruct (length (LinkedTo pin) =? 0)%nat; [reflexivity|].
  unfold IsCaseValuePin. mnorm.
  rewrite (bind_eq _ _ _ _ _ (read_pin_eq _ _ _ Hp)). mnorm.
  destruct (IsCaseValuePinName (PinName pin)); [reflexivity|].
  unfold GetDefaultOptionPin, FindPin. unfold bind at 1. rewrite Hd.
  rewrite (bind_eq _ _ _ _ _ (read_pin_eq _ _ _ Hdpin)).
  apply String.eqb_neq in Hfixed. now rewrite Hfixed.
Qed.

Lemma FindPin_find_pin s Name P s' :
  FindPin Name s = Some (P, s') -> find_pin (Heap s) Name (Pins s) = Some P /\ s' = s.
Proof.
  unfold FindPin. destruct (find_pin _ _ _); [|discriminate].
  intros H. inversion H; subst. now split.
Qed.

Lemma ConnectPin_fixed Schema s d dpin Pin ToPin :
  find_pin (Heap s) DefaultOptionPinName (Pins s) = Some (Some d) ->
  Heap s !! d = Some dpin ->
  PinCategory (PinType dpin) <> PC_Wildcard ->
  (Pin < length (Heap s))%nat -> (ToPin < length (Heap s))%nat ->
  exists s' dpin',
    ConnectPin Schema Pin ToPin s = Some (tt, s') /\
    Pins s' = Pins s /\
    map PinType (Heap s') = map PinType (Heap s) /\
    map PinName (Heap s') = map PinName (Heap s) /\
    find_pin (Heap s') DefaultOptionPinName (Pins s') = Some (Some d) /\
    Heap s' !! d = Some dpin' /\ PinType dpin' = PinType dpin.
Proof.
  intros Hd Hdpin Hfixed HPin HTo. unfold ConnectPin.
  destruct (lookup_lt_is_Some_2 _ _ HPin) as [x Hx].
  rewrite (bind_eq _ _ _ _ _ (write_pin_eq _ _ _ _ Hx)).
  set (f1 := fun x => with_LinkedTo (LinkedTo x ++ [ToPin]) x).
  set (f2 := fun x => with_LinkedTo (LinkedTo x ++ [Pin]) x).
  set (s1 := with_Heap (alter f1 Pin (Heap s)) s).
  assert (HTo1 : (ToPin < length (Heap s1))%nat) by (simpl; now rewrite length_alter).
  destruct (lookup_lt_is_Some_2 _ _ HTo1) as [y Hy].
  rewrite (bind_eq _ _ _ _ _ (write_pin_eq _ _ _ _ Hy)). fold f2.
  set (s2 := with_Heap (alter f2 ToPin (Heap s1)) s1).
  assert (Hd2 : find_pin (Heap s2) DefaultOptionPinName (Pins s2) = Some (Some d)).
  { simpl. now rewrite !find_pin_alter by reflexivity. }
  assert (Hdpin2 : exists dpin', Heap s2 !! d = Some dpin' /\ PinType dpin' = PinType dpin).
  { simpl.
    destruct (lookup_alter_type' f1 Pin (Heap s) d dpin) as (d1 & Hd1 & Ht1);
      [reflexivity|assumption|].
    destruct (lookup_alter_type' f2 ToPin (alter f1 Pin (Heap s)) d d1) as (d2 & Hd2' & Ht2);
      [reflexivity|assumption|].
    exists d2. split; [assumption|congruence]. }
  destruct Hdpin2 as (dpin' & Hdpin' & Ht).
  exists s2, dpin'. split.
  { apply PinConnectionListChanged_fixed with (d := d) (dpin := dpin'); try assumption.
    - now rewrite Ht.
    - intros p [= <-]. simpl. now rewrite !length_alter. }
  split; [reflexivity|].
  split; [simpl; now rewrite !map_alter_same by reflexivity|].
  split; [simpl; now rewrite !map_alter_same by reflexivity|].
  auto.
Qed.

(** C6. Once the default pin has a resolved type, the pass does nothing: a
    notification about any pin leaves the whole state as it is, and after any
    sequence of connections made to pins of the arena, whatever the types of
    the pins connected, every pin still has the type and the name it had, so
    the fixed type is never changed back or replaced. *)
Theorem type_unification_idempotent Schema s d dpin :
  GetDefaultOptionPin s = Some (Some d, s) ->
  Heap s !! d = Some dpin ->
  PinCategory (PinType dpin) <> PC_Wildcard ->
  (forall P, (forall p, P = Some p -> (p < length (Heap s))%nat) ->
     PinConnectionListChanged Schema P s = Some (tt, s)) /\
  (forall evs : list (PinPtr * PinPtr),
     Forall (fun e => (fst e < length (Heap s))%nat /\ (snd e < length (Heap s))%nat) evs ->
     exists s',
       for_each evs (fun e => ConnectPin Schema (fst e) (snd e)) s = Some (tt, s') /\
       Pins s' = Pins s /\
       map PinType (Heap s') = map PinType (Heap s) /\
       map PinName (Heap s') = map PinName (Heap s)).
Proof.
  intros Hd Hdpin Hfixed.
  apply FindPin_find_pin in Hd as [Hd _].
  split.
  - intros P HP. now apply PinConnectionListChanged_fixed with (d := d) (dpin := dpin).
  - intros evs. revert s dpin Hd Hdpin Hfixed.
    induction evs as [|[Pin ToPin] evs IH]; intros s dpin Hd Hdpin Hfixed Hevs.
    + exists s. now repeat split.
    + inversion Hevs as [|? ? [HPin HTo] Hrest]; subst. simpl in HPin, HTo.
      destruct (ConnectPin_fixed Schema s d dpin Pin ToPin Hd Hdpin Hfixed HPin HTo)
        as (s1 & dpin1 & Hrun & HP1 & HT1 & HN1 & Hd1 & Hdpin1 & Ht1).
      assert (Hlen : length (Heap s1) = length (Heap s)).
      { rewrite <- (length_map PinType (Heap s1)), HT1. apply length_map. }
      destruct (IH s1 dpin1 Hd1 Hdpin1) as (s' & Hrun' & HP' & HT' & HN').
      { now rewrite Ht1. }
      { rewrite Hlen. exact Hrest. }
      exists s'. cbn [for_each fst snd].
      rewrite (bind_eq _ _ _ _ _ Hrun). split; [exact Hrun'|].
      repeat split; congruence.
Qed.

(** ** Connection validation *)

(** C7. A connection to an execution pin is reported as disallowed with a
    reason that is not empty; for every other pin, and for no pin at all, the
    check returns exactly what the inherited check returns.  So the
    connection is disallowed if and only if the other pin is an execution pin
    or the inherited check disallows it. *)
Theorem exec_connection_disallowed
    (Super : option UEdGraphPin -> option UEdGraphPin -> string -> bool * string)
    (MyPin OtherPin : option UEdGraphPin) (OutReason : string) :
  IsConnectionDisallowed Super MyPin OtherPin OutReason =
    (if IsExecPin OtherPin then (true, ExecConnectionDisallowd)
     else Super MyPin OtherPin OutReason) /\
  fst (IsConnectionDisallowed Super MyPin OtherPin OutReason) =
    IsExecPin OtherPin || fst (Super MyPin OtherPin OutReason) /\
  ExecConnectionDisallowd <> "".
Proof.
  unfold IsConnectionDisallowed, IsExecPin.
  destruct OtherPin as [Other|]; [destruct (String.eqb _ _)|]; simpl;
    repeat split; discriminate.
Qed.

(** ** Reconstruction *)

Lemma Forall_place {A} (P : A -> Prop) l x i :
  P x -> Forall P l -> Forall P (place l x i).
Proof.
  intros Hx Hl. unfold place, Insert. destruct (IsValidIndex l i).
  - apply Forall_app. split; [now apply Forall_take|].
    apply Forall_cons. split; [assumption|now apply Forall_drop].
  - apply Forall_app. split; [assumption|]. now apply Forall_cons.
Qed.




(** A loop whose body rewrites the option pin of each pair by [f], reading
    the type [T] it writes from the pin [L] every time round. *)
Lemma alter_loop (body : CasePinPair -> M unit) f L T :
  (forall x, PinType (f x) = T) ->
  (forall s Pair lpin qpin,
     Heap s !! L = Some lpin -> PinType lpin = T -> Heap s !! fst Pair = Some qpin ->
     body Pair s = Some (tt, with_Heap (alter f (fst Pair) (Heap s)) s)) ->
  forall pairs s lpin,
    Heap s !! L = Some lpin -> PinType lpin = T ->
    (forall q, q ∈ map fst pairs -> (q < length (Heap s))%nat) ->
    for_each pairs body s =
    Some (tt, with_Heap (alter_all f (map fst pairs) (Heap s)) s).
Proof.
  intros HfT Hbody.
  induction pairs as [|Pair pairs IH]; intros s lpin HL HT Hv.
  - destruct s; reflexivity.
  - cbn [for_each].
    assert (Hq : exists qpin, Heap s !! fst Pair = Some qpin).
    { apply lookup_lt_is_Some_2. apply Hv. simpl. apply elem_of_cons. now left. }
    destruct Hq as [qpin Hq].
    rewrite (bind_eq _ _ _ _ _ (Hbody s Pair lpin qpin HL HT Hq)).
    destruct (lookup_alter_type f (fst Pair) (Heap s) L lpin T HfT HL HT)
      as (lpin' & HL' & HT').
    rewrite (IH (with_Heap (alter f (fst Pair) (Heap s)) s) lpin' HL' HT').
    + reflexivity.
    + intros q' Hq'. simpl. rewrite length_alter. apply Hv. simpl.
      apply elem_of_cons. now right.
Qed.

Lemma settype_at_eq {A} s L lpin q qpin (k : unit -> M A) :
  Heap s !! L = Some lpin -> Heap s !! q = Some qpin ->
  (o <- read_pin (Some L) ;;
   x <- write_pin (Some q) (with_PinType (PinType o)) ;;
   k x) s =
  k tt (with_Heap (alter (with_PinType (PinType lpin)) q (Heap s)) s).
Proof.
  intros HL Hq.
  rewrite (bind_eq _ _ _ _ _ (read_pin_eq _ _ _ HL)).
  now rewrite (bind_eq _ _ _ _ _ (write_pin_eq _ _ _ _ Hq)).
Qed.

Lemma settype_body_eq s L lpin q qpin :
  Heap s !! L = Some lpin -> Heap s !! q = Some qpin ->
  (o <- read_pin (Some L) ;; write_pin (Some q) (with_PinType (PinType o))) s =
  Some (tt, with_Heap (alter (with_PinType (PinType lpin)) q (Heap s)) s).
Proof.
  intros HL Hq.
  rewrite (bind_eq _ _ _ _ _ (read_pin_eq _ _ _ HL)).
  now rewrite (write_pin_eq _ _ _ _ Hq).
Qed.


Lemma key_not_value Name :
  IsCaseKeyPinName Name = true -> IsCaseValuePinName Name = false.
Proof.
  unfold IsCaseKeyPinName, IsCaseValuePinName, CaseKeyPinNamePrefix, CaseValuePinNamePrefix.
  destruct Name as [|a1 [|a2 [|a3 [|a4 [|a5 Name]]]]];
    cbn [String.prefix]; intros H; try reflexivity.
  - destruct (Ascii.ascii_dec "C"%char a1); [reflexivity|reflexivity].
  - destruct (Ascii.ascii_dec "C"%char a1); [|reflexivity].
    destruct (Ascii.ascii_dec "a"%char a2); reflexivity.
  - destruct (Ascii.ascii_dec "C"%char a1); [|reflexivity].
    destruct (Ascii.ascii_dec "a"%char a2); [|reflexivity].
    destruct (Ascii.ascii_dec "s"%char a3); reflexivity.
  - destruct (Ascii.ascii_dec "C"%char a1); [|reflexivity].
    destruct (Ascii.ascii_dec "a"%char a2); [|reflexivity].
    destruct (Ascii.ascii_dec "s"%char a3); [|reflexivity].
    destruct (Ascii.ascii_dec "e"%char a4); reflexivity.
  - destruct (Ascii.ascii_dec "C"%char a1); [|reflexivity].
    destruct (Ascii.ascii_dec "a"%char a2); [|reflexivity].
    destruct (Ascii.ascii_dec "s"%char a3); [|reflexivity].
    destruct (Ascii.ascii_dec "e"%char a4); [|reflexivity].
    destruct (Ascii.ascii_dec "O"%char a5) as [<-|]; [|discriminate].
    reflexivity.
Qed.

Lemma key_pins_spec objs q :
  q ∈ key_pins objs ->
  exists qpin, (q, qpin) ∈ objs /\ IsCaseKeyPinName (PinName qpin) = true.
Proof.
  unfold key_pins. intros Hq.
  apply list_elem_of_fmap in Hq as ([q' qpin] & Hk & Hin). simpl in Hk. subst q'.
  apply list_elem_of_In, List.filter_In in Hin as [Hin Hn].
  exists qpin. split; [now apply list_elem_of_In|assumption].
Qed.

Lemma value_pins_spec objs q :
  q ∈ value_pins objs ->
  exists qpin, (q, qpin) ∈ objs /\ IsCaseValuePinName (PinName qpin) = true.
Proof.
  unfold value_pins. intros Hq.
  apply list_elem_of_fmap in Hq as ([q' qpin] & Hk & Hin). simpl in Hk. subst q'.
  apply list_elem_of_In, List.filter_In in Hin as [Hin Hn].
  exists qpin. split; [now apply list_elem_of_In|assumption].
Qed.


Lemma filter_value_option_names N :
  List.filter IsCaseValuePinName (option_names N) = [].
Proof.
  unfold option_names. induction (seqZ 0 (Z.of_nat N)) as [|i l IH]; [reflexivity|].
  cbn [map List.filter]. now rewrite IsCaseValuePinName_option.
Qed.

Lemma filter_value_condition_names N :
  List.filter IsCaseValuePinName (condition_names N) = condition_names N.
Proof.
  unfold condition_names. induction (seqZ 0 (Z.of_nat N)) as [|i l IH]; [reflexivity|].
  cbn [map List.filter]. rewrite IsCaseValuePinName_condition. now rewrite IH.
Qed.


Lemma map_fst_combine {A B} (l1 : list A) (l2 : list B) :
  length l1 = length l2 -> map fst (combine l1 l2) = l1.
Proof.
  revert l2. induction l1 as [|a l1 IH]; intros [|b l2] H; try discriminate; simpl.
  - reflexivity.
  - f_equal. apply IH. now inversion H.
Qed.

Lemma map_snd_combine {A B} (l1 : list A) (l2 : list B) :
  length l1 = length l2 -> map snd (combine l1 l2) = l2.
Proof.
  revert l2. induction l1 as [|a l1 IH]; intros [|b l2] H; try discriminate; simpl.
  - reflexivity.
  - f_equal. apply IH. now inversion H.
Qed.







(** ** Loops of the expansion *)

Lemma for_each_app {A} (l1 l2 : list A) (body : A -> M unit) s :
  for_each (l1 ++ l2) body s = (for_each l1 body ;; for_each l2 body) s.
Proof.
  revert s. induction l1 as [|x l1 IH]; intros s; simpl.
  - reflexivity.
  - rewrite bind_assoc.
    destruct (body x s) as [[[] s1]|] eqn:E.
    + rewrite !(bind_eq _ _ _ _ _ E). apply IH.
    + unfold bind. now rewrite E.
Qed.

Lemma with_Intermediate_id s : with_Intermediate (Intermediate s) s = s.
Proof. now destruct s. Qed.

Lemma with_Heap_id s : with_Heap (Heap s) s = s.
Proof. now destruct s. Qed.

Lemma read_node_eq s j n : Intermediate s !! j = Some n -> read_node j s = Some (n, s).
Proof. intros H. unfold read_node. now rewrite H. Qed.

Lemma write_node_eq s j n n' :
  Intermediate s !! j = Some n ->
  write_node j n' s = Some (tt, with_Intermediate (<[j := n']> (Intermediate s)) s).
Proof. intros H. unfold write_node. now rewrite H. Qed.

Lemma read_ipin_eq s j sel n p :
  Intermediate s !! j = Some n -> ipin_of n sel = Some p ->
  read_ipin (j, sel) s = Some (p, s).
Proof. intros H1 H2. unfold read_ipin. simpl. now rewrite H1, H2. Qed.

Lemma write_ipin_eq s j sel n p f :
  Intermediate s !! j = Some n -> ipin_of n sel = Some p ->
  write_ipin (j, sel) f s =
  Some (tt, with_Intermediate (<[j := set_ipin n sel (f p)]> (Intermediate s)) s).
Proof. intros H1 H2. unfold write_ipin. simpl. now rewrite H1, H2. Qed.

Lemma Select_AddInputPin_loop {A} (xs : list A) j :
  forall s IndexPin OptionPins ReturnValuePin,
    Intermediate s !! j = Some (K2Node_Select IndexPin OptionPins ReturnValuePin) ->
    for_each xs (fun _ => Select_AddInputPin j) s =
    Some (tt, with_Intermediate
                (<[j := K2Node_Select IndexPin
                          (OptionPins ++ replicate (length xs) (added_option ReturnValuePin))
                          ReturnValuePin]> (Intermediate s)) s).
Proof.
  induction xs as [|x xs IH]; intros s idx opts ret Hj.
  - simpl. rewrite app_nil_r, list_insert_id by exact Hj.
    now rewrite with_Intermediate_id.
  - cbn [for_each]. unfold Select_AddInputPin at 1. mnorm.
    rewrite (bind_eq _ _ _ _ _ (read_node_eq _ _ _ Hj)).
    rewrite (bind_eq _ _ _ _ _ (write_node_eq _ _ _ _ Hj)).
    erewrite IH.
    2:{ simpl. apply list_lookup_insert_eq. eapply lookup_lt_Some; eauto. }
    simpl. rewrite list_insert_insert_eq.
    unfold with_Intermediate. simpl. do 4 f_equal.
    now rewrite <- app_assoc.
Qed.

Lemma MakeArray_AddInputPin_loop {A} (xs : list A) j :
  forall s InputPins OutputPin,
    Intermediate s !! j = Some (K2Node_MakeArray InputPins OutputPin) ->
    for_each xs (fun _ => MakeArray_AddInputPin j) s =
    Some (tt, with_Intermediate
                (<[j := K2Node_MakeArray
                          (InputPins ++ replicate (length xs) (new_IPin PC_Wildcard))
                          OutputPin]> (Intermediate s)) s).
Proof.
  induction xs as [|x xs IH]; intros s ins out Hj.
  - simpl. rewrite app_nil_r, list_insert_id by exact Hj.
    now rewrite with_Intermediate_id.
  - cbn [for_each]. unfold MakeArray_AddInputPin at 1. mnorm.
    rewrite (bind_eq _ _ _ _ _ (read_node_eq _ _ _ Hj)).
    rewrite (bind_eq _ _ _ _ _ (write_node_eq _ _ _ _ Hj)).
    erewrite IH.
    2:{ simpl. apply list_lookup_insert_eq. eapply lookup_lt_Some; eauto. }
    simpl. rewrite list_insert_insert_eq.
    unfold with_Intermediate. simpl. do 4 f_equal.
    now rewrite <- app_assoc.
Qed.

Lemma move_into_nil upd l : move_into upd [] l = l.
Proof. now destruct l. Qed.

Lemma move_into_lookup_ge upd pins l n :
  (length pins <= n)%nat -> move_into upd pins l !! n = l !! n.
Proof.
  revert l n. induction pins as [|pin pins IH]; intros l n H.
  - now rewrite move_into_nil.
  - destruct l as [|ip l]; [reflexivity|]. simpl in H.
    destruct n as [|n]; [lia|]. simpl. apply IH. lia.
Qed.

Lemma move_into_snoc upd pins pin l n ip :
  length pins = n -> l !! n = Some ip ->
  <[n := upd pin ip]> (move_into upd pins l) = move_into upd (pins ++ [pin]) l.
Proof.
  revert l n. induction pins as [|p pins IH]; intros l n Hlen Hl.
  - simpl in Hlen. subst n. destruct l as [|ip' l]; [discriminate|].
    simpl in Hl. inversion Hl; subst. reflexivity.
  - destruct l as [|ip' l]; [now destruct n|].
    simpl in Hlen. subst n. simpl in Hl. simpl. f_equal. now apply IH.
Qed.

Lemma alter_all_snoc f qs q h :
  alter_all f (qs ++ [q]) h = alter f q (alter_all f qs h).
Proof. unfold alter_all. now rewrite fold_left_app. Qed.

Lemma take_snoc {A} (l : list A) n x :
  l !! n = Some x -> take (S n) l = take n l ++ [x].
Proof. intros H. now apply take_S_r. Qed.

Section MoveLoop.
Variable j : nat.
Variable pairs : list CasePinPair.
Variable proj : CasePinPair -> PinPtr.
Variable mk_node : list IPin -> K2Node.
Variable upd : UEdGraphPin -> IPin -> IPin.
Variable body : Z -> M unit.

Hypothesis Hbody : forall n s0 Pair pin l ip,
  pairs !! n = Some Pair ->
  Heap s0 !! proj Pair = Some pin ->
  Intermediate s0 !! j = Some (mk_node l) ->
  l !! n = Some ip ->
  body (Z.of_nat n) s0 =
  Some (tt, with_Heap (alter clear_links (proj Pair) (Heap s0))
              (with_Intermediate (<[j := mk_node (<[n := upd pin ip]> l)]>
                                    (Intermediate s0)) s0)).

Lemma move_loop s pins l0 :
  Forall2 (fun p pin => Heap s !! p = Some pin) (map proj pairs) pins ->
  NoDup (map proj pairs) ->
  Intermediate s !! j = Some (mk_node l0) ->
  (length pairs <= length l0)%nat ->
  forall n, (n <= length pairs)%nat ->
    for_each (seqZ 0 (Z.of_nat n)) body s =
    Some (tt, with_Heap (alter_all clear_links (take n (map proj pairs)) (Heap s))
                (with_Intermediate
                   (<[j := mk_node (move_into upd (take n pins) l0)]> (Intermediate s))
                   s)).
Proof.
  intros Hpins Hnd Hj Hlen n. induction n as [|n IH]; intros Hn.
  - simpl. rewrite list_insert_id by exact Hj.
    now rewrite with_Intermediate_id, with_Heap_id.
  - replace (Z.of_nat (S n)) with (Z.of_nat n + 1)%Z by lia.
    rewrite seqZ_app by lia. rewrite for_each_app.
    rewrite (bind_eq _ _ _ _ _ (IH ltac:(lia))).
    change (seqZ (0 + Z.of_nat n) 1) with [(0 + Z.of_nat n)%Z]. rewrite Z.add_0_l.
    cbn [for_each].
    assert (HP : exists Pair, pairs !! n = Some Pair)
      by (apply lookup_lt_is_Some_2; lia).
    destruct HP as [Pair HP].
    assert (Hsrc : map proj pairs !! n = Some (proj Pair))
      by (rewrite list_lookup_fmap, HP; reflexivity).
    destruct (Forall2_lookup_l _ _ _ _ _ Hpins Hsrc) as (pin & Hpin & Hheap).
    assert (Hip : exists ip, l0 !! n = Some ip)
      by (apply lookup_lt_is_Some_2; lia).
    destruct Hip as [ip Hip].
    erewrite (bind_eq (body _)).
    2:{ apply Hbody with (Pair := Pair) (pin := pin)
                         (l := move_into upd (take n pins) l0) (ip := ip).
        - exact HP.
        - simpl. rewrite lookup_alter_all by reflexivity.
          rewrite bool_decide_eq_false_2, Hheap; [reflexivity|].
          intros Hin. apply list_elem_of_lookup in Hin as [i Hi].
          apply lookup_take_Some in Hi as [Hi Hlt].
          pose proof (NoDup_lookup _ _ _ _ Hnd Hi Hsrc). lia.
        - simpl. apply list_lookup_insert_eq. eapply lookup_lt_Some; eauto.
        - rewrite move_into_lookup_ge; [exact Hip|].
          rewrite length_take. lia. }
    unfold ret. simpl. rewrite list_insert_insert_eq.
    rewrite (take_snoc _ _ _ Hsrc), alter_all_snoc.
    rewrite (take_snoc _ _ _ Hpin).
    rewrite (move_into_snoc upd (take n pins) pin l0 n ip); [reflexivity| |exact Hip].
    rewrite length_take. apply Forall2_length in Hpins. rewrite length_map in Hpins. lia.
Qed.
End MoveLoop.

(** ** The expanded graph *)

Lemma valid_pins (h : list UEdGraphPin) ps :
  (forall p, p ∈ ps -> (p < length h)%nat) ->
  exists pins, Forall2 (fun p pin => h !! p = Some pin) ps pins.
Proof.
  induction ps as [|p ps IH]; intros H.
  - exists []. constructor.
  - destruct IH as [pins Hpins].
    { intros q Hq. apply H. apply elem_of_cons. now right. }
    destruct (lookup_lt_is_Some_2 h p) as [pin Hpin].
    { apply H. apply elem_of_cons. now left. }
    exists (pin :: pins). now constructor.
Qed.

Lemma write_pins_loop f ps :
  forall s, (forall p, p ∈ ps -> (p < length (Heap s))%nat) ->
    for_each ps (fun Pin => write_pin (Some Pin) f) s =
    Some (tt, with_Heap (alter_all f ps (Heap s)) s).
Proof.
  induction ps as [|p ps IH]; intros s Hv.
  - simpl. now rewrite with_Heap_id.
  - cbn [for_each].
    destruct (lookup_lt_is_Some_2 (Heap s) p) as [pin Hpin].
    { apply Hv. apply elem_of_cons. now left. }
    rewrite (bind_eq _ _ _ _ _ (write_pin_eq _ _ _ _ Hpin)).
    rewrite IH.
    + reflexivity.
    + intros q Hq. simpl. rewrite length_alter. apply Hv. apply elem_of_cons. now right.
Qed.

(** The body of the loop that links the option pins to the first Select. *)
Lemma option_move_body j (pairs : list CasePinPair) IndexPin ReturnValuePin
    (OptionPins0 : list IPin) :
  (length pairs <= length OptionPins0)%nat ->
  forall n s0 Pair pin l ip,
    pairs !! n = Some Pair ->
    Heap s0 !! fst Pair = Some pin ->
    Intermediate s0 !! j = Some (K2Node_Select IndexPin l ReturnValuePin) ->
    l !! n = Some ip ->
    (Pair' <- lift_option (pairs !! Z.to_nat (Z.of_nat n)) ;;
     Option <- lift_option
       (map (fun i => (j, SelOption i)) (seq 0 (length OptionPins0)) !! Z.to_nat (Z.of_nat n)) ;;
     MovePinLinksToIntermediate (Some (fst Pair')) Option) s0 =
    Some (tt, with_Heap (alter clear_links (fst Pair) (Heap s0))
                (with_Intermediate
                   (<[j := K2Node_Select IndexPin (<[n := moved pin ip]> l) ReturnValuePin]>
                      (Intermediate s0)) s0)).
Proof.
  intros Hlen n s0 Pair pin l ip HP Hpin Hj Hip.
  rewrite Nat2Z.id, HP. cbn [lift_option]. mnorm.
  rewrite list_lookup_fmap, lookup_seq_lt by (apply lookup_lt_Some in HP; lia).
  cbn [fmap option_fmap option_map lift_option Nat.add]. mnorm.
  unfold MovePinLinksToIntermediate. mnorm.
  rewrite (bind_eq _ _ _ _ _ (read_pin_eq _ _ _ Hpin)).
  erewrite (bind_eq (write_ipin _ _)).
  2:{ eapply write_ipin_eq; [exact Hj|]. simpl. exact Hip. }
  erewrite write_pin_eq by (simpl; exact Hpin).
  reflexivity.
Qed.

(** The body of the loop that links the condition pins to the Make Array
    node. *)
Lemma condition_move_body j (pairs : list CasePinPair) OutputPin
    (InputPins0 : list IPin) :
  (length pairs <= length InputPins0)%nat ->
  forall n s0 Pair pin l ip,
    pairs !! n = Some Pair ->
    Heap s0 !! snd Pair = Some pin ->
    Intermediate s0 !! j = Some (K2Node_MakeArray l OutputPin) ->
    l !! n = Some ip ->
    (KeyPin <- lift_option
       (map (fun i => (j, SelInput i)) (seq 0 (length InputPins0)) !! Z.to_nat (Z.of_nat n)) ;;
     write_ipin KeyPin (with_IPinCategory PC_Boolean) ;;
     Pair' <- lift_option (pairs !! Z.to_nat (Z.of_nat n)) ;;
     MovePinLinksToIntermediate (Some (snd Pair')) KeyPin) s0 =
    Some (tt, with_Heap (alter clear_links (snd Pair) (Heap s0))
                (with_Intermediate
                   (<[j := K2Node_MakeArray
                             (<[n := moved pin (with_IPinCategory PC_Boolean ip)]> l)
                             OutputPin]>
                      (Intermediate s0)) s0)).
Proof.
  intros Hlen n s0 Pair pin l ip HP Hpin Hj Hip.
  rewrite Nat2Z.id.
  rewrite list_lookup_fmap, lookup_seq_lt by (apply lookup_lt_Some in HP; lia).
  cbn [fmap option_fmap option_map lift_option Nat.add]. mnorm.
  erewrite (bind_eq (write_ipin _ _)).
  2:{ eapply write_ipin_eq; [exact Hj|]. simpl. exact Hip. }
  rewrite HP. cbn [lift_option]. mnorm.
  unfold MovePinLinksToIntermediate. mnorm.
  erewrite (bind_eq (read_pin _)) by (apply read_pin_eq; simpl; exact Hpin).
  erewrite (bind_eq (write_ipin _ _)).
  2:{ eapply write_ipin_eq.
      - simpl. apply list_lookup_insert_eq. eapply lookup_lt_Some; eauto.
      - simpl. apply list_lookup_insert_eq. eapply lookup_lt_Some; eauto. }
  erewrite write_pin_eq by (simpl; exact Hpin).
  simpl. rewrite !list_insert_insert_eq. reflexivity.
Qed.

Ltac mrun tac :=
  match goal with
  | |- bind ?m ?k ?s = _ =>
      let H := fresh in
      eassert (H : m s = Some (_, _)) by tac;
      rewrite (bind_eq m k s _ _ H); clear H
  end; mnorm.

Lemma lookup_alter_all_notin f qs (h : list UEdGraphPin) p :
  (forall x, f (f x) = f x) -> p ∉ qs -> alter_all f qs h !! p = h !! p.
Proof.
  intros Hf Hp. rewrite lookup_alter_all by exact Hf.
  rewrite bool_decide_eq_false_2 by exact Hp. now destruct (h !! p).
Qed.

Lemma Forall2_heap_frame f qs (h : list UEdGraphPin) ps pins :
  (forall x, f (f x) = f x) ->
  (forall p, p ∈ ps -> p ∉ qs) ->
  Forall2 (fun p pin => h !! p = Some pin) ps pins ->
  Forall2 (fun p pin => alter_all f qs h !! p = Some pin) ps pins.
Proof.
  intros Hf Hdisj H. induction H as [|p pin ps pins Hp H IH]; constructor.
  - rewrite lookup_alter_all_notin; [exact Hp|exact Hf|].
    apply Hdisj. apply elem_of_cons. now left.
  - apply IH. intros q Hq. apply Hdisj. apply elem_of_cons. now right.
Qed.

Ltac snorm :=
  unfold with_Intermediate, with_Heap, with_Pins, with_Modified;
  cbn [Heap Pins Intermediate Modified length app insert list_insert map
       K2Node_MakeArray_default].

Ltac inorm :=
  snorm;
  cbn [set_ipin set_param ipin_of fst snd map List.find String.eqb Ascii.eqb Bool.eqb
       fmap option_fmap option_map lift_option lookup list_lookup seq length
       ILinkedTo IPinType IDefaultValue PinCategory PinSubCategory
       with_ILinkedTo with_IPinType with_IPinCategory with_IDefaultValue new_IPin
       typed_pin app insert list_insert].

Ltac istep :=
  first [ mrun ltac:(eapply read_ipin_eq; reflexivity)
        | mrun ltac:(eapply write_ipin_eq; reflexivity)
        | mrun ltac:(eapply read_node_eq; reflexivity) ];
  cbv beta iota; mnorm; inorm.

Lemma ExpandNode_eq h ps m objs d r dpin rpin Pair0 rest kpins vpins kpin0 :
  let s := {| Heap := h; Pins := ps; Intermediate := []; Modified := m |} in
  let pairs := combine (key_pins objs) (value_pins objs) in
  deref_all h ps = Some objs ->
  pairs = Pair0 :: rest ->
  NoDup (map fst pairs) ->
  NoDup (map snd pairs) ->
  (forall p, p ∈ map snd pairs -> p ∉ map fst pairs) ->
  d ∉ map fst pairs -> d ∉ map snd pairs ->
  r ∉ map fst pairs -> r ∉ map snd pairs -> r <> d ->
  h !! fst Pair0 = Some kpin0 ->
  Forall2 (fun p pin => h !! p = Some pin) (map fst pairs) kpins ->
  Forall2 (fun p pin => h !! p = Some pin) (map snd pairs) vpins ->
  find_named DefaultOptionPinName objs = Some d ->
  h !! d = Some dpin ->
  find_named ReturnValueOptionPinName objs = Some r ->
  h !! r = Some rpin ->
  ExpandNode s =
  Some (tt, {| Heap := alter_all clear_links ps
                         (alter clear_links r
                            (alter clear_links d
                               (alter_all clear_links (map snd pairs)
                                  (alter_all clear_links (map fst pairs) h))));
               Pins := ps;
               Intermediate := expanded (PinType kpin0) kpins vpins dpin rpin;
               Modified := m |}).
Proof.
  intros s pairs Hobjs Hpairs Hndk Hndv Hkv Hdk Hdv Hrk Hrv Hrd Hk0 Hkpins Hvpins Hd Hdpin Hr Hrpin.
  unfold ExpandNode, Super_ExpandNode. mnorm.
  rewrite (bind_eq _ _ _ _ _ (GetCasePinPairs_eq s objs Hobjs)). fold pairs.
  rewrite Hpairs at 1. cbn [lookup list_lookup lift_option]. mnorm.
  rewrite (bind_eq _ _ _ _ _ (GetCasePinPairs_eq s objs Hobjs)). fold pairs.
  set (N := length pairs).
  subst s.
  (* Select1st *)
  mrun ltac:(reflexivity). snorm.
  unfold Select_ChangePinType at 1. mnorm.
  mrun ltac:(apply read_pin_eq; exact Hk0).
  mrun ltac:(apply read_node_eq; reflexivity).
  cbn [K2Node_Select_default].
  mrun ltac:(eapply write_node_eq; reflexivity). snorm.
  unfold for_range at 1.
  mrun ltac:(eapply Select_AddInputPin_loop; reflexivity). snorm.
  (* Select2nd *)
  mrun ltac:(reflexivity). snorm.
  unfold Select_ChangePinType at 1. mnorm.
  mrun ltac:(apply read_pin_eq; exact Hk0).
  mrun ltac:(apply read_node_eq; reflexivity).
  cbn [K2Node_Select_default].
  mrun ltac:(eapply write_node_eq; reflexivity). snorm.
  unfold for_range at 1.
  mrun ltac:(eapply Select_AddInputPin_loop; reflexivity). snorm.
  (* MakeArray *)
  mrun ltac:(reflexivity). snorm.
  unfold for_range at 1.
  mrun ltac:(eapply MakeArray_AddInputPin_loop; reflexivity). snorm.
  (* ArrayFind, IntEqual *)
  mrun ltac:(reflexivity).
  mrun ltac:(reflexivity). snorm.
  mrun ltac:(reflexivity).
  mrun ltac:(reflexivity). snorm.
  rewrite !length_seqZ.
  change (added_option (with_IPinType (PinType kpin0) (new_IPin PC_Wildcard)))
    with (typed_pin (PinType kpin0)).
  change (with_IPinType (PinType kpin0) (new_IPin PC_Wildcard))
    with (typed_pin (PinType kpin0)).
  set (T := PinType kpin0).
  replace (Z.to_nat (Z.of_nat N - 2)) with (N - 2)%nat by lia.
  replace (Z.to_nat (Z.of_nat N - 1)) with (N - 1)%nat by lia.
  assert (HN : (1 <= N)%nat) by (unfold N; rewrite Hpairs; simpl; lia).
  (* Link between outer and 1st Select *)
  unfold Select_GetOptionPins at 1. mnorm.
  mrun ltac:(apply read_node_eq; reflexivity).
  cbv beta iota. mnorm.
  unfold for_range at 1. rewrite Z.sub_0_r.
  mrun ltac:(eapply (move_loop 0 pairs fst
               (fun l => K2Node_Select (new_IPin PC_Wildcard) l (typed_pin T)) moved)
             with (pins := kpins) (n := N);
             [ apply option_move_body; simpl; rewrite length_replicate; fold N; lia
             | exact Hkpins | exact Hndk | reflexivity
             | simpl; rewrite length_replicate; fold N; lia | fold N; lia ]).
  snorm.
  assert (Hlk : length kpins = N)
    by (apply Forall2_length in Hkpins; rewrite length_map in Hkpins; now symmetry).
  assert (Hlv : length vpins = N)
    by (apply Forall2_length in Hvpins; rewrite length_map in Hvpins; now symmetry).
  rewrite (take_ge (map fst pairs)) by (rewrite length_map; fold N; lia).
  rewrite (take_ge kpins) by lia.
  set (h1 := alter_all clear_links (map fst pairs) h).
  (* Link between outer and Make Array *)
  unfold MakeArray_GetKeyAndValuePins at 1. mnorm.
  mrun ltac:(apply read_node_eq; reflexivity).
  cbv beta iota. mnorm. cbn [fst].
  unfold for_range at 1. rewrite Z.sub_0_r.
  assert (Hvpins1 : Forall2 (fun p pin => h1 !! p = Some pin) (map snd pairs) vpins).
  { apply Forall2_heap_frame; [reflexivity|exact Hkv|exact Hvpins]. }
  mrun ltac:(eapply (move_loop 2 pairs snd
               (fun l => K2Node_MakeArray l (new_IPin PC_Wildcard))
               (fun pin ip => moved pin (with_IPinCategory PC_Boolean ip)))
             with (pins := vpins) (n := N);
             [ apply condition_move_body; simpl; rewrite length_replicate; fold N; lia
             | exact Hvpins1 | exact Hndv | reflexivity
             | simpl; rewrite length_replicate; fold N; lia | fold N; lia ]).
  snorm.
  rewrite (take_ge (map snd pairs)) by (rewrite length_map; fold N; lia).
  rewrite (take_ge vpins) by lia.
  set (h2 := alter_all clear_links (map snd pairs) h1).
  set (opts1 := move_into moved kpins _).
  set (inputs := move_into _ vpins _).
  set (tl2 := replicate (N - 2) (typed_pin T)).
  (* Link between Make Array and Array Find *)
  unfold FindPinChecked, MakeLinkTo, TrySetDefaultValue. mnorm.
  istep. istep. istep. istep. istep. istep. istep. istep.
  (* Link between Array Find and 1st Select *)
  istep. istep.
  unfold Select_NotifyPinConnectionListChanged at 1. mnorm.
  istep. istep.
  (* Link between Array Find and Int Equal *)
  istep. istep. istep. istep. istep.
  (* Link among 1st Select, 2nd Select and Int Equal *)
  unfold Select_GetOptionPins at 1. mnorm.
  istep. istep. istep.
  unfold Select_NotifyPinConnectionListChanged at 1. mnorm.
  istep. istep. istep. istep.
  (* the default pin *)
  assert (Hclr : forall x, PinName (clear_links x) = PinName x) by reflexivity.
  destruct (deref_all_alter_all clear_links (map fst pairs) h ps objs Hclr Hobjs)
    as (objs1 & Hobjs1 & Hshape1). fold h1 in Hobjs1.
  destruct (deref_all_alter_all clear_links (map snd pairs) h1 ps objs1 Hclr Hobjs1)
    as (objs2 & Hobjs2 & Hshape2). fold h2 in Hobjs2.
  unfold GetDefaultOptionPin.
  mrun ltac:(apply FindPin_eq with (objs := objs2); exact Hobjs2).
  rewrite (shape_find_named _ objs2 objs) by congruence. rewrite Hd.
  assert (Hd2 : h2 !! d = Some dpin).
  { unfold h2, h1. now rewrite !lookup_alter_all_notin. }
  unfold MovePinLinksToIntermediate at 1. mnorm.
  mrun ltac:(apply read_pin_eq; exact Hd2).
  istep.
  mrun ltac:(eapply write_pin_eq; exact Hd2). snorm.
  (* the result pin *)
  set (h3 := alter clear_links d h2).
  destruct (deref_all_alter clear_links d h2 ps objs2 Hclr Hobjs2)
    as (objs3 & Hobjs3 & Hshape3). fold h3 in Hobjs3.
  unfold GetReturnValuePin.
  mrun ltac:(apply FindPin_eq with (objs := objs3); exact Hobjs3).
  rewrite (shape_find_named _ objs3 objs) by congruence. rewrite Hr.
  assert (Hr3 : h3 !! r = Some rpin).
  { unfold h3, h2, h1. rewrite list_lookup_alter_ne by congruence.
    now rewrite !lookup_alter_all_notin. }
  unfold MovePinLinksToIntermediate at 1. mnorm.
  mrun ltac:(apply read_pin_eq; exact Hr3).
  istep.
  mrun ltac:(eapply write_pin_eq; exact Hr3). snorm.
  (* all links of the node are broken *)
  unfold BreakAllNodeLinks. mnorm.
  mrun ltac:(reflexivity).
  rewrite write_pins_loop.
  2:{ intros p Hp. snorm. unfold h3, h2, h1.
      rewrite !length_alter, !length_alter_all.
      eapply deref_all_valid; eauto. }
  snorm. unfold expanded. rewrite Hlk. reflexivity.
Qed.

(** ** What the expanded graph computes *)

Lemma Array_Find_first_true conds k :
  Array_Find (map SBool conds) (SBool true) k =
  match first_true conds with
  | Some i => (k + Z.of_nat i)%Z
  | None => (-1)%Z
  end.
Proof.
  revert k. induction conds as [|c cs IH]; intros k; simpl; [reflexivity|].
  destruct c; simpl.
  - f_equal. lia.
  - rewrite IH. destruct (first_true cs); simpl; [lia|reflexivity].
Qed.

Lemma first_true_spec conds i :
  first_true conds = Some i <->
  conds !! i = Some true /\ forall j, (j < i)%nat -> conds !! j = Some false.
Proof.
  revert i. induction conds as [|c cs IH]; intros i; simpl.
  - split; [discriminate|]. intros [H _]. discriminate.
  - destruct c.
    + split.
      * intros [= <-]. split; [reflexivity|]. intros j Hj. lia.
      * intros [Hi Hlt]. destruct i as [|i]; [reflexivity|].
        specialize (Hlt 0%nat ltac:(lia)). discriminate.
    + split.
      * intros H. destruct (first_true cs) as [i'|] eqn:E; [|discriminate].
        simpl in H. inversion H; subst i.
        destruct (proj1 (IH i') eq_refl) as [Hi Hlt].
        split; [exact Hi|]. intros [|j] Hj; [reflexivity|]. apply Hlt. lia.
      * intros [Hi Hlt]. destruct i as [|i]; [discriminate|].
        simpl in Hi. rewrite (proj2 (IH i)); [reflexivity|].
        split; [exact Hi|]. intros j Hj. apply (Hlt (S j)). lia.
Qed.

Lemma first_true_None conds :
  first_true conds = None <-> forall i c, conds !! i = Some c -> c = false.
Proof.
  induction conds as [|c cs IH]; simpl.
  - split; [intros _ i c H; discriminate|reflexivity].
  - destruct c.
    + split; [discriminate|]. intros H. specialize (H 0%nat true eq_refl). discriminate.
    + split.
      * intros H. destruct (first_true cs) eqn:E; [discriminate|].
        intros [|i] c Hc; [now inversion Hc|]. eapply (proj1 IH eq_refl); eauto.
      * intros H. rewrite (proj2 IH); [reflexivity|].
        intros i c Hc. apply (H (S i)). exact Hc.
Qed.

Lemma input_value_moved rho out pin ip :
  ILinkedTo ip = [] ->
  input_value rho out (moved pin ip) = Some (PinValue rho pin).
Proof.
  intros Hip. unfold input_value, moved, PinValue. simpl. rewrite Hip. simpl.
  now destruct (LinkedTo pin).
Qed.

Lemma eval_inputs_replicate rho out n ip :
  ILinkedTo ip = [] ->
  eval_inputs (input_value rho out) (replicate n ip) =
  Some (replicate n (VScalar (ParseLiteral (IDefaultValue ip)))).
Proof.
  intros Hip. induction n as [|n IH]; simpl; [reflexivity|].
  rewrite IH. unfold input_value. now rewrite Hip.
Qed.

Lemma eval_inputs_move_into rho out upd pins :
  forall n ip,
    ILinkedTo ip = [] ->
    (forall pin, input_value rho out (upd pin ip) = Some (PinValue rho pin)) ->
    (length pins <= n)%nat ->
    eval_inputs (input_value rho out) (move_into upd pins (replicate n ip)) =
    Some (map (PinValue rho) pins ++
          replicate (n - length pins) (VScalar (ParseLiteral (IDefaultValue ip)))).
Proof.
  induction pins as [|pin pins IH]; intros n ip Hip Hupd Hn.
  - simpl. rewrite Nat.sub_0_r. now apply eval_inputs_replicate.
  - destruct n as [|n]; [simpl in Hn; lia|].
    simpl. rewrite Hupd. rewrite IH by (try assumption; simpl in Hn; lia).
    reflexivity.
Qed.

Lemma all_scalars_bools conds : all_scalars (map (fun c => VScalar (SBool c)) conds) =
                                Some (map SBool conds).
Proof. induction conds as [|c cs IH]; simpl; [reflexivity|]. now rewrite IH. Qed.

Lemma eval_node_S OutOfRange rho g fuel Node :
  eval_node OutOfRange rho g (S fuel) Node =
  match g !! Node with
  | Some (K2Node_Select IndexPin OptionPins _) =>
      match input_value rho (eval_node OutOfRange rho g fuel) IndexPin,
            eval_inputs (input_value rho (eval_node OutOfRange rho g fuel)) OptionPins with
      | Some i, Some vs => Some (Select_value OutOfRange i vs)
      | _, _ => None
      end
  | Some (K2Node_MakeArray InputPins _) =>
      match eval_inputs (input_value rho (eval_node OutOfRange rho g fuel)) InputPins with
      | Some vs => VArray <$> all_scalars vs
      | None => None
      end
  | Some (K2Node_CallFunction f ParamPins _) =>
      match eval_inputs (input_value rho (eval_node OutOfRange rho g fuel))
              (map snd ParamPins) with
      | Some args => call_function f args
      | None => None
      end
  | None => None
  end.
Proof. reflexivity. Qed.

Section Evaluation.
Variable OutOfRange : Value -> list Value -> Value.
Variable rho : PinPtr -> Value.
Variable T : FEdGraphPinType.
Variables kpins vpins : list UEdGraphPin.
Variables dpin rpin : UEdGraphPin.
Variable conds : list bool.

Hypothesis Hlen : length kpins = length vpins.
Hypothesis HN : (1 <= length kpins)%nat.
Hypothesis Hconds : map (PinValue rho) vpins = map (fun c => VScalar (SBool c)) conds.

Let g := expanded T kpins vpins dpin rpin.
Let found : Z := Array_Find (map SBool conds) (SBool true) 0.

Lemma eval_MakeArray fuel :
  eval_node OutOfRange rho g (S fuel) 2 = Some (VArray (map SBool conds)).
Proof.
  rewrite eval_node_S. cbn [g expanded lookup list_lookup].
  rewrite eval_inputs_move_into; [|reflexivity| |simpl; lia].
  2:{ intros pin. now apply input_value_moved. }
  replace (1 + (length kpins - 1) - length vpins)%nat with 0%nat by lia.
  simpl. rewrite app_nil_r, Hconds, all_scalars_bools. reflexivity.
Qed.

Lemma eval_Array_Find fuel :
  eval_node OutOfRange rho g (S (S fuel)) 3 = Some (VScalar (SInt found)).
Proof.
  rewrite eval_node_S.
  cbn [g expanded lookup list_lookup map snd eval_inputs input_value ILinkedTo ipin fst].
  fold g. rewrite eval_MakeArray. reflexivity.
Qed.

Lemma eval_EqualEqual_IntInt fuel :
  eval_node OutOfRange rho g (S (S (S fuel))) 4 =
  Some (VScalar (SBool (found =? -1)%Z)).
Proof.
  rewrite eval_node_S.
  cbn [g expanded lookup list_lookup map snd eval_inputs input_value ILinkedTo ipin fst].
  fold g. rewrite eval_Array_Find. reflexivity.
Qed.

Lemma eval_Select1st fuel :
  eval_node OutOfRange rho g (S (S (S fuel))) 0 =
  Some (Select_value OutOfRange (VScalar (SInt found))
          (map (PinValue rho) kpins ++
           replicate (2 + (length kpins - 2) - length kpins)
             (VScalar (ParseLiteral "")))).
Proof.
  rewrite eval_node_S.
  cbn [g expanded lookup list_lookup input_value ILinkedTo ipin fst].
  fold g. rewrite eval_Array_Find.
  rewrite eval_inputs_move_into; [reflexivity|reflexivity| |lia].
  intros pin. now apply input_value_moved.
Qed.

Lemma eval_Select2nd fuel :
  eval_node OutOfRange rho g (S (S (S (S fuel)))) 1 =
  Some (match first_true conds with
        | Some i => default (PinValue rho dpin) (map (PinValue rho) kpins !! i)
        | None => PinValue rho dpin
        end).
Proof.
  rewrite eval_node_S.
  cbn [g expanded lookup list_lookup input_value ILinkedTo ipin fst eval_inputs].
  fold g. rewrite eval_EqualEqual_IntInt, eval_Select1st.
  rewrite input_value_moved by reflexivity.
  rewrite eval_inputs_replicate by reflexivity.
  f_equal. unfold found. rewrite Array_Find_first_true.
  destruct (first_true conds) as [i|] eqn:E.
  - replace (0 + Z.of_nat i =? -1)%Z with false by (symmetry; apply Z.eqb_neq; lia).
    cbn [Select_value lookup list_lookup].
    replace (0 <=? 0 + Z.of_nat i)%Z with true by (symmetry; apply Z.leb_le; lia).
    replace (Z.to_nat (0 + Z.of_nat i)) with i by lia.
    apply first_true_spec in E as [Hi _].
    assert (Hlt : (i < length kpins)%nat).
    { apply lookup_lt_Some in Hi.
      assert (length conds = length vpins).
      { rewrite <- (length_map (fun c => VScalar (SBool c)) conds), <- Hconds.
        apply length_map. }
      lia. }
    rewrite lookup_app_l by (rewrite length_map; lia).
    destruct (lookup_lt_is_Some_2 (map (PinValue rho) kpins) i) as [v Hv];
      [rewrite length_map; lia|].
    now rewrite Hv.
  - reflexivity.
Qed.
End Evaluation.

(** ** Well-formed nodes *)

Lemma NoDup_map_filter {A B} (f : A -> B) (P : A -> bool) l :
  NoDup (map f l) -> NoDup (map f (List.filter P l)).
Proof.
  induction l as [|x l IH]; simpl; intros H; [constructor|].
  apply NoDup_cons in H as [Hx Hl].
  destruct (P x); simpl; [|now apply IH].
  apply NoDup_cons. split; [|now apply IH].
  intros Hin. apply Hx.
  apply list_elem_of_fmap in Hin as (y & Hy & Hin).
  apply list_elem_of_In, List.filter_In in Hin as [Hin _].
  apply list_elem_of_fmap. exists y. split; [assumption|now apply list_elem_of_In].
Qed.

Lemma elem_of_map_fst_combine {A B} (l1 : list A) (l2 : list B) x :
  x ∈ map fst (combine l1 l2) -> x ∈ l1.
Proof.
  intros H. apply list_elem_of_fmap in H as ([a b] & -> & Hin).
  apply list_elem_of_In in Hin. apply in_combine_l in Hin. now apply list_elem_of_In.
Qed.

Lemma elem_of_map_snd_combine {A B} (l1 : list A) (l2 : list B) x :
  x ∈ map snd (combine l1 l2) -> x ∈ l2.
Proof.
  intros H. apply list_elem_of_fmap in H as ([a b] & -> & Hin).
  apply list_elem_of_In in Hin. apply in_combine_r in Hin. now apply list_elem_of_In.
Qed.

Lemma NoDup_map_fst_combine {A B} (l1 : list A) (l2 : list B) :
  NoDup l1 -> NoDup (map fst (combine l1 l2)).
Proof.
  revert l2. induction l1 as [|a l1 IH]; intros [|b l2] H; simpl; try constructor.
  - apply NoDup_cons in H as [Ha _]. intros Hin. apply Ha.
    eapply elem_of_map_fst_combine; eauto.
  - apply IH. now apply NoDup_cons in H as [_ H].
Qed.

Lemma NoDup_map_snd_combine {A B} (l1 : list A) (l2 : list B) :
  NoDup l2 -> NoDup (map snd (combine l1 l2)).
Proof.
  revert l2. induction l1 as [|a l1 IH]; intros [|b l2] H; simpl; try constructor.
  - apply NoDup_cons in H as [Hb _]. intros Hin. apply Hb.
    eapply elem_of_map_snd_combine; eauto.
  - apply IH. now apply NoDup_cons in H as [_ H].
Qed.

Lemma NoDup_key_pins h ps objs :
  deref_all h ps = Some objs -> NoDup ps -> NoDup (key_pins objs).
Proof.
  intros Hobjs Hnd. unfold key_pins. apply NoDup_map_filter.
  now rewrite (deref_all_fst _ _ _ Hobjs).
Qed.

Lemma NoDup_value_pins h ps objs :
  deref_all h ps = Some objs -> NoDup ps -> NoDup (value_pins objs).
Proof.
  intros Hobjs Hnd. unfold value_pins. apply NoDup_map_filter.
  now rewrite (deref_all_fst _ _ _ Hobjs).
Qed.

(** A pin found under a name that is neither an option name nor a condition
    name is not a pin of a case pair. *)
Lemma named_pin_not_in_pairs h ps objs Name q :
  deref_all h ps = Some objs ->
  find_named Name objs = Some q ->
  IsCaseKeyPinName Name = false -> IsCaseValuePinName Name = false ->
  (q ∉ key_pins objs) /\ (q ∉ value_pins objs).
Proof.
  intros Hobjs Hq Hk Hv.
  destruct (find_named_lookup _ _ _ _ _ Hobjs Hq) as (qpin & Hqpin & Hname & _).
  split; intros Hin.
  - apply key_pins_spec in Hin as (x & Hx & Hn).
    pose proof (deref_all_lookup _ _ _ _ _ Hobjs Hx).
    assert (x = qpin) by congruence. subst x. congruence.
  - apply value_pins_spec in Hin as (x & Hx & Hn).
    pose proof (deref_all_lookup _ _ _ _ _ Hobjs Hx).
    assert (x = qpin) by congruence. subst x. congruence.
Qed.

Lemma value_pin_not_key h ps objs q :
  deref_all h ps = Some objs -> q ∈ value_pins objs -> q ∉ key_pins objs.
Proof.
  intros Hobjs Hv Hk.
  apply value_pins_spec in Hv as (x & Hx & Hxn).
  apply key_pins_spec in Hk as (y & Hy & Hyn).
  pose proof (deref_all_lookup _ _ _ _ _ Hobjs Hx).
  pose proof (deref_all_lookup _ _ _ _ _ Hobjs Hy).
  assert (x = y) by congruence. subst y.
  apply key_not_value in Hyn. congruence.
Qed.

Lemma alter_all_absorb f ps qs (h : list UEdGraphPin) :
  (forall x, f (f x) = f x) ->
  (forall q, q ∈ qs -> q ∈ ps) ->
  alter_all f ps (alter_all f qs h) = alter_all f ps h.
Proof.
  intros Hf Hsub. apply list_eq. intros p.
  rewrite !lookup_alter_all by exact Hf.
  destruct (h !! p) as [x|]; simpl; [|reflexivity].
  destruct (bool_decide (p ∈ qs)) eqn:Eq; simpl; [|reflexivity].
  apply bool_decide_eq_true in Eq.
  rewrite bool_decide_eq_true_2 by (now apply Hsub). simpl. now rewrite Hf.
Qed.

Lemma Forall2_fmap_heap {A} (proj : A -> PinPtr) (h : list UEdGraphPin) l pins :
  Forall2 (fun x pin => h !! proj x = Some pin) l pins ->
  Forall2 (fun p pin => h !! p = Some pin) (map proj l) pins.
Proof. intros H. induction H; simpl; constructor; assumption. Qed.

(** ** The expansion of a well-formed node *)

(** The expansion of a node whose pins are distinct objects, with at least
    one case pair, a default pin and a result pin, in a compiler context that
    has spawned nothing yet: it runs to the end, the graph holds the five
    nodes of [expanded] and no pin of the node keeps a link. *)
Lemma ExpandNode_well_formed s pairs d r dpin rpin kpins vpins :
  Intermediate s = [] ->
  NoDup (Pins s) ->
  GetCasePinPairs s = Some (pairs, s) ->
  (1 <= length pairs)%nat ->
  GetDefaultOptionPin s = Some (Some d, s) ->
  Heap s !! d = Some dpin ->
  GetReturnValuePin s = Some (Some r, s) ->
  Heap s !! r = Some rpin ->
  Forall2 (fun Pair pin => Heap s !! fst Pair = Some pin) pairs kpins ->
  Forall2 (fun Pair pin => Heap s !! snd Pair = Some pin) pairs vpins ->
  exists kpin0,
    kpins !! 0%nat = Some kpin0 /\
    ExpandNode s =
    Some (tt, with_Intermediate (expanded (PinType kpin0) kpins vpins dpin rpin)
                (with_Heap (alter_all clear_links (Pins s) (Heap s)) s)).
Proof.
  intros Hint Hnd Hpairs HN Hd Hdpin Hr Hrpin Hkpins Hvpins.
  destruct (GetCasePinPairs_inv _ _ _ Hpairs) as (objs & Hobjs & -> & _).
  destruct (FindPin_inv _ _ _ _ _ Hobjs Hd) as [Hd' _].
  destruct (FindPin_inv _ _ _ _ _ Hobjs Hr) as [Hr' _].
  remember (combine (key_pins objs) (value_pins objs)) as pairs eqn:Epairs.
  destruct pairs as [|Pair0 rest]; [simpl in HN; lia|].
  inversion Hkpins as [|? kpin0 ? kpins' Hk0 Hkrest]; subst.
  exists kpin0. split; [reflexivity|].
  destruct (named_pin_not_in_pairs _ _ _ _ _ Hobjs Hd') as [Hdk Hdv]; [reflexivity..|].
  destruct (named_pin_not_in_pairs _ _ _ _ _ Hobjs Hr') as [Hrk Hrv]; [reflexivity..|].
  destruct (find_named_lookup _ _ _ _ _ Hobjs Hd') as (dpin' & Hdpin' & Hdname & Hdin).
  destruct (find_named_lookup _ _ _ _ _ Hobjs Hr') as (rpin' & Hrpin' & Hrname & Hrin).
  assert (dpin' = dpin) by congruence. subst dpin'.
  assert (rpin' = rpin) by congruence. subst rpin'.
  assert (Hrd : r <> d).
  { intros ->. assert (rpin = dpin) by congruence. subst rpin.
    rewrite Hdname in Hrname. discriminate. }
  assert (Hsub1 : forall q, q ∈ map fst (combine (key_pins objs) (value_pins objs)) ->
                            q ∈ Pins s).
  { intros q Hq. apply elem_of_map_fst_combine, key_pins_spec in Hq as (x & Hx & _).
    rewrite <- (deref_all_fst _ _ _ Hobjs). apply list_elem_of_fmap. now exists (q, x). }
  assert (Hsub2 : forall q, q ∈ map snd (combine (key_pins objs) (value_pins objs)) ->
                            q ∈ Pins s).
  { intros q Hq. apply elem_of_map_snd_combine, value_pins_spec in Hq as (x & Hx & _).
    rewrite <- (deref_all_fst _ _ _ Hobjs). apply list_elem_of_fmap. now exists (q, x). }
  destruct s as [h ps g m]. simpl in *. subst g.
  rewrite (ExpandNode_eq h ps m objs d r dpin rpin Pair0 rest (kpin0 :: kpins') vpins kpin0).
  - unfold with_Intermediate, with_Heap. simpl. do 3 f_equal.
    change (alter clear_links r ?x) with (alter_all clear_links [r] x).
    change (alter clear_links d ?x) with (alter_all clear_links [d] x).
    rewrite !alter_all_absorb; try reflexivity; try assumption.
    + intros q ->%list_elem_of_singleton. assumption.
    + intros q ->%list_elem_of_singleton. assumption.
  - exact Hobjs.
  - now symmetry.
  - apply NoDup_map_fst_combine. eapply NoDup_key_pins; eauto.
  - apply NoDup_map_snd_combine. eapply NoDup_value_pins; eauto.
  - intros p Hp Hk. apply elem_of_map_snd_combine in Hp.
    apply elem_of_map_fst_combine in Hk.
    eapply value_pin_not_key; eauto.
  - intros H. apply Hdk. eapply elem_of_map_fst_combine; eauto.
  - intros H. apply Hdv. eapply elem_of_map_snd_combine; eauto.
  - intros H. apply Hrk. eapply elem_of_map_fst_combine; eauto.
  - intros H. apply Hrv. eapply elem_of_map_snd_combine; eauto.
  - exact Hrd.
  - exact Hk0.
  - rewrite <- Epairs. apply Forall2_fmap_heap. constructor; assumption.
  - rewrite <- Epairs. apply Forall2_fmap_heap. exact Hvpins.
  - exact Hd'.
  - exact Hdpin.
  - exact Hr'.
  - exact Hrpin.
Qed.

(** C1. For a node with N >= 1 case pairs and any boolean values on its N
    condition inputs, the expansion leaves a subgraph (Make Array of the
    conditions, Array_Find of true, Select 1st over the options indexed by
    the result of the search, the comparison of that result with -1 driving
    Select 2nd between the output of Select 1st and the default) whose
    Select 2nd, which takes over the links of the result pin, evaluates to
    the value of the option of the first true condition, and to the value of
    the default pin when every condition is false. *)
Theorem expansion_selects_first_true
    s pairs d r dpin rpin kpins vpins conds OutOfRange rho fuel :
  Intermediate s = [] ->
  NoDup (Pins s) ->
  GetCasePinPairs s = Some (pairs, s) ->
  (1 <= length pairs)%nat ->
  GetDefaultOptionPin s = Some (Some d, s) ->
  Heap s !! d = Some dpin ->
  GetReturnValuePin s = Some (Some r, s) ->
  Heap s !! r = Some rpin ->
  Forall2 (fun Pair pin => Heap s !! fst Pair = Some pin) pairs kpins ->
  Forall2 (fun Pair pin => Heap s !! snd Pair = Some pin) pairs vpins ->
  Forall2 (fun pin c => PinValue rho pin = VScalar (SBool c)) vpins conds ->
  (4 <= fuel)%nat ->
  exists s' IndexPin OptionPins ReturnValuePin,
    ExpandNode s = Some (tt, s') /\
    Intermediate s' !! 1%nat = Some (K2Node_Select IndexPin OptionPins ReturnValuePin) /\
    ILinkedTo ReturnValuePin = map ToPin (LinkedTo rpin) /\
    (forall i kpin,
       conds !! i = Some true ->
       (forall j, (j < i)%nat -> conds !! j = Some false) ->
       kpins !! i = Some kpin ->
       eval_node OutOfRange rho (Intermediate s') fuel 1 = Some (PinValue rho kpin)) /\
    ((forall i c, conds !! i = Some c -> c = false) ->
     eval_node OutOfRange rho (Intermediate s') fuel 1 = Some (PinValue rho dpin)).
Proof.
  intros Hint Hnd Hpairs HN Hd Hdpin Hr Hrpin Hkpins Hvpins Hconds Hfuel.
  destruct (ExpandNode_well_formed s pairs d r dpin rpin kpins vpins)
    as (kpin0 & Hk0 & Hrun); try assumption.
  eexists _, _, _, _. split; [exact Hrun|].
  split; [reflexivity|]. split; [reflexivity|].
  assert (Hlen : length kpins = length vpins).
  { apply Forall2_length in Hkpins, Hvpins. congruence. }
  assert (HNk : (1 <= length kpins)%nat).
  { apply Forall2_length in Hkpins. lia. }
  assert (Hvals : map (PinValue rho) vpins = map (fun c => VScalar (SBool c)) conds).
  { clear -Hconds. induction Hconds; simpl; congruence. }
  destruct fuel as [|[|[|[|fuel]]]]; try lia.
  cbn [Intermediate with_Intermediate].
  rewrite (eval_Select2nd OutOfRange rho (PinType kpin0) kpins vpins dpin rpin conds
             Hlen HNk Hvals fuel).
  split.
  - intros i kpin Hi Hlt Hk.
    rewrite (proj2 (first_true_spec conds i) (conj Hi Hlt)).
    rewrite list_lookup_fmap, Hk. reflexivity.
  - intros Hall. now rewrite (proj2 (first_true_None conds) Hall).
Qed.

(** ** The second Select *)

(** C2, at a node with three case pairs: Select 2nd, node 1 of the expanded
    graph, is left with three option pins.  The first is linked to the
    return value of Select 1st, the second would take the links of the
    default pin, and the third, which [AddInputPin] added, is linked to
    nothing; the index pin is boolean and linked to the comparison. *)
Example select_2nd_has_three_inputs :
  exists s' IndexPin Option0 Option1 Option2 ReturnValuePin,
    ExpandNode three_pair_node = Some (tt, s') /\
    Intermediate s' !! 1%nat =
      Some (K2Node_Select IndexPin [Option0; Option1; Option2] ReturnValuePin) /\
    PinCategory (IPinType IndexPin) = PC_Boolean /\
    ILinkedTo IndexPin = [ToIntermediate (4%nat, SelReturn)] /\
    ILinkedTo Option0 = [ToIntermediate (0%nat, SelReturn)] /\
    ILinkedTo Option2 = [].
Proof.
  eexists _, _, _, _, _, _. vm_compute. repeat split.
Qed.

(** The second Select of any well-formed node: its two first option pins are
    wired as the spec says, and it has as many option pins as the first
    Select, two or the number of case pairs, whichever is larger. *)
Lemma Select2nd_option_pins s pairs d r dpin rpin kpins vpins :
  Intermediate s = [] ->
  NoDup (Pins s) ->
  GetCasePinPairs s = Some (pairs, s) ->
  (1 <= length pairs)%nat ->
  GetDefaultOptionPin s = Some (Some d, s) ->
  Heap s !! d = Some dpin ->
  GetReturnValuePin s = Some (Some r, s) ->
  Heap s !! r = Some rpin ->
  Forall2 (fun Pair pin => Heap s !! fst Pair = Some pin) pairs kpins ->
  Forall2 (fun Pair pin => Heap s !! snd Pair = Some pin) pairs vpins ->
  exists s' IndexPin Option0 Option1 More ReturnValuePin,
    ExpandNode s = Some (tt, s') /\
    Intermediate s' !! 1%nat =
      Some (K2Node_Select IndexPin (Option0 :: Option1 :: More) ReturnValuePin) /\
    PinCategory (IPinType IndexPin) = PC_Boolean /\
    ILinkedTo IndexPin = [ToIntermediate (4%nat, SelReturn)] /\
    ILinkedTo Option0 = [ToIntermediate (0%nat, SelReturn)] /\
    ILinkedTo Option1 = map ToPin (LinkedTo dpin) /\
    IDefaultValue Option1 = DefaultValue dpin /\
    length More = (length pairs - 2)%nat /\
    Forall (fun p => ILinkedTo p = []) More.
Proof.
  intros Hint Hnd Hpairs HN Hd Hdpin Hr Hrpin Hkpins Hvpins.
  destruct (ExpandNode_well_formed s pairs d r dpin rpin kpins vpins)
    as (kpin0 & Hk0 & Hrun); try assumption.
  eexists _, _, _, _, _, _. split; [exact Hrun|].
  split; [reflexivity|].
  do 5 (split; [reflexivity|]).
  apply Forall2_length in Hkpins.
  split; [rewrite length_replicate; lia|].
  apply Forall_forall. intros p Hp. apply elem_of_replicate in Hp as [-> _]. reflexivity.
Qed.

(** ** Connection events the pass ignores *)

Lemma connection_event_ignored_aux Schema s p pin :
  Heap s !! p = Some pin ->
  (LinkedTo pin = [] \/ IsCaseValuePinName (PinName pin) = true) ->
  PinConnectionListChanged Schema (Some p) s = Some (tt, s).
Proof.
  intros Hp Hcase.
  unfold PinConnectionListChanged.
  rewrite (bind_eq _ _ _ _ _ (read_pin_eq s p pin Hp)).
  destruct (LinkedTo pin) as [|L ls] eqn:Hl; [reflexivity|].
  destruct Hcase as [Hc|Hc]; [discriminate|].
  cbn [length Nat.eqb].
  unfold IsCaseValuePin. mnorm.
  rewrite (bind_eq _ _ _ _ _ (read_pin_eq s p pin Hp)). mnorm.
  now rewrite Hc.
Qed.

(** A notification about no pin, about a pin that has no link left, or about
    a condition pin changes nothing at all, whatever the state of the default
    pin: the three early returns come before the default pin is looked at. *)
Theorem connection_event_ignored Schema s p pin :
  Heap s !! p = Some pin ->
  (LinkedTo pin = [] \/ IsCaseValuePinName (PinName pin) = true) ->
  PinConnectionListChanged Schema None s = Some (tt, s) /\
  PinConnectionListChanged Schema (Some p) s = Some (tt, s).
Proof.
  intros Hp Hcase. split; [reflexivity|].
  now apply (connection_event_ignored_aux Schema s p pin).
Qed.

(** The pass reads the type of the default pin without a null check: on a
    node that has no pin named like the default pin, a link made to a pin
    that is not a condition pin makes it fault. *)
Theorem unification_needs_default_pin Schema s objs p pin :
  deref_all (Heap s) (Pins s) = Some objs ->
  find_named DefaultOptionPinName objs = None ->
  Heap s !! p = Some pin ->
  LinkedTo pin <> [] ->
  IsCaseValuePinName (PinName pin) = false ->
  PinConnectionListChanged Schema (Some p) s = None.
Proof.
  intros Hobjs Hnone Hp Hl Hc.
  unfold PinConnectionListChanged.
  rewrite (bind_eq _ _ _ _ _ (read_pin_eq s p pin Hp)).
  destruct (LinkedTo pin) as [|L ls]; [congruence|].
  cbn [length Nat.eqb].
  unfold IsCaseValuePin. mnorm.
  rewrite (bind_eq _ _ _ _ _ (read_pin_eq s p pin Hp)). mnorm.
  rewrite Hc.
  unfold GetDefaultOptionPin.
  rewrite (bind_eq _ _ _ _ _ (FindPin_eq s objs _ Hobjs)).
  now rewrite Hnone.
Qed.

(** ** What the pass leaves alone *)

Lemma retype_frame Schema T x :
  PinName (retype Schema T x) = PinName x /\
  Direction (retype Schema T x) = Direction x /\
  PinFriendlyName (retype Schema T x) = PinFriendlyName x /\
  LinkedTo (retype Schema T x) = LinkedTo x.
Proof. now destruct x. Qed.

(** When the pass fixes the types it flags the document as modified, keeps
    the [Pins] array, and keeps the name, the direction, the label and the
    links of every pin; a pin that is not the default pin, the result pin or
    an option pin of the node, so every condition pin and every pin of
    another node, is left exactly as it was. *)
Theorem unification_frame Schema s p pin L lpin d dpin r pairs :
  GetCasePinPairs s = Some (pairs, s) ->
  GetDefaultOptionPin s = Some (Some d, s) ->
  Heap s !! d = Some dpin ->
  PinCategory (PinType dpin) = PC_Wildcard ->
  GetReturnValuePin s = Some (Some r, s) ->
  Heap s !! p = Some pin ->
  IsCaseValuePinName (PinName pin) = false ->
  LinkedTo pin !! 0%nat = Some L ->
  Heap s !! L = Some lpin ->
  exists s',
    PinConnectionListChanged Schema (Some p) s = Some (tt, s') /\
    Pins s' = Pins s /\
    Modified s' = true /\
    length (Heap s') = length (Heap s) /\
    (forall q qpin, Heap s !! q = Some qpin ->
       exists qpin', Heap s' !! q = Some qpin' /\
         PinName qpin' = PinName qpin /\
         Direction qpin' = Direction qpin /\
         PinFriendlyName qpin' = PinFriendlyName qpin /\
         LinkedTo qpin' = LinkedTo qpin /\
         (q <> d -> q <> r -> q ∉ map fst pairs -> qpin' = qpin)) /\
    (forall q, q ∈ map snd pairs -> Heap s' !! q = Heap s !! q).
Proof.
  intros Hpairs Hd Hdpin Hwild Hr Hp Hcond HL0 HL.
  destruct (GetCasePinPairs_inv _ _ _ Hpairs) as (objs & Hobjs & -> & _).
  destruct (FindPin_inv _ _ _ _ _ Hobjs Hd) as [Hd' _].
  destruct (FindPin_inv _ _ _ _ _ Hobjs Hr) as [Hr' _].
  eexists. split.
  { eapply PinConnectionListChanged_unify; eauto. }
  destruct s as [h ps g m]. cbn [Pins Modified Heap with_Modified with_Heap] in *.
  split; [reflexivity|]. split; [reflexivity|].
  split; [apply length_alter_all|].
  set (qs := d :: r :: map fst (combine (key_pins objs) (value_pins objs))).
  assert (Hidem : forall x, retype Schema (PinType lpin) (retype Schema (PinType lpin) x) =
                            retype Schema (PinType lpin) x) by apply retype_idem.
  split.
  - intros q qpin Hq. rewrite (lookup_alter_all _ _ _ _ Hidem), Hq. cbn [fmap option_fmap option_map].
    eexists. split; [reflexivity|].
    destruct (bool_decide_reflect (q ∈ qs)) as [Hin|Hnin].
    + destruct (retype_frame Schema (PinType lpin) qpin) as (? & ? & ? & ?).
      repeat (split; [assumption|]).
      intros Hqd Hqr Hqk. exfalso. unfold qs in Hin.
      rewrite !elem_of_cons in Hin. tauto.
    + repeat (split; [reflexivity|]). reflexivity.
  - intros q Hq. apply lookup_alter_all_notin; [exact Hidem|].
    assert (Hqv : q ∈ value_pins objs) by (eapply elem_of_map_snd_combine; exact Hq).
    destruct (named_pin_not_in_pairs _ _ _ _ _ Hobjs Hd' eq_refl eq_refl) as [_ Hdv].
    destruct (named_pin_not_in_pairs _ _ _ _ _ Hobjs Hr' eq_refl eq_refl) as [_ Hrv].
    pose proof (value_pin_not_key _ _ _ _ Hobjs Hqv) as Hqk.
    unfold qs. rewrite !not_elem_of_cons. repeat split.
    + intros ->. contradiction.
    + intros ->. contradiction.
    + intros Hin. apply Hqk. eapply elem_of_map_fst_combine; exact Hin.
Qed.

(** ** Looking pins up by name in a laid-out node *)

Lemma GetCasePinName_inj Prefix i j :
  GetCasePinName Prefix i = GetCasePinName Prefix j -> i = j.
Proof.
  unfold GetCasePinName. intros H.
  apply String.app_inj in H. now apply pretty_Z_inj in H.
Qed.

Lemma NoDup_option_names N : NoDup (option_names N).
Proof.
  unfold option_names. apply (NoDup_fmap_2_strong _).
  - intros i j _ _. apply GetCasePinName_inj.
  - apply NoDup_seqZ.
Qed.

Lemma NoDup_condition_names N : NoDup (condition_names N).
Proof.
  unfold condition_names. apply (NoDup_fmap_2_strong _).
  - intros i j _ _. apply GetCasePinName_inj.
  - apply NoDup_seqZ.
Qed.

Lemma elem_of_option_names N Name :
  Name ∈ option_names N -> IsCaseKeyPinName Name = true /\ IsCaseValuePinName Name = false.
Proof.
  unfold option_names. intros H. apply list_elem_of_fmap in H as (i & -> & _).
  split; [apply IsCaseKeyPinName_option | apply IsCaseValuePinName_option].
Qed.

Lemma elem_of_condition_names N Name :
  Name ∈ condition_names N -> IsCaseKeyPinName Name = false /\ IsCaseValuePinName Name = true.
Proof.
  unfold condition_names. intros H. apply list_elem_of_fmap in H as (i & -> & _).
  split; [apply IsCaseKeyPinName_condition | apply IsCaseValuePinName_condition].
Qed.

(** The stable names of a laid-out node are pairwise distinct. *)
Lemma NoDup_layout_names N : NoDup (layout_names N).
Proof.
  unfold layout_names. cbn [app]. apply NoDup_cons. split.
  - rewrite elem_of_app, elem_of_app, list_elem_of_singleton.
    intros [H|[H|H]].
    + apply elem_of_option_names in H as [H _]. discriminate H.
    + apply elem_of_condition_names in H as [_ H]. discriminate H.
    + discriminate H.
  - apply NoDup_app. split; [apply NoDup_option_names|]. split.
    + intros Name Ho. rewrite elem_of_app, list_elem_of_singleton.
      apply elem_of_option_names in Ho as [Hk Hv].
      intros [H| ->].
      * apply elem_of_condition_names in H as [H _]. congruence.
      * discriminate Hk.
    + apply NoDup_app. split; [apply NoDup_condition_names|]. split.
      * intros Name Hc. rewrite list_elem_of_singleton. intros ->.
        apply elem_of_condition_names in Hc as [_ H]. discriminate H.
      * apply NoDup_singleton.
Qed.

Lemma deref_all_names h ps objs :
  deref_all h ps = Some objs ->
  map pin_name_of objs = map (fun p => from_option PinName "" (h !! p)) ps.
Proof.
  revert objs. induction ps as [|p ps IH]; intros objs H; cbn in H.
  - now inversion H.
  - destruct (h !! p) as [pin|] eqn:Hp; [|discriminate].
    destruct (deref_all h ps) as [r|]; [|discriminate].
    inversion H; subst. cbn. rewrite Hp. cbn. f_equal. now apply IH.
Qed.

Lemma NoDup_pins_of_names h ps objs :
  deref_all h ps = Some objs -> NoDup (map pin_name_of objs) -> NoDup ps.
Proof.
  intros H Hnd. rewrite (deref_all_names _ _ _ H) in Hnd.
  eapply NoDup_fmap_1. exact Hnd.
Qed.

Lemma Layout_objs N s :
  Layout N s ->
  exists objs, deref_all (Heap s) (Pins s) = Some objs /\
               map pin_name_of objs = layout_names N.
Proof.
  intros H. apply Layout_iff in H. unfold pin_names in H.
  destruct (deref_all (Heap s) (Pins s)) as [objs|]; [|discriminate].
  exists objs. split; [reflexivity|]. now inversion H.
Qed.

(** No two positions of a laid-out node hold the same pin. *)
Lemma Layout_NoDup N s : Layout N s -> NoDup (Pins s).
Proof.
  intros H. destruct (Layout_objs _ _ H) as (objs & Hobjs & Hnames).
  eapply NoDup_pins_of_names; [exact Hobjs|]. rewrite Hnames. apply NoDup_layout_names.
Qed.

Lemma filter_names_all {A} (f : A -> FName) (P : FName -> bool) l :
  List.filter P (map f l) = map f l -> List.filter (fun o => P (f o)) l = l.
Proof.
  induction l as [|x l IH]; [reflexivity|]. cbn.
  destruct (P (f x)) eqn:Hx.
  - intros H. inversion H. f_equal. now apply IH.
  - intros H. exfalso.
    assert (Hlen : (length (List.filter P (map f l)) <= length (map f l))%nat)
      by apply List.filter_length_le.
    rewrite H in Hlen. cbn in Hlen. lia.
Qed.

Lemma filter_names_none {A} (f : A -> FName) (P : FName -> bool) l :
  List.filter P (map f l) = [] -> List.filter (fun o => P (f o)) l = [].
Proof.
  induction l as [|x l IH]; [reflexivity|]. cbn.
  destruct (P (f x)); [discriminate|]. exact IH.
Qed.

Lemma map_app_inv {A B} (f : A -> B) l l1 l2 :
  map f l = l1 ++ l2 ->
  map f (take (length l1) l) = l1 /\ map f (drop (length l1) l) = l2.
Proof.
  intros H.
  assert (Ht : take (length l1) (map f l) = l1) by (rewrite H; apply take_app_length).
  assert (Hd : drop (length l1) (map f l) = l2) by (rewrite H; apply drop_app_length).
  change (map f l) with (f <$> l) in Ht, Hd.
  rewrite <- fmap_take in Ht. rewrite <- fmap_drop in Hd. now split.
Qed.

(** The objects of a laid-out node, split along the layout. *)
Lemma Layout_split N objs :
  map pin_name_of objs = layout_names N ->
  exists D os cs R,
    objs = (D :: os) ++ cs ++ [R] /\
    pin_name_of D = DefaultOptionPinName /\
    map pin_name_of os = option_names N /\
    map pin_name_of cs = condition_names N /\
    pin_name_of R = ReturnValueOptionPinName.
Proof.
  intros H. unfold layout_names in H.
  destruct objs as [|D objs]; [discriminate|]. cbn [map app] in H.
  inversion H as [[HD Hrest]].
  destruct (map_app_inv _ _ _ _ Hrest) as [Ho Hrest'].
  destruct (map_app_inv _ _ _ _ Hrest') as [Hc HR].
  rewrite length_option_names in *. rewrite length_condition_names in *.
  destruct (drop N (drop N objs)) as [|R [|? ?]] eqn:Hdrop; try discriminate.
  inversion HR as [HRn].
  exists D, (take N objs), (take N (drop N objs)), R.
  repeat split; try assumption.
  cbn [app]. f_equal.
  rewrite <- Hdrop. now rewrite !take_drop.
Qed.

Lemma find_named_skip Name l1 l2 :
  Forall (fun o => pin_name_of o <> Name) l1 ->
  find_named Name (l1 ++ l2) = find_named Name l2.
Proof.
  induction 1 as [|o l1 Ho _ IH]; [reflexivity|].
  unfold find_named in *. cbn [app List.find].
  unfold pin_name_of in Ho.
  destruct (String.eqb_spec (PinName (snd o)) Name); [contradiction|]. exact IH.
Qed.

Lemma Forall_names (P : FName -> Prop) (l : list (PinPtr * UEdGraphPin)) names :
  map pin_name_of l = names -> Forall P names -> Forall (fun o => P (pin_name_of o)) l.
Proof.
  intros <- H. induction l as [|o l IH]; constructor.
  - now inversion H.
  - apply IH. now inversion H.
Qed.

Lemma option_names_not_return N :
  Forall (fun Name => Name <> ReturnValueOptionPinName) (option_names N).
Proof.
  apply Forall_forall. intros Name H ->.
  apply elem_of_option_names in H as [H _]. discriminate H.
Qed.

Lemma condition_names_not_return N :
  Forall (fun Name => Name <> ReturnValueOptionPinName) (condition_names N).
Proof.
  apply Forall_forall. intros Name H ->.
  apply elem_of_condition_names in H as [_ H]. discriminate H.
Qed.

Lemma key_pins_app l1 l2 : key_pins (l1 ++ l2) = key_pins l1 ++ key_pins l2.
Proof. unfold key_pins. now rewrite List.filter_app, map_app. Qed.

Lemma value_pins_app l1 l2 : value_pins (l1 ++ l2) = value_pins l1 ++ value_pins l2.
Proof. unfold value_pins. now rewrite List.filter_app, map_app. Qed.

(** In a laid-out node the lookups by name return the pins of the
    positions the layout gives them. *)
Lemma Layout_view N s :
  Layout N s ->
  exists D os cs R,
    let objs := (D :: os) ++ cs ++ [R] in
    deref_all (Heap s) (Pins s) = Some objs /\
    (pin_name_of D = DefaultOptionPinName /\
     map pin_name_of os = option_names N /\
     map pin_name_of cs = condition_names N /\
     pin_name_of R = ReturnValueOptionPinName) /\
    length os = N /\ length cs = N /\
    find_named DefaultOptionPinName objs = Some (fst D) /\
    find_named ReturnValueOptionPinName objs = Some (fst R) /\
    key_pins objs = map fst os /\
    value_pins objs = map fst cs.
Proof.
  intros H. destruct (Layout_objs _ _ H) as (objs & Hobjs & Hnames).
  destruct (Layout_split _ _ Hnames) as (D & os & cs & R & -> & HD & Ho & Hc & HR).
  exists D, os, cs, R. cbn zeta.
  split; [exact Hobjs|].
  split; [now repeat split|].
  split; [rewrite <- (length_map pin_name_of), Ho; apply length_option_names|].
  split; [rewrite <- (length_map pin_name_of), Hc; apply length_condition_names|].
  split; [apply find_named_head; exact HD|].
  split.
  - change ((D :: os) ++ cs ++ [R]) with ([D] ++ os ++ cs ++ [R]).
    rewrite find_named_skip.
    2:{ constructor; [|constructor]. rewrite HD. discriminate. }
    rewrite find_named_skip.
    2:{ apply (Forall_names (fun Name => Name <> ReturnValueOptionPinName) _ _ Ho), option_names_not_return. }
    rewrite find_named_skip.
    2:{ apply (Forall_names (fun Name => Name <> ReturnValueOptionPinName) _ _ Hc), condition_names_not_return. }
    apply find_named_head. exact HR.
  - change ((D :: os) ++ cs ++ [R]) with ([D] ++ os ++ cs ++ [R]).
    rewrite !key_pins_app, !value_pins_app.
    unfold key_pins, value_pins. unfold pin_name_of in *.
    cbn [List.filter]. rewrite HD, HR. cbn [IsCaseKeyPinName IsCaseValuePinName].
    assert (Hko : List.filter (fun o => IsCaseKeyPinName (PinName (snd o))) os = os).
    { apply (filter_names_all (fun o => PinName (snd o)) IsCaseKeyPinName).
      rewrite Ho. apply filter_key_option_names. }
    assert (Hkc : List.filter (fun o => IsCaseKeyPinName (PinName (snd o))) cs = []).
    { apply (filter_names_none (fun o => PinName (snd o)) IsCaseKeyPinName).
      rewrite Hc. apply filter_key_condition_names. }
    assert (Hvo : List.filter (fun o => IsCaseValuePinName (PinName (snd o))) os = []).
    { apply (filter_names_none (fun o => PinName (snd o)) IsCaseValuePinName).
      rewrite Ho. apply filter_value_option_names. }
    assert (Hvc : List.filter (fun o => IsCaseValuePinName (PinName (snd o))) cs = cs).
    { apply (filter_names_all (fun o => PinName (snd o)) IsCaseValuePinName).
      rewrite Hc. apply filter_value_condition_names. }
    rewrite Hko, Hkc, Hvo, Hvc.
    split; vm_compute IsCaseKeyPinName; vm_compute IsCaseValuePinName; cbn; now rewrite ?app_nil_r.
Qed.

(** The layout read back by name: in a node whose pins are laid out as
    [Default][Option 0..N-1][Condition 0..N-1][Return Value], the lookups by
    name return the default pin from position 0 and the result pin from the
    last position, the case pairs are the N option pins paired in order with
    the N condition pins, and no pin occurs twice. *)
Theorem layout_lookup N s :
  Layout N s ->
  exists d ks vs r,
    Pins s = (d :: ks) ++ vs ++ [r] /\
    length ks = N /\ length vs = N /\
    GetDefaultOptionPin s = Some (Some d, s) /\
    GetReturnValuePin s = Some (Some r, s) /\
    GetCasePinPairs s = Some (combine ks vs, s) /\
    NoDup (Pins s).
Proof.
  intros H. pose proof (Layout_NoDup _ _ H) as Hnd.
  destruct (Layout_view _ _ H) as (D & os & cs & R & Hobjs & _ & Hlo & Hlc & HD & HR & Hk & Hv).
  cbn zeta in *.
  exists (fst D), (map fst os), (map fst cs), (fst R).
  split.
  { rewrite <- (deref_all_fst _ _ _ Hobjs). cbn [map app]. now rewrite !map_app. }
  rewrite !length_map.
  split; [exact Hlo|]. split; [exact Hlc|].
  unfold GetDefaultOptionPin, GetReturnValuePin.
  rewrite !(FindPin_eq _ _ _ Hobjs), (GetCasePinPairs_eq _ _ Hobjs), HD, HR, Hk, Hv.
  repeat split. exact Hnd.
Qed.

(** ** The expansion of a laid-out node *)

Lemma deref_all_Forall h ps objs :
  deref_all h ps = Some objs -> Forall (fun o => h !! fst o = Some (snd o)) objs.
Proof.
  intros H. apply Forall_forall. intros [p pin] Hin.
  eapply deref_all_lookup; eauto.
Qed.

Lemma Forall2_combine_fst (h : list UEdGraphPin) (os cs : list (PinPtr * UEdGraphPin)) :
  Forall (fun o => h !! fst o = Some (snd o)) os ->
  length os = length cs ->
  Forall2 (fun (Pair : PinPtr * PinPtr) pin => h !! fst Pair = Some pin)
    (combine (map fst os) (map fst cs)) (map snd os).
Proof.
  intros H. revert cs. induction H as [|o os Ho _ IH]; intros [|c cs] Hlen;
    try discriminate; cbn; constructor.
  - exact Ho.
  - apply IH. now inversion Hlen.
Qed.

Lemma Forall2_combine_snd (h : list UEdGraphPin) (os cs : list (PinPtr * UEdGraphPin)) :
  Forall (fun o => h !! fst o = Some (snd o)) cs ->
  length os = length cs ->
  Forall2 (fun (Pair : PinPtr * PinPtr) pin => h !! snd Pair = Some pin)
    (combine (map fst os) (map fst cs)) (map snd cs).
Proof.
  intros H. revert os. induction H as [|c cs Hc _ IH]; intros [|o os] Hlen;
    try discriminate; cbn; constructor.
  - exact Hc.
  - apply IH. now inversion Hlen.
Qed.

(** The expansion of a laid-out node with at least one case pair, in closed
    form. *)
Lemma ExpandNode_laid_out N s :
  Layout N s -> (1 <= N)%nat -> Intermediate s = [] ->
  exists D os cs R kpin0,
    deref_all (Heap s) (Pins s) = Some ((D :: os) ++ cs ++ [R]) /\
    length os = N /\ length cs = N /\
    map snd os !! 0%nat = Some kpin0 /\
    ExpandNode s =
    Some (tt, with_Intermediate
                (expanded (PinType kpin0) (map snd os) (map snd cs) (snd D) (snd R))
                (with_Heap (alter_all clear_links (Pins s) (Heap s)) s)).
Proof.
  intros HL HN Hi.
  pose proof (Layout_NoDup _ _ HL) as Hnd.
  destruct (Layout_view _ _ HL) as (D & os & cs & R & Hobjs & _ & Hlo & Hlc & HD & HR & Hk & Hv).
  cbn zeta in *.
  pose proof (deref_all_Forall _ _ _ Hobjs) as Hall.
  change ((D :: os) ++ cs ++ [R]) with ([D] ++ os ++ cs ++ [R]) in Hall.
  rewrite !Forall_app in Hall. destruct Hall as (HhD & Hho & Hhc & HhR).
  rewrite Forall_singleton in HhD, HhR.
  destruct (ExpandNode_well_formed s (combine (map fst os) (map fst cs)) (fst D) (fst R)
              (snd D) (snd R) (map snd os) (map snd cs)) as (kpin0 & Hk0 & Hrun).
  - exact Hi.
  - exact Hnd.
  - rewrite (GetCasePinPairs_eq _ _ Hobjs), Hk, Hv. reflexivity.
  - rewrite length_combine, !length_map. lia.
  - unfold GetDefaultOptionPin. now rewrite (FindPin_eq _ _ _ Hobjs), HD.
  - exact HhD.
  - unfold GetReturnValuePin. now rewrite (FindPin_eq _ _ _ Hobjs), HR.
  - exact HhR.
  - apply Forall2_combine_fst; [exact Hho | lia].
  - apply Forall2_combine_snd; [exact Hhc | lia].
  - exists D, os, cs, R, kpin0. repeat (split; [assumption|]). exact Hrun.
Qed.

Lemma shape_names objs objs' :
  shape objs = shape objs' -> map pin_name_of objs = map pin_name_of objs'.
Proof.
  intros H. apply (f_equal (map snd)) in H. unfold shape in H.
  rewrite !map_map in H. exact H.
Qed.

Lemma clear_links_idem x : clear_links (clear_links x) = clear_links x.
Proof. reflexivity. Qed.

(** Every node the editor can build can be expanded: on a laid-out node with
    at least one case pair and no intermediate node yet, the expansion does
    not fault and spawns five nodes; it keeps the layout, the type, the
    direction and the label of every pin of the node, and leaves every pin
    of the node without a link. *)
Theorem expansion_of_laid_out_node N s :
  Layout N s -> (1 <= N)%nat -> Intermediate s = [] ->
  exists s',
    ExpandNode s = Some (tt, s') /\
    length (Intermediate s') = 5%nat /\
    Pins s' = Pins s /\
    Layout N s' /\
    forall q qpin, q ∈ Pins s -> Heap s !! q = Some qpin ->
      exists qpin', Heap s' !! q = Some qpin' /\
        LinkedTo qpin' = [] /\
        PinName qpin' = PinName qpin /\
        PinType qpin' = PinType qpin /\
        Direction qpin' = Direction qpin /\
        PinFriendlyName qpin' = PinFriendlyName qpin.
Proof.
  intros HL HN Hi.
  destruct (ExpandNode_laid_out _ _ HL HN Hi)
    as (D & os & cs & R & kpin0 & Hobjs & Hlo & Hlc & Hk0 & Hrun).
  eexists. split; [exact Hrun|].
  destruct s as [h ps g m]. unfold with_Intermediate, with_Heap in *.
  cbn [Heap Pins Intermediate Modified] in *.
  split; [reflexivity|]. split; [reflexivity|]. split.
  - apply Layout_iff. unfold pin_names. cbn [Heap Pins].
    destruct (deref_all_alter_all clear_links ps h ps _ (fun x => eq_refl) Hobjs)
      as (objs' & Hobjs' & Hshape).
    rewrite Hobjs'. cbn. f_equal. rewrite (shape_names _ _ Hshape).
    apply Layout_iff in HL. unfold pin_names in HL. cbn [Heap Pins] in HL.
    rewrite Hobjs in HL. now inversion HL.
  - intros q qpin Hq Hqpin.
    rewrite (lookup_alter_all _ _ _ _ clear_links_idem), Hqpin.
    rewrite (bool_decide_eq_true_2 _ Hq). cbn.
    eexists. split; [reflexivity|]. now destruct qpin.
Qed.

Lemma move_into_lookup_lt upd pins :
  forall l i pin ip,
    pins !! i = Some pin -> l !! i = Some ip ->
    move_into upd pins l !! i = Some (upd pin ip).
Proof.
  induction pins as [|x pins IH]; intros l i pin ip Hp Hl; [discriminate|].
  destruct l as [|y l]; [discriminate|].
  destruct i as [|i]; cbn in *.
  - now inversion Hp; inversion Hl.
  - now apply IH.
Qed.

Lemma length_move_into upd pins : forall l, length (move_into upd pins l) = length l.
Proof.
  induction pins as [|x pins IH]; intros [|y l]; cbn; try reflexivity.
  now rewrite IH.
Qed.

Lemma Forall_move_into (P : IPin -> Prop) upd pins :
  (forall pin ip, P ip -> P (upd pin ip)) ->
  forall l, Forall P l -> Forall P (move_into upd pins l).
Proof.
  intros Hupd. induction pins as [|x pins IH]; intros l Hl; [now rewrite move_into_nil|].
  destruct Hl as [|y l Hy Hl]; cbn; constructor; auto.
Qed.

(** The pin object behind a position of the option block or of the
    condition block of a laid-out node. *)
Lemma Layout_position (h : list UEdGraphPin) D os cs R ps i q qpin :
  deref_all h ps = Some ((D :: os) ++ cs ++ [R]) ->
  h !! q = Some qpin ->
  ((i < length os)%nat -> ps !! (1 + i)%nat = Some q -> map snd os !! i = Some qpin) /\
  ((i < length cs)%nat -> ps !! (length os + 1 + i)%nat = Some q ->
   map snd cs !! i = Some qpin).
Proof.
  intros Hobjs Hq.
  pose proof (deref_all_Forall _ _ _ Hobjs) as Hall.
  change ((D :: os) ++ cs ++ [R]) with ([D] ++ os ++ cs ++ [R]) in Hall.
  rewrite !Forall_app in Hall. destruct Hall as (_ & Hho & Hhc & _).
  rewrite <- (deref_all_fst _ _ _ Hobjs). cbn [map app]. rewrite !map_app.
  split; intros Hi Hps.
  - change (fst D :: ?x) with ([fst D] ++ x) in Hps.
    rewrite lookup_app_r in Hps by (cbn; lia).
    replace (1 + i - length [fst D])%nat with i in Hps by (cbn; lia).
    rewrite lookup_app_l in Hps by now rewrite length_map.
    change (map fst os) with (fst <$> os) in Hps.
    rewrite list_lookup_fmap in Hps.
    change (map snd os) with (snd <$> os). rewrite list_lookup_fmap.
    destruct (os !! i) as [o|] eqn:Ho; [|discriminate]. cbn in *.
    inversion Hps; subst q.
    rewrite Forall_forall in Hho.
    assert (Hin : o ∈ os) by (eapply list_elem_of_lookup_2; exact Ho).
    specialize (Hho o Hin). congruence.
  - change (fst D :: ?x) with ([fst D] ++ x) in Hps.
    rewrite lookup_app_r in Hps by (cbn; lia).
    rewrite lookup_app_r in Hps by (rewrite length_map; cbn; lia).
    rewrite length_map in Hps.
    replace (length os + 1 + i - length [fst D] - length os)%nat with i in Hps by (cbn; lia).
    rewrite lookup_app_l in Hps by now rewrite length_map.
    change (map fst cs) with (fst <$> cs) in Hps.
    rewrite list_lookup_fmap in Hps.
    change (map snd cs) with (snd <$> cs). rewrite list_lookup_fmap.
    destruct (cs !! i) as [c|] eqn:Hc; [|discriminate]. cbn in *.
    inversion Hps; subst q.
    rewrite Forall_forall in Hhc.
    assert (Hin : c ∈ cs) by (eapply list_elem_of_lookup_2; exact Hc).
    specialize (Hhc c Hin). congruence.
Qed.

(** The wiring of the expanded graph.  Select 1st has one option pin per
    case pair, and never fewer than two; option pin [i] takes the links and
    the literal of option pin [i] of the node, and its index pin is fed by the
    search.  Make Array has exactly one input per case pair; input [i] is
    boolean and takes the links and the literal of condition pin [i].  The
    search looks for the literal true and the comparison is with the literal
    -1.  Every option pin of Select 1st and its return value have the type of
    option pin 0 of the node. *)
Theorem expansion_wiring N s :
  Layout N s -> (1 <= N)%nat -> Intermediate s = [] ->
  exists s' Index Options Return Select2nd Inputs Output TargetArray ItemToFind Found A B Equal,
    ExpandNode s = Some (tt, s') /\
    Intermediate s' =
      [ K2Node_Select Index Options Return; Select2nd;
        K2Node_MakeArray Inputs Output;
        K2Node_CallFunction "Array_Find"
          [("TargetArray", TargetArray); ("ItemToFind", ItemToFind)] Found;
        K2Node_CallFunction "EqualEqual_IntInt" [("A", A); ("B", B)] Equal ] /\
    length Options = Nat.max 2 N /\
    length Inputs = N /\
    (forall i k kpin, (i < N)%nat ->
       Pins s !! (1 + i)%nat = Some k -> Heap s !! k = Some kpin ->
       exists ip, Options !! i = Some ip /\
                  ILinkedTo ip = map ToPin (LinkedTo kpin) /\
                  IDefaultValue ip = DefaultValue kpin) /\
    (forall i ip, (N <= i)%nat -> Options !! i = Some ip -> ILinkedTo ip = []) /\
    (forall k0 kpin0, Pins s !! 1%nat = Some k0 -> Heap s !! k0 = Some kpin0 ->
       Forall (fun ip => IPinType ip = PinType kpin0) Options /\
       IPinType Return = PinType kpin0) /\
    (forall i v vpin, (i < N)%nat ->
       Pins s !! (N + 1 + i)%nat = Some v -> Heap s !! v = Some vpin ->
       exists ip, Inputs !! i = Some ip /\
                  PinCategory (IPinType ip) = PC_Boolean /\
                  ILinkedTo ip = map ToPin (LinkedTo vpin) /\
                  IDefaultValue ip = DefaultValue vpin) /\
    ILinkedTo Output = [ToIntermediate (3%nat, SelParam "TargetArray")] /\
    ILinkedTo TargetArray = [ToIntermediate (2%nat, SelReturn)] /\
    ILinkedTo ItemToFind = [] /\ IDefaultValue ItemToFind = "true" /\
    ILinkedTo Found = [ToIntermediate (0%nat, SelIndex); ToIntermediate (4%nat, SelParam "A")] /\
    ILinkedTo Index = [ToIntermediate (3%nat, SelReturn)] /\
    ILinkedTo A = [ToIntermediate (3%nat, SelReturn)] /\
    ILinkedTo B = [] /\ IDefaultValue B = "-1" /\
    ILinkedTo Equal = [ToIntermediate (1%nat, SelIndex)].
Proof.
  intros HL HN Hi.
  destruct (ExpandNode_laid_out _ _ HL HN Hi)
    as (D & os & cs & R & kpin0 & Hobjs & Hlo & Hlc & Hk0 & Hrun).
  eexists _, _, _, _, _, _, _, _, _, _, _, _, _.
  split; [exact Hrun|].
  split; [reflexivity|].
  split; [rewrite length_move_into, length_replicate, length_map; lia|].
  split; [rewrite length_move_into, length_replicate, length_map; lia|].
  split; [|split; [|split; [|split]]].
  - intros i k kpin Hlt Hk Hkpin.
    destruct (Layout_position _ _ _ _ _ _ i k kpin Hobjs Hkpin) as [Hpos _].
    eexists. split.
    + apply move_into_lookup_lt; [apply Hpos; [lia | exact Hk]|].
      apply lookup_replicate_2. rewrite length_map. lia.
    + split; reflexivity.
  - intros i ip Hge Hip.
    rewrite move_into_lookup_ge in Hip by (rewrite length_map; lia).
    apply lookup_replicate in Hip as [-> _]. reflexivity.
  - intros k0 kpin0' Hk Hkpin.
    destruct (Layout_position _ _ _ _ _ _ 0%nat k0 kpin0' Hobjs Hkpin) as [Hpos _].
    assert (kpin0' = kpin0) by (specialize (Hpos ltac:(lia) Hk); congruence). subst kpin0'.
    split; [|reflexivity].
    apply Forall_move_into; [intros pin ip Hip; exact Hip|].
    apply Forall_replicate. reflexivity.
  - intros i v vpin Hlt Hv Hvpin.
    destruct (Layout_position _ _ _ _ _ _ i v vpin Hobjs Hvpin) as [_ Hpos].
    eexists. split.
    + apply move_into_lookup_lt; [apply Hpos; [lia | rewrite Hlo; exact Hv]|].
      apply lookup_replicate_2. rewrite length_map. lia.
    + repeat split; reflexivity.
  - repeat split; reflexivity.
Qed.

(** C10. The expansion reads case pair 0 before anything else, to type its
    two Select nodes.  On a node with no case pair that first read is out of
    range and the expansion faults.  On every node with N >= 1 case pairs
    that has its default pin and its result pin the expansion runs to its
    end, so the read was in range, and what it read is pair 0: the option
    pins and the return value of Select 1st and the return value of Select
    2nd have the type of the option pin of case pair 0. *)
Theorem expansion_reads_case_pair_zero s pairs :
  GetCasePinPairs s = Some (pairs, s) ->
  (length pairs = 0%nat -> ExpandNode s = None) /\
  ((1 <= length pairs)%nat ->
   forall d r dpin rpin,
     Intermediate s = [] ->
     NoDup (Pins s) ->
     GetDefaultOptionPin s = Some (Some d, s) ->
     Heap s !! d = Some dpin ->
     GetReturnValuePin s = Some (Some r, s) ->
     Heap s !! r = Some rpin ->
     exists Pair0 kpin0 s' Index1 Options1 Return1 Index2 Options2 Return2,
       pairs !! 0%nat = Some Pair0 /\
       Heap s !! fst Pair0 = Some kpin0 /\
       ExpandNode s = Some (tt, s') /\
       Intermediate s' !! 0%nat = Some (K2Node_Select Index1 Options1 Return1) /\
       Intermediate s' !! 1%nat = Some (K2Node_Select Index2 Options2 Return2) /\
       Forall (fun ip => IPinType ip = PinType kpin0) Options1 /\
       IPinType Return1 = PinType kpin0 /\
       IPinType Return2 = PinType kpin0).
Proof.
  intros Hpairs. split.
  - intros H0. destruct pairs; [|discriminate].
    unfold ExpandNode, Super_ExpandNode. mnorm.
    now rewrite (bind_eq _ _ _ _ _ Hpairs).
  - intros HN d r dpin rpin Hi Hnd Hd Hdpin Hr Hrpin.
    destruct (GetCasePinPairs_inv _ _ _ Hpairs) as (objs & Hobjs & Epairs & _).
    assert (Hkv : forall q, q ∈ map fst pairs -> (q < length (Heap s))%nat).
    { intros q Hq. subst pairs. eapply combine_fst_valid; eauto. }
    assert (Hvv : forall q, q ∈ map snd pairs -> (q < length (Heap s))%nat).
    { intros q Hq. subst pairs.
      apply elem_of_map_snd_combine, value_pins_spec in Hq as (qpin & Hin & _).
      eapply lookup_lt_Some. eapply deref_all_lookup; eauto. }
    destruct (valid_pins _ _ Hkv) as [kpins Hkpins].
    destruct (valid_pins _ _ Hvv) as [vpins Hvpins].
    change (map fst pairs) with (fst <$> pairs) in Hkpins.
    change (map snd pairs) with (snd <$> pairs) in Hvpins.
    apply Forall2_fmap_l in Hkpins, Hvpins.
    destruct (ExpandNode_well_formed s pairs d r dpin rpin kpins vpins)
      as (kpin0 & Hk0 & Hrun); try assumption.
    destruct pairs as [|Pair0 rest]; [simpl in HN; lia|].
    inversion Hkpins as [|? kpin0' ? kpins' Hh0 _]; subst.
    cbn in Hk0. injection Hk0 as ->.
    eexists Pair0, kpin0, _, _, _, _, _, _, _.
    split; [reflexivity|]. split; [exact Hh0|]. split; [exact Hrun|].
    destruct s as [h ps g m]. unfold with_Intermediate, with_Heap.
    cbn [Intermediate expanded].
    split; [reflexivity|]. split; [reflexivity|]. split; [|split; reflexivity].
    apply Forall_move_into; [intros pin ip Hip; exact Hip|].
    apply Forall_replicate. reflexivity.
Qed.

(** ** The type discipline is an invariant *)

Lemma TypedLayout_objs T N s :
  TypedLayout T N s <->
  exists objs, deref_all (Heap s) (Pins s) = Some objs /\
               map pin_name_of objs = layout_names N /\
               Forall (fun o => pin_typed T (snd o)) objs.
Proof.
  split.
  - intros [HL Ht]. destruct (Layout_objs _ _ HL) as (objs & Hobjs & Hnames).
    exists objs. split; [exact Hobjs|]. split; [exact Hnames|].
    apply Forall_forall. intros [q qpin] Hin. cbn.
    apply (Ht q); [|eapply deref_all_lookup; eauto].
    rewrite <- (deref_all_fst _ _ _ Hobjs). apply list_elem_of_fmap. now exists (q, qpin).
  - intros (objs & Hobjs & Hnames & Hall). split.
    + apply Layout_iff. unfold pin_names. rewrite Hobjs. cbn. now rewrite Hnames.
    + intros q qpin Hq Hqpin.
      rewrite <- (deref_all_fst _ _ _ Hobjs) in Hq.
      apply list_elem_of_fmap in Hq as ([q' qpin'] & -> & Hin). cbn in Hqpin.
      pose proof (deref_all_lookup _ _ _ _ _ Hobjs Hin) as Hq'.
      assert (qpin' = qpin) by congruence. subst qpin'.
      rewrite Forall_forall in Hall. exact (Hall _ Hin).
Qed.

Lemma AddCasePinPair_typed T N s :
  TypedLayout T N s ->
  (2 * Z.of_nat N + 2 < 2 ^ 31)%Z ->
  exists pair s',
    AddCasePinPair (Z.of_nat N) s = Some (pair, s') /\
    TypedLayout T (S N) s' /\
    Intermediate s' = Intermediate s /\
    (forall n, (n <= length (Heap s))%nat ->
       Forall (fun q => (n <= q)%nat) (Pins s) -> Forall (fun q => (n <= q)%nat) (Pins s')) /\
    exists e, Heap s' = Heap s ++ e.
Proof.
  intros Ht Hb. apply TypedLayout_objs in Ht as (objs & Hobjs & Hnames & Hall).
  assert (Hpn : pin_names s = Some (layout_names N)).
  { unfold pin_names. rewrite Hobjs. cbn. now rewrite Hnames. }
  destruct (AddCasePinPair_layout N s Hpn Hb) as (pair & s' & Hrun & Hpn').
  destruct objs as [|od objs']; [discriminate|].
  assert (Hd : find_named DefaultOptionPinName (od :: objs') = Some (fst od)).
  { apply find_named_head. now inversion Hnames. }
  assert (Hdpin : Heap s !! fst od = Some (snd od)).
  { eapply deref_all_lookup; [exact Hobjs|]. destruct od. apply elem_of_cons. now left. }
  assert (HdT : PinType (snd od) = T).
  { assert (Hn : PinName (snd od) = DefaultOptionPinName) by now inversion Hnames.
    inversion Hall as [|? ? Hod _]; subst. unfold pin_typed in Hod.
    now rewrite Hn in Hod. }
  pose proof (AddCasePinPair_view s _ (Z.of_nat N) _ _ pair s' Hobjs Hd Hdpin Hrun) as Hview.
  pose proof (AddCasePinPair_eq s _ (Z.of_nat N) _ _ Hobjs Hd Hdpin) as Heq.
  rewrite Hrun in Heq. injection Heq as Hpair Hs'.
  exists pair, s'. split; [exact Hrun|]. split; [|split; [|split]].
  - apply TypedLayout_objs. eexists. split; [exact Hview|]. split.
    + unfold pin_names in Hpn'. rewrite Hview in Hpn'. now inversion Hpn'.
    + apply Forall_place; [|apply Forall_place; [|exact Hall]].
      * unfold pin_typed. cbn [snd new_value_pin PinName PinType PinCategory].
        now rewrite IsCaseValuePinName_condition.
      * unfold pin_typed. cbn [snd new_key_pin PinName PinType].
        now rewrite IsCaseValuePinName_option.
  - rewrite Hs'. now destruct s.
  - intros n Hn Hall'. rewrite Hs'. destruct s as [h ps g m].
    cbn [Heap Pins with_Pins with_Heap] in *.
    apply Forall_place; [lia|]. apply Forall_place; [lia|]. exact Hall'.
  - eexists. rewrite Hs'. now destruct s.
Qed.

Lemma add_pairs_typed T K :
  forall N s,
    TypedLayout T N s ->
    (2 * (Z.of_nat N + Z.of_nat K) < 2 ^ 31)%Z ->
    exists s',
      for_each (seqZ (Z.of_nat N) (Z.of_nat K))
        (fun Index => AddCasePinPair Index ;; ret tt) s = Some (tt, s') /\
      TypedLayout T (N + K) s' /\
      Intermediate s' = Intermediate s /\
      (forall n, (n <= length (Heap s))%nat ->
         Forall (fun q => (n <= q)%nat) (Pins s) -> Forall (fun q => (n <= q)%nat) (Pins s')) /\
      exists e, Heap s' = Heap s ++ e.
Proof.
  induction K as [|K IH]; intros N s Ht Hb.
  - exists s. split; [reflexivity|]. rewrite Nat.add_0_r. split; [exact Ht|].
    split; [reflexivity|]. split; [auto|]. exists []. now rewrite app_nil_r.
  - rewrite Nat2Z.inj_succ, seqZ_cons by lia.
    replace (Z.pred (Z.succ (Z.of_nat K))) with (Z.of_nat K) by lia.
    replace (Z.succ (Z.of_nat N)) with (Z.of_nat (S N)) by lia.
    destruct (AddCasePinPair_typed T N s Ht)
      as (pair & s1 & Hrun & Ht1 & Hi1 & Hf1 & e1 & He1); [lia|].
    destruct (IH (S N) s1 Ht1) as (s' & Hloop & Ht' & Hi' & Hf' & e' & He'); [lia|].
    exists s'. split.
    + cbn [for_each]. mnorm. rewrite (bind_eq _ _ _ _ _ Hrun). mnorm. exact Hloop.
    + replace (N + S K)%nat with (S N + K)%nat by lia. split; [exact Ht'|].
      split; [congruence|]. split.
      * intros n Hn Hall. apply Hf'; [|now apply Hf1].
        rewrite He1, length_app. lia.
      * exists (e1 ++ e'). now rewrite He', He1, app_assoc.
Qed.

Lemma Create_default_return_typed s :
  TypedLayout wildcard_type 0
    (with_Pins [length (Heap s); S (length (Heap s))]
       (with_Heap (Heap s ++ [new_default_pin; new_return_pin]) s)).
Proof.
  apply TypedLayout_objs.
  exists [(length (Heap s), new_default_pin); (S (length (Heap s)), new_return_pin)].
  split.
  - destruct s as [h ps g m]. cbn [Heap Pins with_Pins with_Heap deref_all].
    change (h ++ [new_default_pin; new_return_pin])
      with (h ++ [new_default_pin] ++ [new_return_pin]).
    rewrite app_assoc.
    rewrite (lookup_app_l _ _ (length h)) by (rewrite length_app; simpl; lia).
    rewrite lookup_end.
    replace (S (length h)) with (length (h ++ [new_default_pin]))
      by (rewrite length_app; simpl; lia).
    now rewrite lookup_end.
  - split; [reflexivity|]. repeat constructor.
Qed.

(** Initial allocation establishes the discipline: the node gets two case
    pairs in the layout, its default pin, its result pin and its two option
    pins are wildcard, and its two condition pins are boolean. *)
Theorem allocation_types s :
  Pins s = [] ->
  exists s', AllocateDefaultPins s = Some (tt, s') /\ TypedLayout wildcard_type 2 s'.
Proof.
  intros Hp. unfold AllocateDefaultPins.
  rewrite (Create_default_return_eq _ _ Hp).
  destruct (add_pairs_typed wildcard_type 2 0 _ (Create_default_return_typed s))
    as (s' & Hloop & Ht & _); [simpl; lia|].
  exists s'. split; [|exact Ht].
  unfold for_range. change (seqZ 0 (2 - 0)) with (seqZ (Z.of_nat 0) (Z.of_nat 2)).
  rewrite (bind_eq _ _ _ _ _ Hloop). reflexivity.
Qed.

(** Adding a case pair at the end keeps the discipline: the node has one
    more pair, still laid out, the new option pin has the common type and
    the new condition pin is boolean; no existing pin object is changed. *)
Theorem add_case_pair_keeps_types T N s :
  TypedLayout T N s ->
  (2 * Z.of_nat N + 2 < 2 ^ 31)%Z ->
  exists pair s',
    AddCasePinPair (Z.of_nat N) s = Some (pair, s') /\
    TypedLayout T (S N) s' /\
    forall q qpin, Heap s !! q = Some qpin -> Heap s' !! q = Some qpin.
Proof.
  intros Ht Hb.
  destruct (AddCasePinPair_typed T N s Ht Hb) as (pair & s' & Hrun & Ht' & _ & _ & e & He).
  exists pair, s'. split; [exact Hrun|]. split; [exact Ht'|].
  intros q qpin Hq. rewrite He. apply lookup_app_l_Some. exact Hq.
Qed.

Lemma Layout_block_names N (os cs : list (PinPtr * UEdGraphPin)) :
  map pin_name_of os = option_names N ->
  map pin_name_of cs = condition_names N ->
  Forall (fun o => IsCaseValuePinName (PinName (snd o)) = false) os /\
  Forall (fun o => IsCaseValuePinName (PinName (snd o)) = true) cs.
Proof.
  intros Ho Hc. split.
  - apply (Forall_names (fun Name => IsCaseValuePinName Name = false) _ _ Ho).
    apply Forall_forall. intros Name H. now apply elem_of_option_names in H.
  - apply (Forall_names (fun Name => IsCaseValuePinName Name = true) _ _ Hc).
    apply Forall_forall. intros Name H. now apply elem_of_condition_names in H.
Qed.

(** After the pins [qs] of a uniformly named node were rewritten by [f],
    which gives a pin the type [T'] and keeps its name, the node follows the
    discipline for [T'] when [qs] holds every pin that is not a condition pin
    and no condition pin. *)
Lemma TypedLayout_alter_all T T' N f s :
  (forall x, f (f x) = f x) ->
  (forall x, PinName (f x) = PinName x) ->
  (forall x, PinType (f x) = T') ->
  TypedLayout T N s ->
  forall D os cs R,
    deref_all (Heap s) (Pins s) = Some ((D :: os) ++ cs ++ [R]) ->
    pin_name_of D = DefaultOptionPinName ->
    map pin_name_of os = option_names N ->
    map pin_name_of cs = condition_names N ->
    pin_name_of R = ReturnValueOptionPinName ->
    NoDup (Pins s) ->
    forall m,
      TypedLayout T' N
        (with_Modified m
           (with_Heap (alter_all f (fst D :: fst R :: map fst os) (Heap s)) s)).
Proof.
  intros Hidem Hname HT' [HL Ht] D os cs R Hobjs HD Ho Hc HR Hnd m.
  destruct (Layout_block_names _ _ _ Ho Hc) as [Hov Hcv].
  set (qs := fst D :: fst R :: map fst os).
  split.
  - apply Layout_iff. unfold pin_names.
    destruct s as [h ps g m0]. cbn [Heap Pins with_Modified with_Heap] in *.
    destruct (deref_all_alter_all f qs h ps _ Hname Hobjs) as (objs' & Hobjs' & Hshape).
    rewrite Hobjs'. cbn. f_equal. rewrite (shape_names _ _ Hshape).
    apply Layout_iff in HL. unfold pin_names in HL. cbn [Heap Pins] in HL.
    rewrite Hobjs in HL. now inversion HL.
  - intros q qpin' Hq Hqpin'.
    assert (Hps : Pins (with_Modified m (with_Heap (alter_all f qs (Heap s)) s)) = Pins s)
      by now destruct s.
    assert (Hhp : Heap (with_Modified m (with_Heap (alter_all f qs (Heap s)) s)) =
                  alter_all f qs (Heap s)) by now destruct s.
    rewrite Hps in Hq. rewrite Hhp in Hqpin'. clear Hps Hhp.
    rewrite (lookup_alter_all _ _ _ _ Hidem) in Hqpin'.
    pose proof Hq as Hq0.
    rewrite <- (deref_all_fst _ _ _ Hobjs) in Hq.
    apply list_elem_of_fmap in Hq as ([q' qpin] & -> & Hin). cbn [fst] in *.
    pose proof (deref_all_lookup _ _ _ _ _ Hobjs Hin) as Hqpin.
    rewrite Hqpin in Hqpin'. cbn in Hqpin'.
    change ((D :: os) ++ cs ++ [R]) with ([D] ++ os ++ cs ++ [R]) in Hin.
    rewrite !elem_of_app, !list_elem_of_singleton in Hin.
    assert (Hcase : (q' ∈ qs /\ IsCaseValuePinName (PinName qpin) = false) \/
                    ((q' ∉ qs) /\ IsCaseValuePinName (PinName qpin) = true)).
    { destruct Hin as [HeqD|[Hino|[Hinc|HeqR]]].
      - left. subst D. split; [apply elem_of_cons; now left|].
        unfold pin_name_of in HD. cbn in HD. now rewrite HD.
      - left. split.
        + unfold qs. do 2 (apply elem_of_cons; right).
          apply list_elem_of_fmap. now exists (q', qpin).
        + rewrite Forall_forall in Hov. exact (Hov _ Hino).
      - right. split; [|rewrite Forall_forall in Hcv; exact (Hcv _ Hinc)].
        (* a condition pin is at another position than the pins of [qs] *)
        rewrite <- (deref_all_fst _ _ _ Hobjs) in Hnd.
        change ((D :: os) ++ cs ++ [R]) with ([D] ++ os ++ cs ++ [R]) in Hnd.
        rewrite !map_app in Hnd.
        apply NoDup_app in Hnd as (_ & HD' & Hnd).
        apply NoDup_app in Hnd as (_ & Ho' & Hnd).
        apply NoDup_app in Hnd as (_ & Hc' & _).
        assert (Hq'c : q' ∈ map fst cs) by (apply list_elem_of_fmap; now exists (q', qpin)).
        unfold qs. rewrite !not_elem_of_cons. repeat split.
        * intros ->. apply (HD' (fst D)); [apply list_elem_of_singleton; reflexivity|].
          apply elem_of_app. right. apply elem_of_app. now left.
        * intros ->. apply (Hc' (fst R)); [exact Hq'c|].
          apply list_elem_of_singleton. reflexivity.
        * intros Hk. apply (Ho' q'); [exact Hk|]. apply elem_of_app. now left.
      - left. subst R. split; [apply elem_of_cons; right; apply elem_of_cons; now left|].
        unfold pin_name_of in HR. cbn in HR. now rewrite HR. }
    destruct Hcase as [[Hqs Hv]|[Hqs Hv]].
    + rewrite (bool_decide_eq_true_2 _ Hqs) in Hqpin'. inversion Hqpin'; subst qpin'.
      unfold pin_typed. rewrite Hname, Hv. apply HT'.
    + rewrite (bool_decide_eq_false_2 _ Hqs) in Hqpin'. inversion Hqpin'; subst qpin'.
      specialize (Ht q' qpin Hq0 Hqpin). unfold pin_typed in *. cbn [id].
      now rewrite Hv in *.
Qed.

(** A laid-out node split into its blocks, with what the lookups return. *)
Lemma TypedLayout_blocks T N s :
  TypedLayout T N s ->
  exists D os cs R,
    deref_all (Heap s) (Pins s) = Some ((D :: os) ++ cs ++ [R]) /\
    pin_name_of D = DefaultOptionPinName /\
    map pin_name_of os = option_names N /\
    map pin_name_of cs = condition_names N /\
    pin_name_of R = ReturnValueOptionPinName /\
    Heap s !! fst D = Some (snd D) /\ PinType (snd D) = T /\
    find_named DefaultOptionPinName ((D :: os) ++ cs ++ [R]) = Some (fst D) /\
    find_named ReturnValueOptionPinName ((D :: os) ++ cs ++ [R]) = Some (fst R) /\
    combine (key_pins ((D :: os) ++ cs ++ [R])) (value_pins ((D :: os) ++ cs ++ [R])) =
      combine (map fst os) (map fst cs) /\
    map fst (combine (map fst os) (map fst cs)) = map fst os.
Proof.
  intros [HL Ht].
  destruct (Layout_view _ _ HL)
    as (D & os & cs & R & Hobjs & (HD & Ho & Hc & HR) & Hlo & Hlc & HfD & HfR & Hk & Hv).
  cbn zeta in *.
  exists D, os, cs, R.
  assert (HhD : Heap s !! fst D = Some (snd D)).
  { eapply deref_all_lookup; [exact Hobjs|]. destruct D. apply elem_of_cons. now left. }
  repeat (split; [assumption|]).
  split.
  { assert (HinD : fst D ∈ Pins s).
    { rewrite <- (deref_all_fst _ _ _ Hobjs). cbn. apply elem_of_cons. now left. }
    specialize (Ht _ _ HinD HhD). unfold pin_typed in Ht.
    unfold pin_name_of in HD. now rewrite HD in Ht. }
  split; [exact HfD|]. split; [exact HfR|].
  split; [now rewrite Hk, Hv|].
  apply map_fst_combine. rewrite !length_map. lia.
Qed.

(** Connection events keep the discipline: whatever pin the notification is
    about, a laid-out node whose pins follow the discipline stays laid out
    with the same number of case pairs and follows the discipline again, and
    the common type changes only if it was wildcard. *)
Theorem connection_keeps_types Schema T N s p pin :
  TypedLayout T N s ->
  Heap s !! p = Some pin ->
  (forall L, LinkedTo pin !! 0%nat = Some L -> is_Some (Heap s !! L)) ->
  exists T' s',
    PinConnectionListChanged Schema (Some p) s = Some (tt, s') /\
    TypedLayout T' N s' /\
    (PinCategory T <> PC_Wildcard -> T' = T /\ s' = s).
Proof.
  intros Ht Hp HL.
  pose proof (Layout_NoDup _ _ (proj1 Ht)) as Hnd.
  destruct (TypedLayout_blocks _ _ _ Ht)
    as (D & os & cs & R & Hobjs & HD & Ho & Hc & HR & HhD & HDT & HfD & HfR & Hpairs & Hkeys).
  destruct (String.eqb_spec (PinCategory T) PC_Wildcard) as [Hw|Hw].
  - destruct (LinkedTo pin) as [|L ls] eqn:Hl.
    { exists T, s. split; [|split; [exact Ht | tauto]].
      apply (connection_event_ignored_aux Schema s p pin Hp). left. exact Hl. }
    destruct (IsCaseValuePinName (PinName pin)) eqn:Hv.
    { exists T, s. split; [|split; [exact Ht | tauto]].
      apply (connection_event_ignored_aux Schema s p pin Hp). now right. }
    destruct (HL L eq_refl) as [lpin HLpin].
    exists (PinType lpin). eexists. split.
    { eapply (PinConnectionListChanged_unify Schema s p pin L lpin); eauto.
      - now rewrite Hl.
      - now rewrite HDT. }
    split; [|intros Hc'; contradiction].
    rewrite Hpairs, Hkeys.
    eapply (TypedLayout_alter_all T); eauto.
  - exists T, s. split; [|split; [exact Ht | tauto]].
    eapply PinConnectionListChanged_fixed.
    + erewrite find_pin_objs by exact Hobjs. now rewrite HfD.
    + exact HhD.
    + now rewrite HDT.
    + intros p' Hp'. inversion Hp'; subst p'. eapply lookup_lt_Some; eauto.
Qed.

(** ** Reconstruction *)

Lemma find_old_default_eq OldPins :
  forall acc s objs,
    deref_all (Heap s) OldPins = Some objs ->
    find_old_default OldPins acc s =
    Some (from_option Some acc
            (last (List.filter
                     (fun o => String.eqb (PinName (snd o)) DefaultOptionPinName) objs)
               ≫= fun o => Some (fst o)),
          s).
Proof.
  induction OldPins as [|p ps IH]; intros acc s objs H; cbn in H.
  - inversion H. reflexivity.
  - destruct (Heap s !! p) as [pin|] eqn:Hp; [|discriminate].
    destruct (deref_all (Heap s) ps) as [r|] eqn:Hr; [|discriminate].
    inversion H; subst objs. cbn [find_old_default].
    rewrite (bind_eq _ _ _ _ _ (read_pin_eq s p pin Hp)).
    cbn [List.filter snd].
    destruct (String.eqb (PinName pin) DefaultOptionPinName).
    + rewrite (IH _ _ _ Hr). f_equal. f_equal.
      destruct (List.filter _ r) as [|x l] eqn:Hf; [reflexivity|].
      change (last ((p, pin) :: x :: l)) with (last (x :: l)).
      destruct (last (x :: l)) as [y|] eqn:Hl; [reflexivity|].
      apply last_None in Hl. discriminate.
    + now rewrite (IH _ _ _ Hr).
Qed.

(** The second half of [ReallocatePinsDuringReconstruction] on a laid-out
    node: the type of the old pin is written to the default pin, the result
    pin and every option pin. *)
Lemma copy_types_eq T N s o opin :
  TypedLayout T N s ->
  Heap s !! o = Some opin ->
  exists D os cs R,
    deref_all (Heap s) (Pins s) = Some ((D :: os) ++ cs ++ [R]) /\
    pin_name_of D = DefaultOptionPinName /\
    map pin_name_of os = option_names N /\
    map pin_name_of cs = condition_names N /\
    pin_name_of R = ReturnValueOptionPinName /\
    (D0 <- GetDefaultOptionPin ;;
     o0 <- read_pin (Some o) ;;
     write_pin D0 (with_PinType (PinType o0)) ;;
     R0 <- GetReturnValuePin ;;
     o1 <- read_pin (Some o) ;;
     write_pin R0 (with_PinType (PinType o1)) ;;
     CasePinPairs <- GetCasePinPairs ;;
     for_each CasePinPairs (fun Pair =>
       o2 <- read_pin (Some o) ;;
       write_pin (Some (fst Pair)) (with_PinType (PinType o2)))) s =
    Some (tt, with_Heap
                (alter_all (with_PinType (PinType opin))
                   (fst D :: fst R :: map fst os) (Heap s)) s).
Proof.
  intros Ht Ho.
  destruct (TypedLayout_blocks _ _ _ Ht)
    as (D & os & cs & R & Hobjs & HD & Hos & Hcs & HR & HhD & HDT & HfD & HfR & Hpairs & Hkeys).
  exists D, os, cs, R. repeat (split; [assumption|]).
  set (T' := PinType opin). set (f := with_PinType T').
  assert (Hfname : forall x, PinName (f x) = PinName x) by reflexivity.
  assert (HfT : forall x, PinType (f x) = T') by reflexivity.
  unfold GetDefaultOptionPin at 1.
  rewrite (bind_eq _ _ _ _ _ (FindPin_eq s _ _ Hobjs)), HfD.
  rewrite (settype_at_eq s o opin (fst D) (snd D) _ Ho HhD). fold T'. fold f.
  set (s4 := with_Heap (alter f (fst D) (Heap s)) s).
  destruct (deref_all_alter f (fst D) (Heap s) (Pins s) _ Hfname Hobjs)
    as (objs4 & Hobjs4 & Hs4).
  destruct (find_named_lookup _ _ _ _ _ Hobjs HfR) as (rpin & Hrpin & _ & _).
  unfold GetReturnValuePin at 1.
  assert (Hp4 : Pins s4 = Pins s) by now destruct s.
  assert (Hh4 : Heap s4 = alter f (fst D) (Heap s)) by now destruct s.
  rewrite <- Hh4, <- Hp4 in Hobjs4.
  rewrite (bind_eq _ _ _ _ _ (FindPin_eq s4 objs4 _ Hobjs4)).
  rewrite (shape_find_named _ _ _ Hs4), HfR.
  destruct (lookup_alter_type f (fst D) (Heap s) o opin T' HfT Ho eq_refl)
    as (opin4 & Ho4 & HT4).
  rewrite <- Hh4 in Ho4.
  assert (Hr4 : exists rpin4, Heap s4 !! fst R = Some rpin4).
  { apply lookup_lt_is_Some_2. rewrite Hh4, length_alter. eapply lookup_lt_Some; eauto. }
  destruct Hr4 as [rpin4 Hr4].
  rewrite (settype_at_eq s4 o opin4 (fst R) rpin4 _ Ho4 Hr4). rewrite HT4. fold f.
  set (s5 := with_Heap (alter f (fst R) (Heap s4)) s4).
  destruct (deref_all_alter f (fst R) _ _ _ Hfname Hobjs4) as (objs5 & Hobjs5 & Hs5).
  assert (Hp5 : Pins s5 = Pins s4) by now destruct s4.
  assert (Hh5 : Heap s5 = alter f (fst R) (Heap s4)) by now destruct s4.
  rewrite <- Hh5, <- Hp5 in Hobjs5.
  rewrite (bind_eq _ _ _ _ _ (GetCasePinPairs_eq s5 objs5 Hobjs5)).
  rewrite (shape_key_pins objs5 ((D :: os) ++ cs ++ [R])),
          (shape_value_pins objs5 ((D :: os) ++ cs ++ [R])) by congruence.
  rewrite Hpairs.
  destruct (lookup_alter_type f (fst R) (Heap s4) o opin4 T' HfT Ho4 HT4)
    as (opin5 & Ho5 & HT5).
  rewrite <- Hh5 in Ho5.
  rewrite (alter_loop _ f o T' HfT) with (lpin := opin5); try assumption.
  - rewrite Hkeys. destruct s as [h ps g m]. reflexivity.
  - intros s0 Pair lpin qpin HL HT Hq. rewrite (settype_body_eq s0 o lpin _ qpin HL Hq).
    now rewrite HT.
  - intros q Hq. rewrite Hh5, Hh4, !length_alter. rewrite <- Hpairs in Hq.
    eapply combine_fst_valid; eauto.
Qed.

Lemma Reallocate_typed s OldPins oobjs :
  Pins s = [] ->
  deref_all (Heap s) OldPins = Some oobjs ->
  (2 * Z.of_nat (length (key_pins oobjs)) + 2 < 2 ^ 31)%Z ->
  exists s',
    ReallocatePinsDuringReconstruction OldPins s = Some (tt, s') /\
    TypedLayout
      (match last (List.filter
                     (fun o => String.eqb (PinName (snd o)) DefaultOptionPinName) oobjs) with
       | Some o => PinType (snd o)
       | None => wildcard_type
       end)
      (length (key_pins oobjs)) s' /\
    length (Heap s) <= length (Heap s') /\
    (forall q qpin, Heap s !! q = Some qpin -> Heap s' !! q = Some qpin).
Proof.
  intros Hp Hoobjs Hb.
  unfold ReallocatePinsDuringReconstruction.
  rewrite (bind_eq _ _ _ _ _ (find_old_default_eq OldPins None s oobjs Hoobjs)).
  rewrite (Create_default_return_eq _ _ Hp).
  set (s2 := with_Pins [length (Heap s); S (length (Heap s))]
               (with_Heap (Heap s ++ [new_default_pin; new_return_pin]) s)).
  assert (Hh2 : Heap s2 = Heap s ++ [new_default_pin; new_return_pin]) by now destruct s.
  assert (Hp2 : Pins s2 = [length (Heap s); S (length (Heap s))]) by now destruct s.
  destruct (add_pairs_typed wildcard_type (length (key_pins oobjs)) 0 s2
              (Create_default_return_typed s))
    as (s3 & Hloop & Ht3 & _ & Hfresh & e & He); [simpl; lia|].
  cbn [Nat.add] in Ht3.
  specialize (Hfresh (length (Heap s))).
  rewrite Hh2, length_app, Hp2 in Hfresh.
  assert (Hnew : Forall (fun q => (length (Heap s) <= q)%nat) (Pins s3)).
  { apply Hfresh; [lia|]. repeat constructor; lia. }
  clear Hfresh.
  assert (Hrun3 : forall A (k : unit -> M A),
            (x <- Super_ReallocatePinsDuringReconstruction OldPins ;; k x) s2 = k tt s3).
  { intros A k. unfold Super_ReallocatePinsDuringReconstruction. mnorm.
    unfold get_world at 1. unfold bind at 1. mnorm.
    assert (Hobjs2 : deref_all (Heap s2) OldPins = Some oobjs)
      by (rewrite Hh2; now apply deref_all_grow).
    rewrite Hobjs2. cbn [lift_option]. mnorm.
    unfold for_range. rewrite wrap32_small by lia. rewrite Z.sub_0_r.
    change 0%Z with (Z.of_nat 0).
    now rewrite (bind_eq _ _ _ _ _ Hloop). }
  rewrite Hrun3. clear Hrun3.
  assert (Hold : forall q qpin, Heap s !! q = Some qpin -> Heap s3 !! q = Some qpin).
  { intros q qpin Hq. rewrite He, Hh2. now do 2 apply lookup_app_l_Some. }
  assert (Hlen : length (Heap s) <= length (Heap s3)).
  { rewrite He, Hh2, !length_app. lia. }
  destruct (last (List.filter _ oobjs)) as [[o opin]|] eqn:Hlast; cbn [mbind option_bind from_option fst snd].
  - assert (Ho : Heap s !! o = Some opin).
    { eapply deref_all_lookup; [exact Hoobjs|].
      apply last_Some_elem_of in Hlast. apply list_elem_of_In in Hlast.
      apply List.filter_In in Hlast as [Hin _]. now apply list_elem_of_In. }
    destruct (copy_types_eq _ _ s3 o opin Ht3 (Hold _ _ Ho))
      as (D & os & cs & R & Hobjs & HD & Hos & Hcs & HR & Hrun).
    eexists. split; [exact Hrun|].
    split; [|split].
    + pose proof (TypedLayout_alter_all wildcard_type (PinType opin) _
                    (with_PinType (PinType opin)) s3
                    (fun x => eq_refl) (fun x => eq_refl) (fun x => eq_refl) Ht3
                    D os cs R Hobjs HD Hos Hcs HR (Layout_NoDup _ _ (proj1 Ht3))
                    (Modified s3)) as Ht'.
      destruct s3 as [h3 ps3 g3 m3]. exact Ht'.
    + destruct s3 as [h3 ps3 g3 m3]. cbn [Heap with_Heap] in *.
      rewrite length_alter_all. exact Hlen.
    + intros q qpin Hq.
      assert (Hh' : Heap (with_Heap (alter_all (with_PinType (PinType opin))
                                       (fst D :: fst R :: map fst os) (Heap s3)) s3) =
                    alter_all (with_PinType (PinType opin))
                      (fst D :: fst R :: map fst os) (Heap s3)) by now destruct s3.
      rewrite Hh'. rewrite lookup_alter_all_notin; [now apply Hold | reflexivity |].
      intros Hin.
      assert (Hq3 : q ∈ Pins s3).
      { rewrite <- (deref_all_fst _ _ _ Hobjs).
        change ((D :: os) ++ cs ++ [R]) with ([D] ++ os ++ cs ++ [R]).
        rewrite !map_app. rewrite !elem_of_cons in Hin.
        rewrite !elem_of_app. cbn [map]. rewrite !list_elem_of_singleton. tauto. }
      rewrite Forall_forall in Hnew. specialize (Hnew _ Hq3).
      apply lookup_lt_Some in Hq. lia.
  - exists s3. split; [reflexivity|]. split; [exact Ht3|]. split; [exact Hlen | exact Hold].
Qed.

Lemma filter_default_blocks N D (os cs : list (PinPtr * UEdGraphPin)) R :
  pin_name_of D = DefaultOptionPinName ->
  map pin_name_of os = option_names N ->
  map pin_name_of cs = condition_names N ->
  pin_name_of R = ReturnValueOptionPinName ->
  List.filter (fun o => String.eqb (PinName (snd o)) DefaultOptionPinName)
    ((D :: os) ++ cs ++ [R]) = [D].
Proof.
  intros HD Ho Hc HR. unfold pin_name_of in *.
  change ((D :: os) ++ cs ++ [R]) with ([D] ++ os ++ cs ++ [R]).
  rewrite !List.filter_app. cbn [List.filter]. rewrite HD, HR.
  assert (Hfo : List.filter (fun o => String.eqb (PinName (snd o)) DefaultOptionPinName) os = []).
  { apply (filter_names_none (fun o => PinName (snd o))
             (fun Name => String.eqb Name DefaultOptionPinName)).
    rewrite Ho. clear. unfold option_names.
    induction (seqZ 0 (Z.of_nat N)) as [|i l IH]; [reflexivity|].
    cbn [map List.filter]. change (GetCasePinName CaseKeyPinNamePrefix i =? DefaultOptionPinName)
      with false. exact IH. }
  assert (Hfc : List.filter (fun o => String.eqb (PinName (snd o)) DefaultOptionPinName) cs = []).
  { apply (filter_names_none (fun o => PinName (snd o))
             (fun Name => String.eqb Name DefaultOptionPinName)).
    rewrite Hc. clear. unfold condition_names.
    induction (seqZ 0 (Z.of_nat N)) as [|i l IH]; [reflexivity|].
    cbn [map List.filter]. change (GetCasePinName CaseValuePinNamePrefix i =? DefaultOptionPinName)
      with false. exact IH. }
  rewrite Hfo, Hfc. reflexivity.
Qed.

(** What reallocation during reconstruction builds.  When the pin array of
    the node is empty and the old pins can be read, the function does not
    fault; the node is laid out again with as many case pairs as the old pin
    set has option pins; its pins follow the discipline for the type of the
    last old pin named like the default pin, for wildcard when there is none;
    and no old pin object is written to. *)
Theorem reallocation_rebuilds_the_node s OldPins oobjs :
  Pins s = [] ->
  deref_all (Heap s) OldPins = Some oobjs ->
  (2 * Z.of_nat (length (key_pins oobjs)) + 2 < 2 ^ 31)%Z ->
  exists s',
    ReallocatePinsDuringReconstruction OldPins s = Some (tt, s') /\
    TypedLayout
      (match last (List.filter
                     (fun o => String.eqb (PinName (snd o)) DefaultOptionPinName) oobjs) with
       | Some o => PinType (snd o)
       | None => wildcard_type
       end)
      (length (key_pins oobjs)) s' /\
    (forall q qpin, Heap s !! q = Some qpin -> Heap s' !! q = Some qpin).
Proof.
  intros Hp Hoobjs Hb.
  destruct (Reallocate_typed s OldPins oobjs Hp Hoobjs Hb) as (s' & Hrun & Ht & _ & Hold).
  now exists s'.
Qed.

(** Reconstruction is a round trip: a laid-out node whose pins follow the
    discipline for [T] is rebuilt with the same number of case pairs, laid
    out, and following the discipline for the same [T]. *)
Theorem reconstruct_round_trip T N s :
  TypedLayout T N s ->
  (2 * Z.of_nat N + 2 < 2 ^ 31)%Z ->
  exists s', ReconstructNode s = Some (tt, s') /\ TypedLayout T N s'.
Proof.
  intros Ht Hb.
  destruct (TypedLayout_blocks _ _ _ Ht)
    as (D & os & cs & R & Hobjs & HD & Hos & Hcs & HR & HhD & HDT & HfD & HfR & Hpairs & Hkeys).
  assert (HK : length (key_pins ((D :: os) ++ cs ++ [R])) = N).
  { destruct (Layout_objs _ _ (proj1 Ht)) as (objs0 & Hobjs0 & Hnames0).
    assert (objs0 = (D :: os) ++ cs ++ [R]) by congruence. subst objs0.
    now rewrite key_pins_length, Hnames0, filter_key_layout_names, length_option_names. }
  destruct (Reallocate_typed (with_Pins [] s) (Pins s) ((D :: os) ++ cs ++ [R]))
    as (s' & Hrun & Ht' & _).
  - now destruct s.
  - now destruct s.
  - rewrite HK. exact Hb.
  - exists s'. split.
    + unfold ReconstructNode. unfold get_world at 1. unfold bind at 1.
      unfold bind at 1. exact Hrun.
    + rewrite HK in Ht'.
      rewrite (filter_default_blocks N D os cs R HD Hos Hcs HR) in Ht'.
      cbn [last] in Ht'. now rewrite HDT in Ht'.
Qed.

(** ** Adding a case pair *)

Lemma combine_snoc {A B} (l1 : list A) (l2 : list B) x y :
  length l1 = length l2 ->
  combine (l1 ++ [x]) (l2 ++ [y]) = combine l1 l2 ++ [(x, y)].
Proof.
  revert l2. induction l1 as [|a l1 IH]; intros [|b l2] H; try discriminate; cbn.
  - reflexivity.
  - f_equal. apply IH. now inversion H.
Qed.

(** [AddCasePinPair] reads the type of the default pin without a null
    check: on a node that has no pin named like the default pin it
    faults. *)
Theorem add_case_pair_needs_default_pin s objs CaseIndex :
  deref_all (Heap s) (Pins s) = Some objs ->
  find_named DefaultOptionPinName objs = None ->
  AddCasePinPair CaseIndex s = None.
Proof.
  intros Hobjs Hnone. unfold AddCasePinPair.
  rewrite (bind_eq _ _ _ _ _ (GetCasePinCount_eq s objs Hobjs)).
  unfold GetDefaultOptionPin.
  rewrite (bind_eq _ _ _ _ _ (FindPin_eq s objs _ Hobjs)), Hnone.
  unfold CreatePin at 1. unfold bind at 1.
  unfold write_pin at 1. unfold bind at 1.
  destruct s as [h ps g m]. cbn [Heap Pins with_Pins with_Heap].
  rewrite lookup_end. reflexivity.
Qed.

(** Adding a case pair to a laid-out node at the end: the two pins are new
    objects, the pair the function returns is the last case pair of the node
    afterwards, behind the pairs the node had, and the default pin and the
    result pin are found as before. *)
Theorem add_case_pair_appends_pair N s :
  Layout N s ->
  (2 * Z.of_nat N + 2 < 2 ^ 31)%Z ->
  exists pairs d r Key Value s',
    GetCasePinPairs s = Some (pairs, s) /\
    GetDefaultOptionPin s = Some (Some d, s) /\
    GetReturnValuePin s = Some (Some r, s) /\
    AddCasePinPair (Z.of_nat N) s = Some ((Key, Value), s') /\
    GetCasePinPairs s' = Some (pairs ++ [(Key, Value)], s') /\
    GetDefaultOptionPin s' = Some (Some d, s') /\
    GetReturnValuePin s' = Some (Some r, s') /\
    Key = length (Heap s) /\ Value = S (length (Heap s)) /\
    length (Heap s') = (length (Heap s) + 2)%nat.
Proof.
  intros HL Hb.
  destruct (Layout_view _ _ HL)
    as (D & os & cs & R & Hobjs & (HD & Ho & Hc & HR) & Hlo & Hlc & HfD & HfR & Hk & Hv).
  cbn zeta in *.
  assert (HhD : Heap s !! fst D = Some (snd D)).
  { eapply deref_all_lookup; [exact Hobjs|]. destruct D. apply elem_of_cons. now left. }
  pose proof (AddCasePinPair_eq s _ (Z.of_nat N) _ _ Hobjs HfD HhD) as Hrun.
  match type of Hrun with _ = Some (_, ?st) => remember st as s' eqn:Es' end.
  pose proof (AddCasePinPair_view s _ (Z.of_nat N) _ _ _ _ Hobjs HfD HhD Hrun) as Hview.
  rewrite Hk, length_map, Hlo in Hview.
  rewrite (wrap32_small (1 + _)) in Hview by lia.
  rewrite (wrap32_small (Z.of_nat N)) in Hview by lia.
  rewrite (wrap32_small (Z.of_nat N + 2)) in Hview by lia.
  rewrite (wrap32_small (Z.of_nat N + 2 + _)) in Hview by lia.
  rewrite place_layout_step in Hview by (rewrite ?Hlo, ?Hlc; lia).
  set (k := (length (Heap s), new_key_pin (Z.of_nat N) (PinType (snd D)))) in *.
  set (v := (S (length (Heap s)), new_value_pin (Z.of_nat N))) in *.
  assert (HL' : Layout (S N) s').
  { apply Layout_iff. unfold pin_names. rewrite Hview. cbn [fmap option_fmap option_map].
    f_equal. cbn [map app]. rewrite !map_app. cbn [map].
    unfold pin_name_of in *. rewrite HD, Ho, Hc, HR.
    unfold layout_names. now rewrite option_names_S, condition_names_S. }
  destruct (Layout_view _ _ HL')
    as (D' & os' & cs' & R' & Hobjs' & _ & Hlo' & Hlc' & HfD' & HfR' & Hk' & Hv').
  cbn zeta in *.
  assert (E : (D :: os ++ [k]) ++ (cs ++ [v]) ++ [R] = (D' :: os') ++ cs' ++ [R'])
    by congruence.
  cbn [app] in E. injection E as ED E.
  apply app_inj_1 in E as [Eo E]; [|rewrite length_app; cbn; lia].
  apply app_inj_1 in E as [Ec E]; [|rewrite length_app; cbn; lia].
  injection E as ER. subst D' os' cs' R'.
  exists (combine (map fst os) (map fst cs)), (fst D), (fst R),
         (length (Heap s)), (S (length (Heap s))), s'.
  split; [now rewrite (GetCasePinPairs_eq _ _ Hobjs), Hk, Hv|].
  unfold GetDefaultOptionPin, GetReturnValuePin.
  split; [now rewrite (FindPin_eq _ _ _ Hobjs), HfD|].
  split; [now rewrite (FindPin_eq _ _ _ Hobjs), HfR|].
  split; [exact Hrun|].
  split.
  { rewrite (GetCasePinPairs_eq _ _ Hobjs'), Hk', Hv', !map_app. cbn [map fst k v].
    rewrite combine_snoc by (rewrite !length_map; lia). reflexivity. }
  split; [now rewrite (FindPin_eq _ _ _ Hobjs'), HfD'|].
  split; [now rewrite (FindPin_eq _ _ _ Hobjs'), HfR'|].
  split; [reflexivity|]. split; [reflexivity|].
  subst s'. destruct s as [h ps g m]. cbn [Heap with_Pins with_Heap].
  rewrite length_app. reflexivity.
Qed.

(** ** The theorems at the example nodes *)

Lemma pin_layout_invariant_witness :
  (exists s', AllocateDefaultPins fresh_node = Some (tt, s') /\
              Layout 2 s' /\ GetCasePinCount s' = Some (2%Z, s')) /\
  (exists pair s', AddCasePinPair (Z.of_nat 2) default_node = Some (pair, s') /\
                   Layout 3 s' /\ GetCasePinCount s' = Some (Z.of_nat 3, s')).
Proof.
  split.
  - apply (proj1 pin_layout_invariant fresh_node). reflexivity.
  - apply (proj2 pin_layout_invariant 2%nat default_node).
    + apply Layout_iff. reflexivity.
    + vm_compute. reflexivity.
Defined.

Lemma add_case_pair_types_witness :
  exists Key Value s' kpin vpin,
    AddCasePinPair 2 fixed_node = Some ((Key, Value), s') /\
    Heap s' !! Key = Some kpin /\ Heap s' !! Value = Some vpin /\
    PinName kpin = GetCasePinName CaseKeyPinNamePrefix 2 /\
    PinName vpin = GetCasePinName CaseValuePinNamePrefix 2 /\
    PinType kpin = PinType (pin_at fixed_node 0) /\
    PinCategory (PinType vpin) = PC_Boolean /\
    Key ∈ Pins s' /\ Value ∈ Pins s'.
Proof.
  apply (add_case_pair_types fixed_node 2 2 0 (pin_at fixed_node 0)); reflexivity.
Defined.

Lemma type_unification_on_first_link_witness :
  exists s',
    PinConnectionListChanged {| AutogeneratedDefaultValue := fun _ => "0" |}
      (Some 2%nat) option_linked_node = Some (tt, s') /\
    GetDefaultOptionPin s' = Some (Some 0%nat, s') /\
    GetReturnValuePin s' = Some (Some 1%nat, s') /\
    GetCasePinPairs s' = Some ([(2, 3); (4, 5)]%nat, s') /\
    forall q, q = 0%nat \/ q = 1%nat \/ q ∈ map fst [(2, 3); (4, 5)]%nat ->
      exists qpin, Heap s' !! q = Some qpin /\
                   PinType qpin = PinType (external_pin PC_Int) /\
                   DefaultValue qpin = "0".
Proof.
  apply (type_unification_on_first_link {| AutogeneratedDefaultValue := fun _ => "0" |}
           option_linked_node 2 (pin_at option_linked_node 2) 6 (external_pin PC_Int)
           0 (pin_at option_linked_node 0) 1 [(2, 3); (4, 5)]%nat); reflexivity.
Defined.

Lemma type_unification_from_result_pin_witness :
  exists s',
    PinConnectionListChanged {| AutogeneratedDefaultValue := fun _ => "0" |}
      (Some 1%nat) result_linked_node = Some (tt, s') /\
    GetDefaultOptionPin s' = Some (Some 0%nat, s') /\
    GetReturnValuePin s' = Some (Some 1%nat, s') /\
    GetCasePinPairs s' = Some ([(2, 3); (4, 5)]%nat, s') /\
    forall q, q = 0%nat \/ q = 1%nat \/ q ∈ map fst [(2, 3); (4, 5)]%nat ->
      exists qpin, Heap s' !! q = Some qpin /\
                   PinType qpin = PinType (external_pin PC_Int) /\
                   DefaultValue qpin = "0".
Proof.
  apply (type_unification_from_result_pin {| AutogeneratedDefaultValue := fun _ => "0" |}
           result_linked_node 6 (external_pin PC_Int)
           0 (pin_at result_linked_node 0) 1 (pin_at result_linked_node 1)
           [(2, 3); (4, 5)]%nat); reflexivity.
Defined.


Lemma type_unification_idempotent_witness :
  (forall P, (forall p, P = Some p -> (p < length (Heap fixed_node))%nat) ->
     PinConnectionListChanged {| AutogeneratedDefaultValue := fun _ => "0" |} P fixed_node =
     Some (tt, fixed_node)) /\
  (forall evs : list (PinPtr * PinPtr),
     Forall (fun e => (fst e < length (Heap fixed_node))%nat /\
                      (snd e < length (Heap fixed_node))%nat) evs ->
     exists s',
       for_each evs (fun e => ConnectPin {| AutogeneratedDefaultValue := fun _ => "0" |}
                                (fst e) (snd e)) fixed_node = Some (tt, s') /\
       Pins s' = Pins fixed_node /\
       map PinType (Heap s') = map PinType (Heap fixed_node) /\
       map PinName (Heap s') = map PinName (Heap fixed_node)).
Proof.
  apply (type_unification_idempotent {| AutogeneratedDefaultValue := fun _ => "0" |}
           fixed_node 0 (pin_at fixed_node 0)).
  - reflexivity.
  - reflexivity.
  - vm_compute. discriminate.
Defined.

Lemma expansion_selects_first_true_witness :
  exists s' IndexPin OptionPins ReturnValuePin,
    ExpandNode literal_node = Some (tt, s') /\
    Intermediate s' !! 1%nat = Some (K2Node_Select IndexPin OptionPins ReturnValuePin) /\
    ILinkedTo ReturnValuePin = map ToPin (LinkedTo (pin_at literal_node 1)) /\
    (forall i kpin,
       [false; true] !! i = Some true ->
       (forall j, (j < i)%nat -> [false; true] !! j = Some false) ->
       [pin_at literal_node 2; pin_at literal_node 4] !! i = Some kpin ->
       eval_node (fun _ _ => VScalar (SText "")) (fun _ => VScalar (SText ""))
         (Intermediate s') 4 1 =
       Some (PinValue (fun _ => VScalar (SText "")) kpin)) /\
    ((forall i c, [false; true] !! i = Some c -> c = false) ->
     eval_node (fun _ _ => VScalar (SText "")) (fun _ => VScalar (SText ""))
       (Intermediate s') 4 1 =
     Some (PinValue (fun _ => VScalar (SText "")) (pin_at literal_node 0))).
Proof.
  apply (expansion_selects_first_true literal_node [(2, 3); (4, 5)]%nat 0 1
           (pin_at literal_node 0) (pin_at literal_node 1)
           [pin_at literal_node 2; pin_at literal_node 4]
           [pin_at literal_node 3; pin_at literal_node 5]
           [false; true]).
  - reflexivity.
  - apply (bool_decide_unpack _). vm_compute. exact I.
  - reflexivity.
  - vm_compute. lia.
  - reflexivity.
  - reflexivity.
  - reflexivity.
  - reflexivity.
  - repeat constructor.
  - repeat constructor.
  - repeat constructor.
  - lia.
Defined.

Lemma expansion_reads_case_pair_zero_witness :
  ExpandNode pairless_node = None /\
  exists Pair0 kpin0 s' Index1 Options1 Return1 Index2 Options2 Return2,
    [(2, 3); (4, 5)]%nat !! 0%nat = Some Pair0 /\
    Heap fixed_node !! fst Pair0 = Some kpin0 /\
    ExpandNode fixed_node = Some (tt, s') /\
    Intermediate s' !! 0%nat = Some (K2Node_Select Index1 Options1 Return1) /\
    Intermediate s' !! 1%nat = Some (K2Node_Select Index2 Options2 Return2) /\
    Forall (fun ip => IPinType ip = PinType kpin0) Options1 /\
    IPinType Return1 = PinType kpin0 /\
    IPinType Return2 = PinType kpin0.
Proof.
  split.
  - apply (proj1 (expansion_reads_case_pair_zero pairless_node [] eq_refl)). reflexivity.
  - apply (proj2 (expansion_reads_case_pair_zero fixed_node [(2, 3); (4, 5)]%nat eq_refl))
      with (d := 0%nat) (r := 1%nat) (dpin := pin_at fixed_node 0) (rpin := pin_at fixed_node 1).
    + vm_compute. lia.
    + reflexivity.
    + apply (bool_decide_unpack _). vm_compute. exact I.
    + reflexivity.
    + reflexivity.
    + reflexivity.
    + reflexivity.
Defined.

(** ** The properties at the example nodes *)

Lemma default_node_typed : TypedLayout wildcard_type 2 default_node.
Proof.
  apply TypedLayout_objs. eexists. split; [reflexivity|]. split; [reflexivity|].
  repeat constructor.
Qed.

Lemma option_linked_node_typed : TypedLayout wildcard_type 2 option_linked_node.
Proof.
  apply TypedLayout_objs. eexists. split; [reflexivity|]. split; [reflexivity|].
  repeat constructor.
Qed.

Lemma fixed_node_typed : TypedLayout (pin_type PC_Int) 2 fixed_node.
Proof.
  apply TypedLayout_objs. eexists. split; [reflexivity|]. split; [reflexivity|].
  repeat constructor.
Qed.

Lemma connection_event_ignored_witness :
  PinConnectionListChanged zero_schema None default_node = Some (tt, default_node) /\
  PinConnectionListChanged zero_schema (Some 2%nat) default_node = Some (tt, default_node).
Proof.
  apply (connection_event_ignored zero_schema default_node 2 (pin_at default_node 2)).
  - reflexivity.
  - left. reflexivity.
Defined.

Lemma unification_needs_default_pin_witness :
  PinConnectionListChanged zero_schema (Some 0%nat) headless_node = None.
Proof.
  apply (unification_needs_default_pin zero_schema headless_node
           [(0%nat, pin_at headless_node 0)] 0 (pin_at headless_node 0)).
  - reflexivity.
  - reflexivity.
  - reflexivity.
  - vm_compute. discriminate.
  - reflexivity.
Defined.

Lemma unification_frame_witness :
  exists s',
    PinConnectionListChanged zero_schema (Some 2%nat) option_linked_node = Some (tt, s') /\
    Pins s' = Pins option_linked_node /\
    Modified s' = true /\
    length (Heap s') = length (Heap option_linked_node) /\
    (forall q qpin, Heap option_linked_node !! q = Some qpin ->
       exists qpin', Heap s' !! q = Some qpin' /\
         PinName qpin' = PinName qpin /\
         Direction qpin' = Direction qpin /\
         PinFriendlyName qpin' = PinFriendlyName qpin /\
         LinkedTo qpin' = LinkedTo qpin /\
         (q <> 0%nat -> q <> 1%nat -> q ∉ map fst [(2, 3); (4, 5)]%nat -> qpin' = qpin)) /\
    (forall q, q ∈ map snd [(2, 3); (4, 5)]%nat ->
       Heap s' !! q = Heap option_linked_node !! q).
Proof.
  apply (unification_frame zero_schema option_linked_node 2 (pin_at option_linked_node 2)
           6 (external_pin PC_Int) 0 (pin_at option_linked_node 0) 1);
    reflexivity.
Defined.

Lemma layout_lookup_witness :
  exists d ks vs r,
    Pins default_node = (d :: ks) ++ vs ++ [r] /\
    length ks = 2%nat /\ length vs = 2%nat /\
    GetDefaultOptionPin default_node = Some (Some d, default_node) /\
    GetReturnValuePin default_node = Some (Some r, default_node) /\
    GetCasePinPairs default_node = Some (combine ks vs, default_node) /\
    NoDup (Pins default_node).
Proof.
  apply (layout_lookup 2 default_node). apply Layout_iff. reflexivity.
Defined.

Lemma expansion_of_laid_out_node_witness :
  exists s',
    ExpandNode default_node = Some (tt, s') /\
    length (Intermediate s') = 5%nat /\
    Pins s' = Pins default_node /\
    Layout 2 s' /\
    forall q qpin, q ∈ Pins default_node -> Heap default_node !! q = Some qpin ->
      exists qpin', Heap s' !! q = Some qpin' /\
        LinkedTo qpin' = [] /\
        PinName qpin' = PinName qpin /\
        PinType qpin' = PinType qpin /\
        Direction qpin' = Direction qpin /\
        PinFriendlyName qpin' = PinFriendlyName qpin.
Proof.
  apply (expansion_of_laid_out_node 2 default_node).
  - apply Layout_iff. reflexivity.
  - lia.
  - reflexivity.
Defined.

Lemma expansion_wiring_witness :
  exists s' Index Options Return Select2nd Inputs Output TargetArray ItemToFind Found A B Equal,
    ExpandNode three_pair_node = Some (tt, s') /\
    Intermediate s' =
      [ K2Node_Select Index Options Return; Select2nd;
        K2Node_MakeArray Inputs Output;
        K2Node_CallFunction "Array_Find"
          [("TargetArray", TargetArray); ("ItemToFind", ItemToFind)] Found;
        K2Node_CallFunction "EqualEqual_IntInt" [("A", A); ("B", B)] Equal ] /\
    length Options = Nat.max 2 3 /\
    length Inputs = 3%nat /\
    (forall i k kpin, (i < 3)%nat ->
       Pins three_pair_node !! (1 + i)%nat = Some k -> Heap three_pair_node !! k = Some kpin ->
       exists ip, Options !! i = Some ip /\
                  ILinkedTo ip = map ToPin (LinkedTo kpin) /\
                  IDefaultValue ip = DefaultValue kpin) /\
    (forall i ip, (3 <= i)%nat -> Options !! i = Some ip -> ILinkedTo ip = []) /\
    (forall k0 kpin0, Pins three_pair_node !! 1%nat = Some k0 ->
       Heap three_pair_node !! k0 = Some kpin0 ->
       Forall (fun ip => IPinType ip = PinType kpin0) Options /\
       IPinType Return = PinType kpin0) /\
    (forall i v vpin, (i < 3)%nat ->
       Pins three_pair_node !! (3 + 1 + i)%nat = Some v -> Heap three_pair_node !! v = Some vpin ->
       exists ip, Inputs !! i = Some ip /\
                  PinCategory (IPinType ip) = PC_Boolean /\
                  ILinkedTo ip = map ToPin (LinkedTo vpin) /\
                  IDefaultValue ip = DefaultValue vpin) /\
    ILinkedTo Output = [ToIntermediate (3%nat, SelParam "TargetArray")] /\
    ILinkedTo TargetArray = [ToIntermediate (2%nat, SelReturn)] /\
    ILinkedTo ItemToFind = [] /\ IDefaultValue ItemToFind = "true" /\
    ILinkedTo Found = [ToIntermediate (0%nat, SelIndex); ToIntermediate (4%nat, SelParam "A")] /\
    ILinkedTo Index = [ToIntermediate (3%nat, SelReturn)] /\
    ILinkedTo A = [ToIntermediate (3%nat, SelReturn)] /\
    ILinkedTo B = [] /\ IDefaultValue B = "-1" /\
    ILinkedTo Equal = [ToIntermediate (1%nat, SelIndex)].
Proof.
  apply (expansion_wiring 3 three_pair_node).
  - apply Layout_iff. reflexivity.
  - lia.
  - reflexivity.
Defined.

Lemma allocation_types_witness :
  exists s', AllocateDefaultPins fresh_node = Some (tt, s') /\ TypedLayout wildcard_type 2 s'.
Proof. apply (allocation_types fresh_node). reflexivity. Defined.

Lemma add_case_pair_keeps_types_witness :
  exists pair s',
    AddCasePinPair (Z.of_nat 2) fixed_node = Some (pair, s') /\
    TypedLayout (pin_type PC_Int) 3 s' /\
    forall q qpin, Heap fixed_node !! q = Some qpin -> Heap s' !! q = Some qpin.
Proof.
  apply (add_case_pair_keeps_types (pin_type PC_Int) 2 fixed_node).
  - exact fixed_node_typed.
  - vm_compute. reflexivity.
Defined.

Lemma connection_keeps_types_witness :
  exists T' s',
    PinConnectionListChanged zero_schema (Some 2%nat) option_linked_node = Some (tt, s') /\
    TypedLayout T' 2 s' /\
    (PinCategory wildcard_type <> PC_Wildcard -> T' = wildcard_type /\ s' = option_linked_node).
Proof.
  apply (connection_keeps_types zero_schema wildcard_type 2 option_linked_node 2
           (pin_at option_linked_node 2)).
  - exact option_linked_node_typed.
  - reflexivity.
  - intros L HL. vm_compute in HL. injection HL as <-. eexists. reflexivity.
Defined.

Lemma reallocation_rebuilds_the_node_witness :
  exists s',
    ReallocatePinsDuringReconstruction [0; 2; 4; 3; 5; 1]%nat reconstructing_node =
      Some (tt, s') /\
    TypedLayout (pin_type PC_Int) 2 s' /\
    (forall q qpin, Heap reconstructing_node !! q = Some qpin -> Heap s' !! q = Some qpin).
Proof.
  apply (reallocation_rebuilds_the_node reconstructing_node [0; 2; 4; 3; 5; 1]%nat
           (map (fun q => (q, pin_at reconstructing_node q)) [0; 2; 4; 3; 5; 1]%nat)).
  - reflexivity.
  - reflexivity.
  - vm_compute. reflexivity.
Defined.

Lemma reconstruct_round_trip_witness :
  exists s', ReconstructNode fixed_node = Some (tt, s') /\ TypedLayout (pin_type PC_Int) 2 s'.
Proof.
  apply (reconstruct_round_trip (pin_type PC_Int) 2 fixed_node).
  - exact fixed_node_typed.
  - vm_compute. reflexivity.
Defined.

Lemma add_case_pair_needs_default_pin_witness : AddCasePinPair 1 headless_node = None.
Proof.
  apply (add_case_pair_needs_default_pin headless_node [(0%nat, pin_at headless_node 0)] 1);
    reflexivity.
Defined.

Lemma add_case_pair_appends_pair_witness :
  exists pairs d r Key Value s',
    GetCasePinPairs default_node = Some (pairs, default_node) /\
    GetDefaultOptionPin default_node = Some (Some d, default_node) /\
    GetReturnValuePin default_node = Some (Some r, default_node) /\
    AddCasePinPair (Z.of_nat 2) default_node = Some ((Key, Value), s') /\
    GetCasePinPairs s' = Some (pairs ++ [(Key, Value)], s') /\
    GetDefaultOptionPin s' = Some (Some d, s') /\
    GetReturnValuePin s' = Some (Some r, s') /\
    Key = length (Heap default_node) /\ Value = S (length (Heap default_node)) /\
    length (Heap s') = (length (Heap default_node) + 2)%nat.
Proof.
  apply (add_case_pair_appends_pair 2 default_node).
  - apply Layout_iff. reflexivity.
  - vm_compute. reflexivity.
Defined.

Lemma Select2nd_option_pins_witness :
  exists s' IndexPin Option0 Option1 More ReturnValuePin,
    ExpandNode three_pair_node = Some (tt, s') /\
    Intermediate s' !! 1%nat =
      Some (K2Node_Select IndexPin (Option0 :: Option1 :: More) ReturnValuePin) /\
    PinCategory (IPinType IndexPin) = PC_Boolean /\
    ILinkedTo IndexPin = [ToIntermediate (4%nat, SelReturn)] /\
    ILinkedTo Option0 = [ToIntermediate (0%nat, SelReturn)] /\
    ILinkedTo Option1 = map ToPin (LinkedTo (pin_at three_pair_node 0)) /\
    IDefaultValue Option1 = DefaultValue (pin_at three_pair_node 0) /\
    length More = (length [(2, 3); (4, 5); (6, 7)]%nat - 2)%nat /\
    Forall (fun p => ILinkedTo p = []) More.
Proof.
  apply (Select2nd_option_pins three_pair_node [(2, 3); (4, 5); (6, 7)]%nat 0 1
           (pin_at three_pair_node 0) (pin_at three_pair_node 1)
           [pin_at three_pair_node 2; pin_at three_pair_node 4; pin_at three_pair_node 6]
           [pin_at three_pair_node 3; pin_at three_pair_node 5; pin_at three_pair_node 7]).
  - reflexivity.
  - apply (bool_decide_unpack _). vm_compute. exact I.
  - reflexivity.
  - vm_compute. lia.
  - reflexivity.
  - reflexivity.
  - reflexivity.
  - reflexivity.
  - repeat constructor.
  - repeat constructor.
Defined.
